(** * kraken-bot: rate limiter, incremental trade sync, FIFO cost basis

    A shallow embedding of the exchange module of the bot (the file that
    requires [kraken-api] and [./state]) and of the persistence helpers
    of the state module, with the properties of the rate limiter
    ([decayCounter], [waitForRateLimit]), of the incremental sync
    ([fetchNewTrades]) and of the cost-basis rebuild ([buildCostBasis]).
    A second part (further code, further properties) adds binary64
    rounding and the limiter and the FIFO replay in doubles, the backfill
    and its dispatch ([fetchFullTradeHistory], [fetchAllTradeHistory]),
    [updateRecentTrades], the pair lookup ([fetchPairs],
    [findPairForAsset]), the balance and the positions ([fetchBalance],
    [getEnrichedPositions]), the computed ticker figures, and from the
    state module [log] and [recordBalanceSnapshot].

    Conventions of the embedding.
    - A JavaScript number is a rational ([Q]); [==] is numeric equality.
      The functions are first written in exact arithmetic, which is what
      the control flow, the record keeping and the scenarios with
      exactly representable amounts need.  Where a property depends on
      how binary64 rounds, the function is written a second time in
      [Module Double], every arithmetic operation of the source followed
      by [round64], the round-to-nearest-even of IEEE 754 binary64;
      the properties of the counter and of the FIFO amounts are proved
      there.  The ticker figures and the BTC equivalent of a balance
      snapshot are written in doubles from the start.  [NaN], the
      infinities, underflow and the sign of zero are outside the model,
      and every division of the source that is modelled here is guarded
      by the source against a zero divisor or divides by a non-zero
      constant.
    - The decimal strings that the exchange sends for [vol], [price] and
      [cost] are carried as the numbers [parseFloat] reads from them.
    - A JavaScript object used as a dictionary whose iteration order is
      observed (the trade ledger, a page of trades, the cost-basis map)
      is an association list in insertion order; keys are never
      canonical array indices (trade ids, asset names).
    - The process state is passed explicitly ([World]).  It carries the
      wall clock: synchronous code takes no time, time passes at timers
      and at API calls, by amounts the environment ([Env]) decides.
      The process is a single logical caller: nothing else runs while a
      function is suspended at an [await].
    - The two loops that wait on the outside world ([waitForRateLimit],
      [fetchNewTrades]) take fuel and return [None] when it runs out;
      the FIFO loop is bounded by the number of lots, which is shown to
      be enough.
    - The [log] calls of the exchange module and [console.error] are
      not modelled; [log] itself is modelled on [state.logs] alone.
    - The second part passes the pieces of state it needs on their own
      (the wallet and the trade balance, the pairs and their map, the
      log, the balance history), and reads asset and pair names as
      ASCII strings. *)

From Stdlib Require Import QArith Qminmax Qround Qpower Lqa Lia List String Bool Permutation.
From stdpp Require Import gmap strings.
Import ListNotations.

Local Open Scope Q_scope.

(** ** Numbers *)

(** [x < y] on JavaScript numbers, as a test. *)
Definition Qlt_bool (x y : Q) : bool := negb (Qle_bool y x).

(** A counter ([wins], [count], ...) used in arithmetic. *)
Definition Qnat (n : nat) : Q := inject_Z (Z.of_nat n).

(** ** Objects used as dictionaries *)

Module Obj.
Section Dict.
Context {V : Type}.

Definition t := list (string * V).

(** [o[k]] *)
Fixpoint get (o : t) (k : string) : option V :=
  match o with
  | [] => None
  | (k', v) :: o' => if String.eqb k k' then Some v else get o' k
  end.

(** [o[k] = v]: in place when the key exists, appended otherwise. *)
Fixpoint set (o : t) (k : string) (v : V) : t :=
  match o with
  | [] => [(k, v)]
  | (k', v') :: o' =>
      if String.eqb k k' then (k, v) :: o' else (k', v') :: set o' k v
  end.

(** [Object.keys(o)], [Object.values(o)]; [Object.entries(o)] is [o]. *)
Definition keys (o : t) : list string := map fst o.
Definition values (o : t) : list V := map snd o.

(** A well-formed object has each key once. *)
Definition wf (o : t) : Prop := List.NoDup (keys o).
End Dict.
Arguments t : clear implicits.
End Obj.

(** [Array.prototype.sort] with a comparator: a stable sort.  [le a b]
    holds when the comparator does not put [b] strictly before [a]. *)
Section StableSort.
Context {A : Type} (le : A -> A -> bool).

Fixpoint sort_insert (x : A) (l : list A) : list A :=
  match l with
  | [] => [x]
  | y :: l' => if le x y then x :: y :: l' else y :: sort_insert x l'
  end.

Fixpoint stable_sort (l : list A) : list A :=
  match l with
  | [] => []
  | x :: l' => sort_insert x (stable_sort l')
  end.

(** [x] compares equal to [k]. *)
Definition same_rank (k x : A) : bool := le k x && le x k.

(** Each element is in order with its successor. *)
Fixpoint ordered (l : list A) : Prop :=
  match l with
  | [] => True
  | x :: l' =>
      match l' with
      | [] => True
      | y :: _ => le x y = true
      end /\ ordered l'
  end.
End StableSort.

(** ** Data model *)

(** [rateLimit] *)
Record RateLimit := {
  counter : Q;
  maxCounter : Q;
  lastDecay : Q;      (* ms *)
  decayRate : Q       (* per second *)
}.

(** One trade of [TradesHistory], with the fields the bot reads. *)
Record Trade := {
  pair : string;
  type : string;      (* 'buy' or 'sell' *)
  price : Q;
  vol : Q;
  cost : Q;
  time : Q            (* unix seconds *)
}.

(** [state.fullTradeHistory] *)
Record TradeHistory := {
  trades : Obj.t Trade;
  lastFetchTime : option Q;
  totalCount : nat
}.

Record Lot := {
  lot_price : Q;
  lot_amount : Q;
  lot_remaining : Q;
  lot_time : Q
}.

Record CompletedTrade := {
  sellTime : Q;
  sellPrice : Q;
  amount : Q;
  amountMatched : Q;
  pnl : Q;
  pnlPercent : Q
}.

(** One entry of [state.costBasis] *)
Record CostBasis := {
  lots : list Lot;
  totalInvested : Q;
  totalReturned : Q;
  realizedPnL : Q;
  completedTrades : list CompletedTrade
}.

(** One entry of [recentActivity] *)
Record Activity := {
  act_asset : string;
  act_pnl : Q;
  act_pnlPercent : Q;
  act_sellTime : Q;
  act_sellPrice : Q
}.

Record Summary := {
  totalTrades : nat;
  sum_realizedPnL : Q;
  weeklyPnL : Q;
  winningTrades : nat;
  losingTrades : nat;
  winRate : Q;
  weeklyWinRate : Q
}.

(** [state.tradeAnalytics] *)
Record TradeAnalytics := {
  lastUpdate : option Q;
  summary : Summary;
  recentActivity : list Activity
}.

(** A call of [saveJSON]: the file and the structure handed to it.  A
    failing write is caught inside [saveJSON] and changes nothing else. *)
Inductive WriteEvent :=
| SaveTradeHistory (h : TradeHistory)
| SaveCostBasis (cb : Obj.t CostBasis)
| SaveAnalytics (a : TradeAnalytics).

(** The part of the process state the three components touch, with the
    wall clock and the two outward effects (API requests, file writes). *)
Record World := {
  clock : Q;                                  (* Date.now(), ms *)
  rateLimit : RateLimit;
  pairs : gmap string string;                 (* state.pairs: pair -> base *)
  fullTradeHistory : TradeHistory;
  costBasis : Obj.t CostBasis;
  tradeAnalytics : TradeAnalytics;
  recentTrades : list (string * Trade);       (* state.trades *)
  requests : list nat;                        (* TradesHistory offsets, oldest first *)
  writes : list WriteEvent                    (* oldest first *)
}.

(** The answer of [kraken.api('TradesHistory', ...)] *)
Inductive Response :=
| ApiError
| Page (page : Obj.t Trade).

(** What the outside decides. *)
Record Env := {
  gateway : nat -> Response;     (* the page at an offset *)
  apiLatency : nat -> Q;         (* ms the call at an offset takes *)
  timerLag : Q -> Q              (* ms a timer set at that time fires late *)
}.

Definition set_clock (w : World) (t : Q) : World :=
  {| clock := t; rateLimit := rateLimit w; pairs := pairs w;
     fullTradeHistory := fullTradeHistory w; costBasis := costBasis w;
     tradeAnalytics := tradeAnalytics w; recentTrades := recentTrades w;
     requests := requests w; writes := writes w |}.

Definition set_rateLimit (w : World) (rl : RateLimit) : World :=
  {| clock := clock w; rateLimit := rl; pairs := pairs w;
     fullTradeHistory := fullTradeHistory w; costBasis := costBasis w;
     tradeAnalytics := tradeAnalytics w; recentTrades := recentTrades w;
     requests := requests w; writes := writes w |}.

Definition set_fullTradeHistory (w : World) (h : TradeHistory) : World :=
  {| clock := clock w; rateLimit := rateLimit w; pairs := pairs w;
     fullTradeHistory := h; costBasis := costBasis w;
     tradeAnalytics := tradeAnalytics w; recentTrades := recentTrades w;
     requests := requests w; writes := writes w |}.

Definition set_costBasis (w : World) (cb : Obj.t CostBasis) : World :=
  {| clock := clock w; rateLimit := rateLimit w; pairs := pairs w;
     fullTradeHistory := fullTradeHistory w; costBasis := cb;
     tradeAnalytics := tradeAnalytics w; recentTrades := recentTrades w;
     requests := requests w; writes := writes w |}.

Definition set_tradeAnalytics (w : World) (a : TradeAnalytics) : World :=
  {| clock := clock w; rateLimit := rateLimit w; pairs := pairs w;
     fullTradeHistory := fullTradeHistory w; costBasis := costBasis w;
     tradeAnalytics := a; recentTrades := recentTrades w;
     requests := requests w; writes := writes w |}.

Definition set_recentTrades (w : World) (l : list (string * Trade)) : World :=
  {| clock := clock w; rateLimit := rateLimit w; pairs := pairs w;
     fullTradeHistory := fullTradeHistory w; costBasis := costBasis w;
     tradeAnalytics := tradeAnalytics w; recentTrades := l;
     requests := requests w; writes := writes w |}.

Definition add_request (w : World) (ofs : nat) : World :=
  {| clock := clock w; rateLimit := rateLimit w; pairs := pairs w;
     fullTradeHistory := fullTradeHistory w; costBasis := costBasis w;
     tradeAnalytics := tradeAnalytics w; recentTrades := recentTrades w;
     requests := requests w ++ [ofs]; writes := writes w |}.

Definition add_write (w : World) (e : WriteEvent) : World :=
  {| clock := clock w; rateLimit := rateLimit w; pairs := pairs w;
     fullTradeHistory := fullTradeHistory w; costBasis := costBasis w;
     tradeAnalytics := tradeAnalytics w; recentTrades := recentTrades w;
     requests := requests w; writes := writes w ++ [e] |}.

(** ** Persistence (state module) *)

Definition saveTradeHistory (w : World) : World :=
  add_write w (SaveTradeHistory (fullTradeHistory w)).
Definition saveCostBasis (w : World) : World :=
  add_write w (SaveCostBasis (costBasis w)).
Definition saveAnalytics (w : World) : World :=
  add_write w (SaveAnalytics (tradeAnalytics w)).

(** ** Rate limiting *)

(** The initial [rateLimit] object; [t0] is [Date.now()] at load. *)
Definition rateLimit0 (t0 : Q) : RateLimit :=
  {| counter := 0; maxCounter := 15; lastDecay := t0; decayRate := 33 # 100 |}.

(** The body of [decayCounter] at clock reading [now]. *)
Definition decay_at (now : Q) (rl : RateLimit) : RateLimit :=
  let elapsed := (now - lastDecay rl) / 1000 in
  let decay := elapsed * decayRate rl in
  {| counter := Qmax 0 (counter rl - decay);
     maxCounter := maxCounter rl;
     lastDecay := now;
     decayRate := decayRate rl |}.

Definition decayCounter (w : World) : World :=
  set_rateLimit w (decay_at (clock w) (rateLimit w)).

(** [await new Promise(r => setTimeout(r, ms))] *)
Definition sleep (env : Env) (ms : Q) (w : World) : World :=
  set_clock w (clock w + ms + timerLag env (clock w)).

Definition waitTime (cost : Q) (rl : RateLimit) : Q :=
  inject_Z (Qceiling ((counter rl + cost - maxCounter rl) / decayRate rl)) * 1000 + 500.

(** The [while] loop of [waitForRateLimit].  The second component is the
    history of the [rateLimit] object: its contents after each decay
    pass of the loop, oldest first.  [None]: still waiting when the fuel
    is spent. *)
Fixpoint waitLoop (fuel : nat) (env : Env) (cost : Q) (w : World)
  : option (World * list RateLimit) :=
  if Qlt_bool (maxCounter (rateLimit w)) (counter (rateLimit w) + cost) then
    match fuel with
    | O => None
    | S fuel' =>
        let w1 := sleep env (waitTime cost (rateLimit w)) w in
        let w2 := decayCounter w1 in
        match waitLoop fuel' env cost w2 with
        | Some (w', hist) => Some (w', rateLimit w2 :: hist)
        | None => None
        end
    end
  else Some (w, []).

Definition grant (cost : Q) (rl : RateLimit) : RateLimit :=
  {| counter := counter rl + cost;
     maxCounter := maxCounter rl;
     lastDecay := lastDecay rl;
     decayRate := decayRate rl |}.

(** [waitForRateLimit(cost)]: the world when the call returns, and the
    history of the [rateLimit] object during the call (after the first
    decay pass, after each later one, and last after the increment). *)
Definition waitForRateLimit (fuel : nat) (env : Env) (cost : Q) (w : World)
  : option (World * list RateLimit) :=
  let w0 := decayCounter w in
  match waitLoop fuel env cost w0 with
  | Some (w1, hist) =>
      let w2 := set_rateLimit w1 (grant cost (rateLimit w1)) in
      Some (w2, rateLimit w0 :: hist ++ [rateLimit w2])
  | None => None
  end.

(** A sequence of reservations by one caller: before each call the
    caller is busy elsewhere for [pause] ms.  The result lists, per
    call, the world at its return and the history during it. *)
Fixpoint reserveAll (fuel : nat) (env : Env) (calls : list (Q * Q)) (w : World)
  : option (list (World * list RateLimit)) :=
  match calls with
  | [] => Some []
  | (pause, cost) :: calls' =>
      match waitForRateLimit fuel env cost (set_clock w (clock w + pause)) with
      | Some (w', hist) =>
          match reserveAll fuel env calls' w' with
          | Some rest => Some ((w', hist) :: rest)
          | None => None
          end
      | None => None
      end
  end.

(** ** Asset of a pair *)

Definition ends_with (suffix s : string) : bool :=
  let n := String.length s in
  let k := String.length suffix in
  (k <=? n)%nat && String.eqb (substring (n - k) k s) suffix.

Definition drop_end (k : nat) (s : string) : string :=
  substring 0 (String.length s - k) s.

(** [s.replace(/Z?EUR$/, '')] *)
Definition strip_eur (s : string) : string :=
  if ends_with "ZEUR" s then drop_end 4 s
  else if ends_with "EUR" s then drop_end 3 s
  else s.

(** [s.replace(/\.S$/, '')] *)
Definition strip_staked (s : string) : string :=
  if ends_with ".S" s then drop_end 2 s else s.

(** [getAssetFromPair]; an empty [base] is falsy. *)
Definition getAssetFromPair (prs : gmap string string) (p : string) : string :=
  match prs !! p with
  | Some base =>
      if String.eqb base "" then strip_staked (strip_eur p) else base
  | None => strip_staked (strip_eur p)
  end.

(** ** Cost basis: FIFO replay *)

(** The variables of the FIFO matching loop. *)
Record Fifo := {
  f_remaining : Q;
  f_costBasisUsed : Q;
  f_amountMatched : Q;
  f_lots : list Lot
}.

Definition fifo_guard (st : Fifo) : bool :=
  Qlt_bool 0 (f_remaining st) && negb (Nat.eqb (List.length (f_lots st)) 0).

(** One pass through the body of [while (remaining > 0 && cb.lots.length > 0)]. *)
Definition fifoBody (st : Fifo) : Fifo :=
  match f_lots st with
  | [] => st
  | lot :: rest =>
      let used := Qmin (f_remaining st) (lot_remaining lot) in
      let lot' := {| lot_price := lot_price lot; lot_amount := lot_amount lot;
                     lot_remaining := lot_remaining lot - used;
                     lot_time := lot_time lot |} in
      {| f_remaining := f_remaining st - used;
         f_costBasisUsed := f_costBasisUsed st + used * lot_price lot;
         f_amountMatched := f_amountMatched st + used;
         f_lots := if Qle_bool (lot_remaining lot') 0 then rest else lot' :: rest |}
  end.

(** The loop, cut after [fuel] passes. *)
Fixpoint fifoLoop (fuel : nat) (st : Fifo) : Fifo :=
  match fuel with
  | O => st
  | S fuel' => if fifo_guard st then fifoLoop fuel' (fifoBody st) else st
  end.

(** The loop of a sell of [amt] against [ls].  One pass per lot is
    enough ([fifoMatch_exits] below): a pass that keeps its lot has
    used up the sell. *)
Definition fifoMatch (amt : Q) (ls : list Lot) : Fifo :=
  fifoLoop (List.length ls)
    {| f_remaining := amt; f_costBasisUsed := 0; f_amountMatched := 0; f_lots := ls |}.

Definition emptyCostBasis : CostBasis :=
  {| lots := []; totalInvested := 0; totalReturned := 0; realizedPnL := 0;
     completedTrades := [] |}.

(** The [buy] branch. *)
Definition applyBuy (cb : CostBasis) (trade : Trade) : CostBasis :=
  {| lots := lots cb ++ [ {| lot_price := price trade; lot_amount := vol trade;
                            lot_remaining := vol trade; lot_time := time trade |} ];
     totalInvested := totalInvested cb + cost trade;
     totalReturned := totalReturned cb;
     realizedPnL := realizedPnL cb;
     completedTrades := completedTrades cb |}.

(** The [sell] branch. *)
Definition applySell (cb : CostBasis) (trade : Trade) : CostBasis :=
  let amt := vol trade in
  let m := fifoMatch amt (lots cb) in
  let costBasisUsed := f_costBasisUsed m in
  let matched := f_amountMatched m in
  let matchedSaleValue :=
    if Qlt_bool 0 matched then (matched / amt) * cost trade else 0 in
  let p := matchedSaleValue - costBasisUsed in
  {| lots := f_lots m;
     totalInvested := totalInvested cb;
     totalReturned := totalReturned cb + cost trade;
     realizedPnL := if Qlt_bool 0 matched then realizedPnL cb + p else realizedPnL cb;
     completedTrades := completedTrades cb ++
       [ {| sellTime := time trade;
            sellPrice := price trade;
            amount := amt;
            amountMatched := matched;
            pnl := if Qlt_bool 0 matched then p else 0;
            pnlPercent := if Qlt_bool 0 costBasisUsed
                          then (p / costBasisUsed) * 100 else 0 |} ] |}.

(** [if (!state.costBasis[asset]) state.costBasis[asset] = {...}] *)
Definition ensure (cbs : Obj.t CostBasis) (asset : string) : Obj.t CostBasis :=
  match Obj.get cbs asset with
  | Some _ => cbs
  | None => Obj.set cbs asset emptyCostBasis
  end.

(** [const cb = state.costBasis[asset]], once the entry exists. *)
Definition current (cbs : Obj.t CostBasis) (asset : string) : CostBasis :=
  match Obj.get cbs asset with
  | Some cb => cb
  | None => emptyCostBasis
  end.

(** The body of [for (const trade of trades)]; [cb] is changed in place. *)
Definition replayTrade (prs : gmap string string) (cbs : Obj.t CostBasis) (trade : Trade)
  : Obj.t CostBasis :=
  let asset := getAssetFromPair prs (pair trade) in
  let cbs1 := ensure cbs asset in
  let cb := current cbs1 asset in
  if String.eqb (type trade) "buy" then Obj.set cbs1 asset (applyBuy cb trade)
  else if String.eqb (type trade) "sell" then Obj.set cbs1 asset (applySell cb trade)
  else cbs1.

Definition by_time_asc (a b : Trade) : bool := Qle_bool (time a) (time b).

(** The first half of [buildCostBasis]: the new [state.costBasis]. *)
Definition replay (prs : gmap string string) (ledger : Obj.t Trade) : Obj.t CostBasis :=
  fold_left (replayTrade prs) (stable_sort by_time_asc (Obj.values ledger)) [].

(** ** Analytics summary *)

(** The accumulators of the summary loop of [buildCostBasis]. *)
Record Tally := {
  totalPnL : Q;
  t_weeklyPnL : Q;          (* the local [weeklyPnL] *)
  wins : nat;
  losses : nat;
  weeklyWins : nat;
  weeklyLosses : nat;
  t_recentActivity : list Activity
}.

Definition tally0 : Tally :=
  {| totalPnL := 0; t_weeklyPnL := 0; wins := 0; losses := 0;
     weeklyWins := 0; weeklyLosses := 0; t_recentActivity := [] |}.

(** [t.pnl >= 0] *)
Definition is_win (p : Q) : bool := Qle_bool 0 p.

(** The body of [for (const t of cb.completedTrades)]. *)
Definition tallyTrade (oneWeekAgo : Q) (asset : string) (a : Tally) (t : CompletedTrade)
  : Tally :=
  let inWeek := Qle_bool oneWeekAgo (sellTime t) in
  {| totalPnL := totalPnL a;
     t_weeklyPnL := if inWeek then t_weeklyPnL a + pnl t else t_weeklyPnL a;
     wins := if is_win (pnl t) then S (wins a) else wins a;
     losses := if is_win (pnl t) then losses a else S (losses a);
     weeklyWins := if inWeek && is_win (pnl t) then S (weeklyWins a) else weeklyWins a;
     weeklyLosses := if inWeek && negb (is_win (pnl t))
                     then S (weeklyLosses a) else weeklyLosses a;
     t_recentActivity := t_recentActivity a ++
       [ {| act_asset := asset; act_pnl := pnl t; act_pnlPercent := pnlPercent t;
            act_sellTime := sellTime t; act_sellPrice := sellPrice t |} ] |}.

(** The body of [for (const asset in state.costBasis)]. *)
Definition tallyAsset (oneWeekAgo : Q) (a : Tally) (entry : string * CostBasis) : Tally :=
  let (asset, cb) := entry in
  fold_left (tallyTrade oneWeekAgo asset) (completedTrades cb)
    {| totalPnL := totalPnL a + realizedPnL cb;
       t_weeklyPnL := t_weeklyPnL a; wins := wins a; losses := losses a;
       weeklyWins := weeklyWins a; weeklyLosses := weeklyLosses a;
       t_recentActivity := t_recentActivity a |}.

(** [(Date.now() - 7*24*60*60*1000) / 1000] *)
Definition oneWeekAgo (now : Q) : Q := (now - 7 * 24 * 60 * 60 * 1000) / 1000.

Definition tally (now : Q) (cbs : Obj.t CostBasis) : Tally :=
  fold_left (tallyAsset (oneWeekAgo now)) cbs tally0.

Definition by_sellTime_desc (a b : Activity) : bool :=
  Qle_bool (act_sellTime b) (act_sellTime a).

(** [displayedPnL], [displayedWins], [displayedLosses] *)
Record Displayed := {
  displayedPnL : Q;
  displayedWins : nat;
  displayedLosses : nat
}.

(** The body of [for (const t of displayedTrades)]. *)
Definition displayTrade (d : Displayed) (t : Activity) : Displayed :=
  {| displayedPnL := displayedPnL d + act_pnl t;
     displayedWins := if is_win (act_pnl t) then S (displayedWins d) else displayedWins d;
     displayedLosses := if is_win (act_pnl t) then displayedLosses d
                        else S (displayedLosses d) |}.

(** [(w + l) > 0 ? (w / (w + l)) * 100 : 0] *)
Definition rate (w l : nat) : Q :=
  if (0 <? w + l)%nat then (Qnat w / Qnat (w + l)) * 100 else 0.

(** The second half of [buildCostBasis]: the new [state.tradeAnalytics]. *)
Definition analytics (now : Q) (cbs : Obj.t CostBasis) : TradeAnalytics :=
  let a := tally now cbs in
  let displayedTrades := firstn 50 (stable_sort by_sellTime_desc (t_recentActivity a)) in
  let d := fold_left displayTrade displayedTrades
             {| displayedPnL := 0; displayedWins := 0; displayedLosses := 0 |} in
  {| lastUpdate := Some now;
     summary := {| totalTrades := wins a + losses a;
                   sum_realizedPnL := totalPnL a;
                   weeklyPnL := displayedPnL d;
                   winningTrades := wins a;
                   losingTrades := losses a;
                   winRate := rate (wins a) (losses a);
                   weeklyWinRate := rate (displayedWins d) (displayedLosses d) |};
     recentActivity := displayedTrades |}.

Definition buildCostBasis (w : World) : World :=
  let w1 := set_costBasis w (replay (pairs w) (trades (fullTradeHistory w))) in
  let w2 := set_tradeAnalytics w1 (analytics (clock w1) (costBasis w1)) in
  saveAnalytics (saveCostBasis w2).

(** ** Trade sync *)

Definition by_time_desc (a b : string * Trade) : bool :=
  Qle_bool (time (snd b)) (time (snd a)).

(** [updateRecentTrades(count)] *)
Definition updateRecentTrades (count : nat) (w : World) : World :=
  set_recentTrades w
    (firstn count (stable_sort by_time_desc (trades (fullTradeHistory w)))).

(** The variables the page loop of [fetchNewTrades] changes. *)
Record Merge := {
  m_trades : Obj.t Trade;       (* state.fullTradeHistory.trades *)
  m_hitExisting : bool;
  m_newInPage : nat;
  m_newTradesCount : nat
}.

(** The body of [for (const [id, trade] of Object.entries(trades))]. *)
Definition mergeEntry (m : Merge) (e : string * Trade) : Merge :=
  match Obj.get (m_trades m) (fst e) with
  | Some _ =>
      {| m_trades := m_trades m; m_hitExisting := true;
         m_newInPage := m_newInPage m; m_newTradesCount := m_newTradesCount m |}
  | None =>
      {| m_trades := Obj.set (m_trades m) (fst e) (snd e);
         m_hitExisting := m_hitExisting m;
         m_newInPage := S (m_newInPage m);
         m_newTradesCount := S (m_newTradesCount m) |}
  end.

Definition set_trades (w : World) (ts : Obj.t Trade) : World :=
  set_fullTradeHistory w
    {| trades := ts;
       lastFetchTime := lastFetchTime (fullTradeHistory w);
       totalCount := totalCount (fullTradeHistory w) |}.

(** [kraken.api('TradesHistory', { ofs: offset, trades: true }, ...)]:
    the request goes out and the answer arrives [apiLatency] later. *)
Definition callTradesHistory (env : Env) (offset : nat) (w : World) : Response * World :=
  let w1 := add_request w offset in
  (gateway env offset, set_clock w1 (clock w1 + apiLatency env offset)).

(** [while (!hitExisting) { ... }] of [fetchNewTrades], with the loop
    variables [offset], [newTradesCount], [hitExisting]; the result is
    [newTradesCount] at the exit.  [fuel] bounds the pages, [n] the
    waits of each reservation; [None]: not finished within them. *)
Fixpoint fetchLoop (fuel n : nat) (env : Env)
    (offset newTradesCount : nat) (hitExisting : bool) (w : World)
  : option (nat * World) :=
  if hitExisting then Some (newTradesCount, w)
  else
    match fuel with
    | O => None
    | S fuel' =>
        match waitForRateLimit n env 2 w with
        | None => None
        | Some (w1, _) =>
            let (result, w2) := callTradesHistory env offset w1 in
            match result with
            | ApiError => Some (newTradesCount, w2)
            | Page page =>
                let count := List.length (Obj.keys page) in
                if (count =? 0)%nat then Some (newTradesCount, w2)
                else
                  let m := fold_left mergeEntry page
                             {| m_trades := trades (fullTradeHistory w2);
                                m_hitExisting := hitExisting;
                                m_newInPage := 0;
                                m_newTradesCount := newTradesCount |} in
                  let w3 := set_trades w2 (m_trades m) in
                  if (m_newInPage m =? 0)%nat then Some (m_newTradesCount m, w3)
                  else if (count <? 50)%nat then Some (m_newTradesCount m, w3)
                  else fetchLoop fuel' n env (offset + 50) (m_newTradesCount m)
                         (m_hitExisting m) w3
            end
        end
    end.

(** What follows the loop in [fetchNewTrades]. *)
Definition finishSync (newTradesCount : nat) (w : World) : TradeHistory * World :=
  let w1 :=
    if (0 <? newTradesCount)%nat then
      saveTradeHistory
        (set_fullTradeHistory w
           {| trades := trades (fullTradeHistory w);
              lastFetchTime := Some (clock w);
              totalCount := List.length (Obj.keys (trades (fullTradeHistory w))) |})
    else w in
  let w2 := updateRecentTrades 200 (buildCostBasis w1) in
  (fullTradeHistory w2, w2).

(** [fetchNewTrades()]: the value the promise resolves to (it never
    rejects) and the world then. *)
Definition fetchNewTrades (fuel : nat) (env : Env) (w : World)
  : option (TradeHistory * World) :=
  match fetchLoop fuel fuel env 0 0 false w with
  | Some (newTradesCount, w') => Some (finishSync newTradesCount w')
  | None => None
  end.

(** ** Vocabulary of the properties *)

Definition sum_remaining (ls : list Lot) : Q :=
  fold_right (fun l acc => lot_remaining l + acc) 0 ls.

Definition sum_matched (cts : list CompletedTrade) : Q :=
  fold_right (fun c acc => amountMatched c + acc) 0 cts.

(** The lots an asset still holds, and what its sells matched. *)
Definition held (cbs : Obj.t CostBasis) (asset : string) : Q :=
  match Obj.get cbs asset with
  | Some cb => sum_remaining (lots cb)
  | None => 0
  end.

Definition matched (cbs : Obj.t CostBasis) (asset : string) : Q :=
  match Obj.get cbs asset with
  | Some cb => sum_matched (completedTrades cb)
  | None => 0
  end.

(** The volume of the buy trades of an asset among [ts]. *)
Definition bought (prs : gmap string string) (asset : string) (ts : list Trade) : Q :=
  fold_right
    (fun t acc =>
       if String.eqb (type t) "buy" && String.eqb (getAssetFromPair prs (pair t)) asset
       then vol t + acc else acc)
    0 ts.

(** The completed trades of all assets, in the order the summary loop
    meets them. *)
Definition toActivity (asset : string) (t : CompletedTrade) : Activity :=
  {| act_asset := asset; act_pnl := pnl t; act_pnlPercent := pnlPercent t;
     act_sellTime := sellTime t; act_sellPrice := sellPrice t |}.

Definition allCompleted (cbs : Obj.t CostBasis) : list Activity :=
  flat_map (fun e => map (toActivity (fst e)) (completedTrades (snd e))) cbs.

(** The count window: the 50 latest completed trades. *)
Definition countWindow (cbs : Obj.t CostBasis) : list Activity :=
  firstn 50 (stable_sort by_sellTime_desc (allCompleted cbs)).

Definition in_week (now : Q) (a : Activity) : bool :=
  Qle_bool (oneWeekAgo now) (act_sellTime a).

(** The time window: the completed trades of the last 7 days. *)
Definition timeWindow (now : Q) (cbs : Obj.t CostBasis) : list Activity :=
  List.filter (in_week now) (allCompleted cbs).

(** The P&L sum and the win rate of a view. *)
Definition pnlSum (l : list Activity) : Q :=
  fold_right (fun a acc => act_pnl a + acc) 0 l.

Definition winCount (l : list Activity) : nat :=
  length (List.filter (fun a => is_win (act_pnl a)) l).

Definition lossCount (l : list Activity) : nat :=
  length (List.filter (fun a => negb (is_win (act_pnl a))) l).

Definition winRateOf (l : list Activity) : Q := rate (winCount l) (lossCount l).

(** [totalPnL] after the summary loop, started at [z]. *)
Definition sumRealized (cbs : Obj.t CostBasis) (z : Q) : Q :=
  fold_left (fun acc e => acc + realizedPnL (snd e)) cbs z.

(** *** Sync *)

(** [if (state.fullTradeHistory.trades[id])] *)
Definition known (ledger : Obj.t Trade) (id : string) : bool :=
  match Obj.get ledger id with
  | Some _ => true
  | None => false
  end.

(** The entries of a page whose ids the ledger does not have, and
    whether the page has an id the ledger has. *)
Definition unseen (ledger page : Obj.t Trade) : Obj.t Trade :=
  List.filter (fun e => negb (known ledger (fst e))) page.

Definition has_known (ledger page : Obj.t Trade) : bool :=
  existsb (fun e => known ledger (fst e)) page.

(** When the sync stops after a page, as the specification words it: the
    gateway errored, or the page had no unseen id, or it was short. *)
Definition stops_as_claimed (ledger : Obj.t Trade) (resp : Response) : bool :=
  match resp with
  | ApiError => true
  | Page page =>
      (List.length (unseen ledger page) =? 0)%nat || (List.length page <? 50)%nat
  end.

(** When it stops, as the loop is written: the gateway errored, or the
    page had an id already known, or it was short. *)
Definition stops_as_coded (ledger : Obj.t Trade) (resp : Response) : bool :=
  match resp with
  | ApiError => true
  | Page page => has_known ledger page || (List.length page <? 50)%nat
  end.

(** The run a stop rule prescribes from [offset] on: the offsets to
    fetch and the entries to add to the ledger, in order.  After a page
    that does not stop the run, the offset advances by 50. *)
Fixpoint syncPlan (stops : Obj.t Trade -> Response -> bool) (fuel : nat) (env : Env)
    (offset : nat) (ledger : Obj.t Trade) : option (list nat * Obj.t Trade) :=
  match fuel with
  | O => None
  | S fuel' =>
      let resp := gateway env offset in
      let new := match resp with
                 | ApiError => []
                 | Page page => unseen ledger page
                 end in
      if stops ledger resp then Some ([offset], new)
      else
        match syncPlan stops fuel' env (offset + 50) (ledger ++ new) with
        | Some (offs, news) => Some (offset :: offs, new ++ news)
        | None => None
        end
  end.

(** Every page the gateway sends is a well-formed object. *)
Definition wf_env (env : Env) : Prop :=
  forall offset page, gateway env offset = Page page -> Obj.wf page.

(** Timers never fire early. *)
Definition punctual (env : Env) : Prop := forall t, 0 <= timerLag env t.

(** The budget decays and admits a [TradesHistory] call (cost 2). *)
Definition limiter_ready (w : World) : Prop :=
  0 < decayRate (rateLimit w) /\ 2 <= maxCounter (rateLimit w).

(** The ledger has every trade of the remote history. *)
Definition remote_known (env : Env) (ledger : Obj.t Trade) : Prop :=
  forall offset page, gateway env offset = Page page ->
    forall id, In id (Obj.keys page) -> known ledger id = true.

(** What the sync loop leaves alone. *)
Definition loop_frame (w w' : World) : Prop :=
  lastFetchTime (fullTradeHistory w') = lastFetchTime (fullTradeHistory w)
  /\ totalCount (fullTradeHistory w') = totalCount (fullTradeHistory w)
  /\ pairs w' = pairs w /\ costBasis w' = costBasis w
  /\ tradeAnalytics w' = tradeAnalytics w /\ recentTrades w' = recentTrades w
  /\ writes w' = writes w
  /\ decayRate (rateLimit w') = decayRate (rateLimit w)
  /\ maxCounter (rateLimit w') = maxCounter (rateLimit w).

(** ** Scenarios *)

(** The state at process start, before anything is loaded: the literals
    of the state module and of [rateLimit], at clock reading [t0]. *)
Definition state0 (t0 : Q) : World :=
  {| clock := t0;
     rateLimit := rateLimit0 t0;
     pairs := ∅;
     fullTradeHistory := {| trades := []; lastFetchTime := None; totalCount := 0 |};
     costBasis := [];
     tradeAnalytics :=
       {| lastUpdate := None;
          summary := {| totalTrades := 0; sum_realizedPnL := 0; weeklyPnL := 0;
                        winningTrades := 0; losingTrades := 0; winRate := 0;
                        weeklyWinRate := 0 |};
          recentActivity := [] |};
     recentTrades := [];
     requests := [];
     writes := [] |}.

(** An exchange with no trades, punctual timers, calls of 200 ms. *)
Definition quietEnv : Env :=
  {| gateway := fun _ => Page []; apiLatency := fun _ => 200; timerLag := fun _ => 0 |}.

(** Two reservations of 10 units one second apart: the second waits. *)
Definition twoBigCalls : list (Q * Q) := [(0, 10); (1000, 10)].

(** A lot as a buy leaves it: nothing consumed yet. *)
Definition freshLot (p a t : Q) : Lot :=
  {| lot_price := p; lot_amount := a; lot_remaining := a; lot_time := t |}.

Definition sellOf (p : string) (pr v c t : Q) : Trade :=
  {| pair := p; type := "sell"; price := pr; vol := v; cost := c; time := t |}.

Definition buyOf (p : string) (pr v c t : Q) : Trade :=
  {| pair := p; type := "buy"; price := pr; vol := v; cost := c; time := t |}.

(** Scenario A: two buys of 1.0 at 10000 and at 20000, then a sell of
    1.5 for 37500, replayed from the start. *)
Definition scenarioA_before : Obj.t CostBasis :=
  fold_left (replayTrade ∅)
    [buyOf "XXBTZEUR" 10000 1 10000 100; buyOf "XXBTZEUR" 20000 1 20000 200] [].

Definition scenarioA_sell : Trade := sellOf "XXBTZEUR" 25000 (3 # 2) 37500 300.

(** Scenario B: a sell of 2.0 X for 500 with no lot of X. *)
Definition scenarioB_sell : Trade := sellOf "XEUR" 250 2 500 100.

(** Fifty distinct trade ids, none a canonical array index. *)
Definition tradeId (i : nat) : string :=
  String.append "T-" (String (Ascii.ascii_of_nat (65 + i)) EmptyString).

(** A ledger of one buy of 100 X at 1 and 52 sells of 1 X each: an old
    sell with pnl [x], a sell five days old with pnl [y], and the 50
    latest sells at cost. *)
Definition weekLedger (x y : Q) : Obj.t Trade :=
  [("T-buy", buyOf "XEUR" 1 100 100 0);
   ("T-old", sellOf "XEUR" (1 + x) 1 (1 + x) 1000);
   ("T-mid", sellOf "XEUR" (1 + y) 1 (1 + y) 568000)]
  ++ map (fun i => (tradeId i, sellOf "XEUR" 1 1 1 (inject_Z (900000 + Z.of_nat i))))
       (seq 0 50).

(** Two processes at the same instant (clock 1 000 000 000 ms), with
    ledgers that differ in the two older sells only. *)
Definition weekWorld (x y : Q) : World :=
  set_fullTradeHistory (state0 1000000000)
    {| trades := weekLedger x y; lastFetchTime := None; totalCount := 53 |}.

(** A full page: 50 trades, latest first. *)
Definition page50 : Obj.t Trade :=
  map (fun i => (tradeId i, buyOf "XEUR" 1 1 1 (inject_Z (2000 - Z.of_nat i)))) (seq 0 50).

(** An exchange that answers by [pages], with calls of 200 ms and
    punctual timers. *)
Definition pagedEnv (pages : nat -> Response) : Env :=
  {| gateway := pages; apiLatency := fun _ => 200; timerLag := fun _ => 0 |}.

(** A process that holds [ledger], last fetched at [fetched], at clock
    5 000 000 000 ms. *)
Definition ledgerWorld (ledger : Obj.t Trade) (fetched : option Q) : World :=
  set_fullTradeHistory (state0 5000000000)
    {| trades := ledger; lastFetchTime := fetched; totalCount := length ledger |}.

Definition oldTrade : string * Trade := ("T-first", buyOf "XEUR" 1 1 1 1000).

(** Scenario D: one known old trade; the first page brings 50 new
    trades, the second fetch fails. *)
Definition errorEnv : Env :=
  pagedEnv (fun ofs => match ofs with
                       | 0%nat => Page page50
                       | 50%nat => ApiError
                       | _ => Page []
                       end).

(** The same exchange when the history simply ends after the first page. *)
Definition endEnv : Env :=
  pagedEnv (fun ofs => match ofs with
                       | 0%nat => Page page50
                       | _ => Page []
                       end).

Definition errorWorld : World := ledgerWorld [oldTrade] (Some 4999000000).

(** The remote history is one full page; the ledger has its last
    (oldest) trade only, so the page brings 49 new trades and one
    known. *)
Definition mixedWorld : World :=
  ledgerWorld [(tradeId 49, buyOf "XEUR" 1 1 1 1951)] (Some 4999000000).

(** A ledger that has the whole remote history. *)
Definition syncedWorld : World := ledgerWorld page50 (Some 4999000000).

(** An exchange that is down. *)
Definition downEnv : Env := pagedEnv (fun _ => ApiError).

(** All strings of a list differ, as a test. *)
Fixpoint distinct (l : list string) : bool :=
  match l with
  | [] => true
  | x :: l' => negb (existsb (String.eqb x) l') && distinct l'
  end.

(** * Further code and vocabulary *)

(** ** Binary64 rounding *)

(** [2^z] *)
Definition pow2 (z : Z) : Q := Qpower 2 z.

(** The nearest integer, ties to the even one. *)
Definition rne (m : Q) : Z :=
  let f := Qfloor m in
  let r := m - inject_Z f in
  if Qlt_bool r (1 # 2) then f
  else if Qlt_bool (1 # 2) r then (f + 1)%Z
  else if Z.even f then f else (f + 1)%Z.

(** The binary exponent of a positive number: [2^e <= x < 2^(e+1)]. *)
Definition expo (x : Q) : Z :=
  let e0 := (Z.log2 (Qnum x) - Z.log2 (Zpos (Qden x)))%Z in
  if Qle_bool (pow2 e0) x then e0 else (e0 - 1)%Z.

(** A positive number rounded to 53 significant bits. *)
Definition round_pos (x : Q) : Q :=
  let s := (expo x - 52)%Z in
  inject_Z (rne (x * pow2 (- s))) * pow2 s.

(** The binary64 number nearest to [x], ties to even. *)
Definition round64 (x : Q) : Q :=
  match Qnum x with
  | Z0 => 0
  | Zpos _ => round_pos x
  | Zneg _ => - round_pos (- x)
  end.

(** [x + y], [x - y], [x * y], [x / y] on doubles. *)
Definition fadd (x y : Q) : Q := round64 (x + y).
Definition fsub (x y : Q) : Q := round64 (x - y).
Definition fmul (x y : Q) : Q := round64 (x * y).
Definition fdiv (x y : Q) : Q := round64 (x / y).

(** A multiple of [2^j] of magnitude below [2^(53+j)]: sums and
    differences that stay on such a grid are not rounded. *)
Definition grid (j : Z) (x : Q) : Prop :=
  (exists k : Z, x == inject_Z k * pow2 j)
  /\ - pow2 (53 + j) < x /\ x < pow2 (53 + j).

(** [x] is a double. *)
Definition representable (x : Q) : Prop := round64 x == x.

(** ** The limiter and the FIFO replay in doubles *)

Module Double.

(** The [rateLimit] literal; [0.33] is read as the nearest double. *)
Definition rateLimit0 (t0 : Q) : RateLimit :=
  {| counter := 0; maxCounter := 15; lastDecay := t0; decayRate := round64 (33 # 100) |}.

(** The body of [decayCounter] at clock reading [now]. *)
Definition decay_at (now : Q) (rl : RateLimit) : RateLimit :=
  let elapsed := fdiv (fsub now (lastDecay rl)) 1000 in
  let decay := fmul elapsed (decayRate rl) in
  {| counter := Qmax 0 (fsub (counter rl) decay);
     maxCounter := maxCounter rl;
     lastDecay := now;
     decayRate := decayRate rl |}.

Definition decayCounter (w : World) : World :=
  set_rateLimit w (decay_at (clock w) (rateLimit w)).

(** [Math.ceil((counter + cost - maxCounter) / decayRate) * 1000 + 500] *)
Definition waitTime (cost : Q) (rl : RateLimit) : Q :=
  fadd
    (fmul
       (inject_Z
          (Qceiling (fdiv (fsub (fadd (counter rl) cost) (maxCounter rl)) (decayRate rl))))
       1000)
    500.

(** The [while] loop of [waitForRateLimit]; the result as in the exact
    version. *)
Fixpoint waitLoop (fuel : nat) (env : Env) (cost : Q) (w : World)
  : option (World * list RateLimit) :=
  if Qlt_bool (maxCounter (rateLimit w)) (fadd (counter (rateLimit w)) cost) then
    match fuel with
    | O => None
    | S fuel' =>
        let w1 := sleep env (waitTime cost (rateLimit w)) w in
        let w2 := decayCounter w1 in
        match waitLoop fuel' env cost w2 with
        | Some (w', hist) => Some (w', rateLimit w2 :: hist)
        | None => None
        end
    end
  else Some (w, []).

(** [rateLimit.counter += cost] *)
Definition grant (cost : Q) (rl : RateLimit) : RateLimit :=
  {| counter := fadd (counter rl) cost;
     maxCounter := maxCounter rl;
     lastDecay := lastDecay rl;
     decayRate := decayRate rl |}.

Definition waitForRateLimit (fuel : nat) (env : Env) (cost : Q) (w : World)
  : option (World * list RateLimit) :=
  let w0 := decayCounter w in
  match waitLoop fuel env cost w0 with
  | Some (w1, hist) =>
      let w2 := set_rateLimit w1 (grant cost (rateLimit w1)) in
      Some (w2, rateLimit w0 :: hist ++ [rateLimit w2])
  | None => None
  end.

Fixpoint reserveAll (fuel : nat) (env : Env) (calls : list (Q * Q)) (w : World)
  : option (list (World * list RateLimit)) :=
  match calls with
  | [] => Some []
  | (pause, cost) :: calls' =>
      match waitForRateLimit fuel env cost (set_clock w (clock w + pause)) with
      | Some (w', hist) =>
          match reserveAll fuel env calls' w' with
          | Some rest => Some ((w', hist) :: rest)
          | None => None
          end
      | None => None
      end
  end.

(** One pass through the body of [while (remaining > 0 && cb.lots.length > 0)]. *)
Definition fifoBody (st : Fifo) : Fifo :=
  match f_lots st with
  | [] => st
  | lot :: rest =>
      let used := Qmin (f_remaining st) (lot_remaining lot) in
      let lot' := {| lot_price := lot_price lot; lot_amount := lot_amount lot;
                     lot_remaining := fsub (lot_remaining lot) used;
                     lot_time := lot_time lot |} in
      {| f_remaining := fsub (f_remaining st) used;
         f_costBasisUsed := fadd (f_costBasisUsed st) (fmul used (lot_price lot));
         f_amountMatched := fadd (f_amountMatched st) used;
         f_lots := if Qle_bool (lot_remaining lot') 0 then rest else lot' :: rest |}
  end.

Fixpoint fifoLoop (fuel : nat) (st : Fifo) : Fifo :=
  match fuel with
  | O => st
  | S fuel' => if fifo_guard st then fifoLoop fuel' (fifoBody st) else st
  end.

(** One pass per lot is enough in doubles too: a pass that keeps its
    lot has subtracted the rest of the sell from itself. *)
Definition fifoMatch (amt : Q) (ls : list Lot) : Fifo :=
  fifoLoop (List.length ls)
    {| f_remaining := amt; f_costBasisUsed := 0; f_amountMatched := 0; f_lots := ls |}.

(** The [buy] branch. *)
Definition applyBuy (cb : CostBasis) (trade : Trade) : CostBasis :=
  {| lots := lots cb ++ [ {| lot_price := price trade; lot_amount := vol trade;
                            lot_remaining := vol trade; lot_time := time trade |} ];
     totalInvested := fadd (totalInvested cb) (cost trade);
     totalReturned := totalReturned cb;
     realizedPnL := realizedPnL cb;
     completedTrades := completedTrades cb |}.

(** The [sell] branch. *)
Definition applySell (cb : CostBasis) (trade : Trade) : CostBasis :=
  let amt := vol trade in
  let m := fifoMatch amt (lots cb) in
  let costBasisUsed := f_costBasisUsed m in
  let matched := f_amountMatched m in
  let matchedSaleValue :=
    if Qlt_bool 0 matched then fmul (fdiv matched amt) (cost trade) else 0 in
  let p := fsub matchedSaleValue costBasisUsed in
  {| lots := f_lots m;
     totalInvested := totalInvested cb;
     totalReturned := fadd (totalReturned cb) (cost trade);
     realizedPnL := if Qlt_bool 0 matched then fadd (realizedPnL cb) p else realizedPnL cb;
     completedTrades := completedTrades cb ++
       [ {| sellTime := time trade;
            sellPrice := price trade;
            amount := amt;
            amountMatched := matched;
            pnl := if Qlt_bool 0 matched then p else 0;
            pnlPercent := if Qlt_bool 0 costBasisUsed
                          then fmul (fdiv p costBasisUsed) 100 else 0 |} ] |}.

(** The body of [for (const trade of trades)]. *)
Definition replayTrade (prs : gmap string string) (cbs : Obj.t CostBasis) (trade : Trade)
  : Obj.t CostBasis :=
  let asset := getAssetFromPair prs (pair trade) in
  let cbs1 := ensure cbs asset in
  let cb := current cbs1 asset in
  if String.eqb (type trade) "buy" then Obj.set cbs1 asset (applyBuy cb trade)
  else if String.eqb (type trade) "sell" then Obj.set cbs1 asset (applySell cb trade)
  else cbs1.

(** The first half of [buildCostBasis]: the new [state.costBasis]. *)
Definition replay (prs : gmap string string) (ledger : Obj.t Trade) : Obj.t CostBasis :=
  fold_left (replayTrade prs) (stable_sort by_time_asc (Obj.values ledger)) [].

End Double.

(** *** Vocabulary of the limiter *)

(** The constants of the [rateLimit] literal. *)
Definition as_coded (rl : RateLimit) : Prop :=
  maxCounter rl == 15 /\ decayRate rl == round64 (33 # 100).

(** What holds of one returned reservation: the counter is within the
    budget, it was never negative during the call, and a decay pass
    one millisecond or more after [counter / decayRate] seconds finds
    it at 0. *)
Definition budget_ok (r : World * list RateLimit) : Prop :=
  let rl := rateLimit (fst r) in
  counter rl <= maxCounter rl
  /\ 0 <= counter rl
  /\ Forall (fun h => 0 <= counter h) (snd r)
  /\ forall now, lastDecay rl + (counter rl / decayRate rl) * 1000 + 1 <= now ->
                 counter (Double.decay_at now rl) == 0.


(** ** More vocabulary of the cost basis *)

Definition sum_pnl (cts : list CompletedTrade) : Q :=
  fold_right (fun c acc => pnl c + acc) 0 cts.

(** A lot holds a positive rest of what was bought. *)
Definition lot_ok (l : Lot) : Prop :=
  0 < lot_remaining l /\ lot_remaining l <= lot_amount l.

(** A completed trade matched a part of what was sold. *)
Definition matched_ok (c : CompletedTrade) : Prop :=
  0 <= amountMatched c /\ amountMatched c <= amount c.

Definition lot_by_time (a b : Lot) : bool := Qle_bool (lot_time a) (lot_time b).

(** The sum of [f] over the trades of one side ([type]) of an asset. *)
Definition sideSum (side : string) (f : Trade -> Q) (prs : gmap string string)
    (asset : string) (ts : list Trade) : Q :=
  fold_right
    (fun t acc =>
       if String.eqb (type t) side && String.eqb (getAssetFromPair prs (pair t)) asset
       then f t + acc else acc)
    0 ts.

(** The entry of an asset after the rebuild, if it has one. *)
Definition rebuilt (w : World) (asset : string) : option CostBasis :=
  Obj.get (costBasis (buildCostBasis w)) asset.

Definition ledgerTrades (w : World) : list Trade :=
  Obj.values (trades (fullTradeHistory w)).

(** Every entry of a cost-basis map satisfies [P]. *)
Definition entries_ok (P : CostBasis -> Prop) (cbs : Obj.t CostBasis) : Prop :=
  forall a cb, Obj.get cbs a = Some cb -> P cb.

Definition bounds_ok (cb : CostBasis) : Prop :=
  Forall lot_ok (lots cb) /\ Forall matched_ok (completedTrades cb).

Definition pnl_balanced (cb : CostBasis) : Prop :=
  realizedPnL cb == sum_pnl (completedTrades cb).

(** *** Vocabulary of the replay *)

(** A trade whose volume is a non-negative amount on the grid. *)
Definition on_grid (j : Z) (t : Trade) : Prop := grid j (vol t) /\ 0 <= vol t.

(** A lot whose rest is a non-negative amount on the grid. *)
Definition lot_on (j : Z) (l : Lot) : Prop :=
  grid j (lot_remaining l) /\ 0 <= lot_remaining l.

(** The variables of the matching loop of a sell of [amt]: amounts on
    the grid, and what is left of the sell plus what is matched is
    [amt]. *)
Definition loop_ok (j : Z) (amt : Q) (st : Fifo) : Prop :=
  Forall (lot_on j) (f_lots st)
  /\ grid j (f_remaining st) /\ 0 <= f_remaining st
  /\ grid j (f_amountMatched st) /\ 0 <= f_amountMatched st
  /\ f_remaining st + f_amountMatched st == amt.

(** The lots and the log of an entry hold amounts on the grid, and a
    sell never matched more than it sold. *)
Definition grid_ok (j : Z) (cb : CostBasis) : Prop :=
  Forall (lot_on j) (lots cb) /\ Forall matched_ok (completedTrades cb).

(** The conserved quantity of an entry. *)
Definition inPlay (cb : CostBasis) : Q :=
  sum_remaining (lots cb) + sum_matched (completedTrades cb).

(** *** Scenarios in doubles *)

(** The state at process start, with the limiter of [Double]. *)
Definition doubleState (t0 : Q) : World :=
  set_rateLimit (state0 t0) (Double.rateLimit0 t0).

(** Thirty-three units in seventeen reservations: sixteen of cost 2,
    each 4.9 s after the one before, and one of cost 1 after 4.1 s
    more.  The first returns at clock 4900, the last at clock 82500;
    none of them waits. *)
Definition thirtyThreeUnits : list (Q * Q) :=
  repeat (4900, 2) 16 ++ [(4100, 1)].

(** A buy of 0.9 and a later sell of 0.2, as [parseFloat] reads them. *)
Definition dustLedger : Obj.t Trade :=
  [("T-b", buyOf "XEUR" 1 (round64 (9 # 10)) (round64 (9 # 10)) 100);
   ("T-s", sellOf "XEUR" 1 (round64 (2 # 10)) (round64 (2 # 10)) 200)].

(** Scenario A as a process: its three trades in the ledger. *)
Definition scenarioA_world : World :=
  ledgerWorld
    [("T-b1", buyOf "XXBTZEUR" 10000 1 10000 100);
     ("T-s1", scenarioA_sell);
     ("T-b2", buyOf "XXBTZEUR" 20000 1 20000 200)]
    None.

(** Acquisition times in queue order, and sell times in log order. *)
Definition lotTimes (cb : CostBasis) : list Q := map lot_time (lots cb).
Definition sellTimes (cb : CostBasis) : list Q := map sellTime (completedTrades cb).

(** The lots and the log of an entry are in time order, up to [tmax]. *)
Definition timed_ok (tmax : Q) (cb : CostBasis) : Prop :=
  ordered Qle_bool (lotTimes cb) /\ Forall (fun t => t <= tmax) (lotTimes cb)
  /\ ordered Qle_bool (sellTimes cb) /\ Forall (fun t => t <= tmax) (sellTimes cb).

(** ** More scenarios of the rate limiter *)

(** A limiter whose counter stands at 10 of 15, decayed at clock 0. *)
Definition busyLimit : RateLimit :=
  {| counter := 10; maxCounter := 15; lastDecay := 0; decayRate := round64 (33 # 100) |}.

(** ** Full backfill and dispatch *)

(** The body of [for (const [id, trade] of Object.entries(trades))] of
    [fetchFullTradeHistory]: the record is stored, known or not. *)
Definition storeEntry (ts : Obj.t Trade) (e : string * Trade) : Obj.t Trade :=
  Obj.set ts (fst e) (snd e).

(** [while (hasMore) { ... }] of [fetchFullTradeHistory], with the loop
    variable [offset]; [hasMore] is true at every entry.  [fuel] bounds
    the pages, [n] the waits of each reservation; [None]: not finished
    within them. *)
Fixpoint fullLoop (fuel n : nat) (env : Env) (offset : nat) (w : World) : option World :=
  match fuel with
  | O => None
  | S fuel' =>
      match waitForRateLimit n env 2 w with
      | None => None
      | Some (w1, _) =>
          let (result, w2) := callTradesHistory env offset w1 in
          match result with
          | ApiError => Some w2
          | Page page =>
              let count := List.length (Obj.keys page) in
              let w3 := set_trades w2
                          (fold_left storeEntry page (trades (fullTradeHistory w2))) in
              if (count =? 50)%nat then fullLoop fuel' n env (offset + 50) w3
              else Some w3
          end
      end
  end.

(** What follows the loop in [fetchFullTradeHistory]. *)
Definition finishFull (w : World) : TradeHistory * World :=
  let w1 :=
    saveTradeHistory
      (set_fullTradeHistory w
         {| trades := trades (fullTradeHistory w);
            lastFetchTime := Some (clock w);
            totalCount := List.length (Obj.keys (trades (fullTradeHistory w))) |}) in
  let w2 := updateRecentTrades 200 (buildCostBasis w1) in
  (fullTradeHistory w2, w2).

(** [fetchFullTradeHistory()]: the value the promise resolves to and the
    world then. *)
Definition fetchFullTradeHistory (fuel : nat) (env : Env) (w : World)
  : option (TradeHistory * World) :=
  match fullLoop fuel fuel env 0 w with
  | Some w' => Some (finishFull w')
  | None => None
  end.

(** [fetchAllTradeHistory()] *)
Definition fetchAllTradeHistory (fuel : nat) (env : Env) (w : World)
  : option (TradeHistory * World) :=
  let existingCount := List.length (Obj.keys (trades (fullTradeHistory w))) in
  if (0 <? existingCount)%nat then fetchNewTrades fuel env w
  else fetchFullTradeHistory fuel env w.

(** The run of the backfill from [offset] on: the offsets to fetch and
    the records to store, in order.  It goes on after a page of exactly
    50 records and after no other. *)
Fixpoint fullPlan (fuel : nat) (env : Env) (offset : nat)
  : option (list nat * Obj.t Trade) :=
  match fuel with
  | O => None
  | S fuel' =>
      match gateway env offset with
      | ApiError => Some ([offset], [])
      | Page page =>
          if (List.length page =? 50)%nat then
            match fullPlan fuel' env (offset + 50) with
            | Some (offs, es) => Some (offset :: offs, page ++ es)
            | None => None
            end
          else Some ([offset], page)
      end
  end.

(** The record a list of stored entries holds last for [id]. *)
Definition lastStored (es : Obj.t Trade) (id : string) : option Trade :=
  Obj.get (rev es) id.

(** A process at its first start: nothing cached. *)
Definition freshWorld : World := ledgerWorld [] None.

(** ** State module: the log and the balance history *)

Definition MAX_LOGS : nat := 500.

(** [`${timestamp} ${pair ? pair + ' ' : ''}${message}`]; [timestamp] is
    [new Date().toLocaleString()]. *)
Definition fullMessage (timestamp message pair : string) : string :=
  String.append timestamp
    (String.append " "
       (String.append (if String.eqb pair "" then "" else String.append pair " ")
          message)).

(** [log(message, pair)], on [state.logs]. *)
Definition log (timestamp message pair : string) (logs : list string) : list string :=
  let logs1 := fullMessage timestamp message pair :: logs in
  if (MAX_LOGS <? List.length logs1)%nat then firstn MAX_LOGS logs1 else logs1.

(** A run of [log] calls, oldest first: (timestamp, message, pair) each. *)
Definition logAll (calls : list (string * string * string)) (logs : list string)
  : list string :=
  fold_left (fun l c => log (fst (fst c)) (snd (fst c)) (snd c) l) calls logs.

Definition lineOf (c : string * string * string) : string :=
  fullMessage (fst (fst c)) (snd (fst c)) (snd c).

(** An entry of [state.balanceHistory]. *)
Record Snapshot := {
  timestamp : Q;
  balanceEUR : Q;
  balanceBTC : Q;
  btcPrice : Q
}.

(** [recordBalanceSnapshot(balanceEUR, btcPrice)] at clock reading
    [now], on [state.balanceHistory]; the result is what it saves. *)
Definition recordBalanceSnapshot (now eur btc : Q) (history : list Snapshot)
  : list Snapshot :=
  let sevenDaysAgo := now - 7 * 24 * 60 * 60 * 1000 in
  let inBTC := if Qlt_bool 0 btc then fdiv eur btc else 0 in
  let history1 := history ++
    [ {| timestamp := now; balanceEUR := eur; balanceBTC := inBTC; btcPrice := btc |} ] in
  List.filter (fun entry => Qlt_bool sevenDaysAgo (timestamp entry)) history1.

(** The history is in time order and none of it is later than [now]. *)
Definition history_ok (now : Q) (history : list Snapshot) : Prop :=
  ordered Qle_bool (map timestamp history)
  /\ Forall (fun e => timestamp e <= now) history.

(** Two snapshots, eight days and one day before clock 1 000 000 000. *)
Definition twoSnapshots : list Snapshot :=
  [ {| timestamp := 308800000; balanceEUR := 900; balanceBTC := 0; btcPrice := 0 |};
    {| timestamp := 913600000; balanceEUR := 1000; balanceBTC := 1 # 50;
       btcPrice := 50000 |} ].

(** ** Wallet and positions *)

(** An entry of [state.wallet]. *)
Module Wallet.
Record entry := {
  asset : string;
  amount : Q;
  value : Q
}.
End Wallet.

(** An entry of the object [getEnrichedPositions] returns. *)
Module Pos.
Record t := {
  amount : Q;
  avgCost : Q;
  costBasis : Q;
  currentPrice : Q;
  currentValue : Q;
  unrealizedPnL : Q;
  unrealizedPct : Q;
  holdingDays : Z
}.
End Pos.

(** The accumulators of [for (const lot of cb.lots)]. *)
Record LotSums := {
  totalCost : Q;
  totalAmount : Q;
  oldestTime : Q
}.

(** The body of [for (const lot of cb.lots)]. *)
Definition lotStep (a : LotSums) (lot : Lot) : LotSums :=
  if Qlt_bool 0 (lot_remaining lot) then
    let lotTime :=
      if Qlt_bool 1000000000000 (lot_time lot) then lot_time lot else lot_time lot * 1000 in
    {| totalCost := totalCost a + lot_remaining lot * lot_price lot;
       totalAmount := totalAmount a + lot_remaining lot;
       oldestTime := Qmin (oldestTime a) lotTime |}
  else a.

(** [asset === 'ZEUR' || asset === 'EUR' || asset === 'ZUSD' || asset === 'USD'] *)
Definition is_fiat (asset : string) : bool :=
  String.eqb asset "ZEUR" || String.eqb asset "EUR"
  || String.eqb asset "ZUSD" || String.eqb asset "USD".

(** The body of [for (const asset in state.wallet)]: the position of
    one wallet entry, [None] where the code says [continue].  [quote]
    gives the ticker price of the pair [findPairForAsset] finds for an
    asset, when there are both. *)
Definition positionOf (now : Q) (quote : string -> option Q) (cbs : Obj.t CostBasis)
    (asset : string) (walletEntry : Wallet.entry) : option Pos.t :=
  if is_fiat asset then None
  else
    let amount := Wallet.amount walletEntry in
    if Qle_bool amount 0 || Qlt_bool (Wallet.value walletEntry) (1 # 100) then None
    else
      let currentPrice := match quote asset with Some p => p | None => 0 end in
      let currentValue := amount * currentPrice in
      if Qlt_bool currentValue 1 then None
      else
        let start := {| totalCost := 0; totalAmount := 0; oldestTime := now |} in
        let sums :=
          match Obj.get cbs asset with
          | Some cb =>
              if (0 <? List.length (lots cb))%nat then fold_left lotStep (lots cb) start
              else start
          | None => start
          end in
        let known := Qlt_bool 0 (totalAmount sums) in
        let avgCost := if known then totalCost sums / totalAmount sums else currentPrice in
        let costBasis := if known then totalCost sums else currentValue in
        let unrealizedPnL := currentValue - costBasis in
        let holdingDays := Qfloor ((now - oldestTime sums) / (86400 * 1000)) in
        Some {| Pos.amount := amount;
                Pos.avgCost := avgCost;
                Pos.costBasis := costBasis;
                Pos.currentPrice := currentPrice;
                Pos.currentValue := currentValue;
                Pos.unrealizedPnL := unrealizedPnL;
                Pos.unrealizedPct :=
                  if Qlt_bool 0 costBasis then (unrealizedPnL / costBasis) * 100 else 0;
                Pos.holdingDays := if (0 <=? holdingDays)%Z then holdingDays else 0%Z |}.

Definition enrich (now : Q) (quote : string -> option Q) (cbs : Obj.t CostBasis)
    (positions : Obj.t Pos.t) (e : string * Wallet.entry) : Obj.t Pos.t :=
  match positionOf now quote cbs (fst e) (snd e) with
  | Some p => Obj.set positions (fst e) p
  | None => positions
  end.

(** [getEnrichedPositions()] *)
Definition getEnrichedPositions (now : Q) (quote : string -> option Q)
    (cbs : Obj.t CostBasis) (wallet : Obj.t Wallet.entry) : Obj.t Pos.t :=
  fold_left (enrich now quote cbs) wallet [].

(** The open cost and the open amount of a queue of lots, summed from
    the first lot on as the loop does. *)
Definition openCost (ls : list Lot) : Q :=
  fold_left (fun acc l => acc + lot_remaining l * lot_price l) ls 0.

Definition openAmount (ls : list Lot) : Q :=
  fold_left (fun acc l => acc + lot_remaining l) ls 0.

(** Scenario A in the wallet: 0.5 XXBT at a ticker price of 30000. *)
Definition scenarioA_wallet : Obj.t Wallet.entry :=
  [("ZEUR", {| Wallet.asset := "ZEUR"; Wallet.amount := 100; Wallet.value := 100 |});
   ("XXBT", {| Wallet.asset := "XXBT"; Wallet.amount := 1 # 2; Wallet.value := 15000 |})].

Definition scenarioA_quote (asset : string) : option Q :=
  if String.eqb asset "XXBT" then Some 30000 else None.

(** ** Balance *)

(** [state.wallet] and [state.tradeBalance]. *)
Record Account := {
  wallet : Obj.t Wallet.entry;
  tradeBalance : Q
}.

(** The answer of [kraken.api('Balance', ...)]: an error, or the
    amounts of [data.result] as [parseFloat] reads them. *)
Inductive BalanceResponse :=
| BalanceError
| Balances (result : Obj.t Q).

(** [asset === 'ZEUR' || asset === 'EUR'] *)
Definition is_eur (asset : string) : bool :=
  String.eqb asset "ZEUR" || String.eqb asset "EUR".

(** The body of [for (const asset in data.result)]. *)
Definition creditAsset (acc : Account) (e : string * Q) : Account :=
  let asset := fst e in
  let amount := snd e in
  if Qlt_bool 0 amount then
    {| wallet := Obj.set (wallet acc) asset
                   {| Wallet.asset := asset; Wallet.amount := amount;
                      Wallet.value := if is_eur asset then amount else 0 |};
       tradeBalance := if is_eur asset then tradeBalance acc + amount
                       else tradeBalance acc |}
  else acc.

(** The body of [for (const asset in state.wallet)]; [quote] as in
    [positionOf]. *)
Definition valueAsset (quote : string -> option Q) (acc : Account)
    (e : string * Wallet.entry) : Account :=
  let asset := fst e in
  if is_eur asset then acc
  else
    match quote asset, Obj.get (wallet acc) asset with
    | Some price, Some entry =>
        let value := Wallet.amount entry * price in
        {| wallet := Obj.set (wallet acc) asset
                       {| Wallet.asset := Wallet.asset entry;
                          Wallet.amount := Wallet.amount entry;
                          Wallet.value := value |};
           tradeBalance := tradeBalance acc + value |}
    | _, _ => acc
    end.

(** The callback of [fetchBalance]. *)
Definition applyBalance (quote : string -> option Q) (resp : BalanceResponse)
    (acc : Account) : Account :=
  match resp with
  | BalanceError => acc
  | Balances result =>
      let acc1 := fold_left creditAsset result {| wallet := []; tradeBalance := 0 |} in
      fold_left (valueAsset quote) (wallet acc1) acc1
  end.

(** [fetchBalance()]: the answer [resp] arrives [latency] ms after the
    reservation. *)
Definition fetchBalance (fuel : nat) (env : Env) (latency : Q)
    (quote : string -> option Q) (resp : BalanceResponse) (w : World) (acc : Account)
  : option (World * Account) :=
  match waitForRateLimit fuel env 1 w with
  | Some (w1, _) => Some (set_clock w1 (clock w1 + latency), applyBalance quote resp acc)
  | None => None
  end.

(** The summed value of a wallet. *)
Definition walletValue (o : Obj.t Wallet.entry) : Q :=
  fold_right (fun e acc => Wallet.value (snd e) + acc) 0 o.

(** A wallet entry as the first loop leaves it. *)
Definition credited (e : string * Wallet.entry) : Prop :=
  0 < Wallet.amount (snd e)
  /\ Wallet.value (snd e) = (if is_eur (fst e) then Wallet.amount (snd e) else 0).

(** Scenario A at the exchange: euros, bitcoin, and an empty account. *)
Definition scenarioA_balances : Obj.t Q :=
  [("ZEUR", 100); ("XXBT", 1 # 2); ("XETH", 0)].

Definition emptyAccount : Account := {| wallet := []; tradeBalance := 0 |}.

(** ** Pairs *)

(** [state.pairs], each pair reduced to the [base] of its info, and
    [state.assetToPairMap]. *)
Record PairBook := {
  book : Obj.t string;
  assetToPairMap : Obj.t string
}.

(** [s.includes('.')] *)
Fixpoint has_dot (s : string) : bool :=
  match s with
  | EmptyString => false
  | String c s' => Ascii.eqb c (Ascii.ascii_of_nat 46) || has_dot s'
  end.

(** [s.slice(k)] *)
Definition slice (k : nat) (s : string) : string :=
  substring k (String.length s - k) s.

(** [pair.endsWith('EUR') || pair.endsWith('ZEUR')] *)
Definition eur_pair (pair : string) : bool :=
  ends_with "EUR" pair || ends_with "ZEUR" pair.

(** The body of [for (const pair in data.result)] of [fetchPairs]. *)
Definition loadPair (b : PairBook) (e : string * string) : PairBook :=
  let pair := fst e in
  let base := snd e in
  if eur_pair pair && negb (has_dot pair) then
    let m1 := Obj.set (assetToPairMap b) base pair in
    let m2 :=
      if String.prefix "X" base && (String.length base <=? 5)%nat
      then Obj.set m1 (slice 1 base) pair else m1 in
    let m3 :=
      if String.prefix "XX" base && (String.length base <=? 6)%nat
      then Obj.set (Obj.set m2 (slice 1 base) pair) (slice 2 base) pair else m2 in
    {| book := Obj.set (book b) pair base; assetToPairMap := m3 |}
  else b.

(** [fetchPairs()]: [None] is the rejected promise, which leaves the
    state as it was. *)
Definition fetchPairs (answer : option (Obj.t string)) (b : PairBook)
  : option (Obj.t string) * PairBook :=
  match answer with
  | None => (None, b)
  | Some result =>
      let b' := fold_left loadPair result {| book := []; assetToPairMap := [] |} in
      (Some (book b'), b')
  end.

(** [s.toUpperCase()] and [s.trim()], on ASCII. *)
Definition upper (c : Ascii.ascii) : Ascii.ascii :=
  let n := Ascii.nat_of_ascii c in
  if (97 <=? n)%nat && (n <=? 122)%nat then Ascii.ascii_of_nat (n - 32) else c.

Fixpoint toUpperCase (s : string) : string :=
  match s with
  | EmptyString => EmptyString
  | String c s' => String (upper c) (toUpperCase s')
  end.

Definition is_space (c : Ascii.ascii) : bool :=
  let n := Ascii.nat_of_ascii c in
  (n =? 32)%nat || ((9 <=? n)%nat && (n <=? 13)%nat).

Fixpoint trimStart (s : string) : string :=
  match s with
  | EmptyString => EmptyString
  | String c s' => if is_space c then trimStart s' else s
  end.

Fixpoint trimEnd (s : string) : string :=
  match s with
  | EmptyString => EmptyString
  | String c s' =>
      match trimEnd s' with
      | EmptyString => if is_space c then EmptyString else String c EmptyString
      | r => String c r
      end
  end.

Definition trim (s : string) : string := trimEnd (trimStart s).

(** [state.pairs[v]]: the pair is loaded. *)
Definition known_pair (pairs : Obj.t string) (v : string) : bool :=
  match Obj.get pairs v with
  | Some _ => true
  | None => false
  end.

(** [base === normalized || base === 'X' + normalized
     || base === 'XX' + normalized.slice(1)] *)
Definition base_matches (normalized base : string) : bool :=
  String.eqb base normalized
  || String.eqb base (String.append "X" normalized)
  || String.eqb base (String.append "XX" (slice 1 normalized)).

(** [findPairForAsset(assetName)]; [None] is [null].  An empty pair
    name in the map is falsy. *)
Definition findPairForAsset (b : PairBook) (assetName : string) : option string :=
  if String.eqb assetName "" then None
  else
    let normalized := trim (toUpperCase assetName) in
    let viaMap :=
      match Obj.get (assetToPairMap b) normalized with
      | Some pair => if String.eqb pair "" then None else Some pair
      | None => None
      end in
    match viaMap with
    | Some pair => Some pair
    | None =>
        let variations :=
          [String.append normalized "EUR";
           String.append normalized "ZEUR";
           String.append "X" (String.append normalized "ZEUR");
           String.append "XX" (String.append (slice 1 normalized) "ZEUR")] in
        match List.find (fun v => known_pair (book b) v) variations with
        | Some v => Some v
        | None =>
            match List.find (fun e => base_matches normalized (snd e) && eur_pair (fst e))
                    (book b) with
            | Some e => Some (fst e)
            | None => None
            end
        end
    end.

(** The pair names [findPairForAsset] tries for [normalized]. *)
Definition variations (normalized : string) : list string :=
  [String.append normalized "EUR";
   String.append normalized "ZEUR";
   String.append "X" (String.append normalized "ZEUR");
   String.append "XX" (String.append (slice 1 normalized) "ZEUR")].

(** [fetchPairs] files a pair of base [base] under [name]: under the
    base itself and, for the short bases, under the base without its
    leading X or XX. *)
Definition alias_of (name base : string) : Prop :=
  name = base
  \/ (String.prefix "X" base = true /\ name = slice 1 base)
  \/ (String.prefix "XX" base = true /\ name = slice 2 base).

(** How a pair [pair] of base [base] answers a request for
    [normalized]: it is filed under that name, or it is one of the
    names tried, or its base matches in the search by base. *)
Definition pair_for (normalized pair base : string) : Prop :=
  alias_of normalized base
  \/ In pair (variations normalized)
  \/ base_matches normalized base = true.

(** What the exchange lists in the scenarios. *)
Definition somePairs : Obj.t string :=
  [("XXBTZEUR", "XXBT"); ("XETHZEUR", "XETH"); ("ADAEUR", "ADA");
   ("XXBTZUSD", "XXBT"); ("ADAEUR.d", "ADA")].

Definition emptyBook : PairBook := {| book := []; assetToPairMap := [] |}.

(** The state after [fetchPairs] has read [somePairs]. *)
Definition someBook : PairBook := snd (fetchPairs (Some somePairs) emptyBook).

(** A listing in which the base of one pair is the base of another
    behind an X. *)
Definition shadowPairs : Obj.t string :=
  [("DGEUR", "DG"); ("XDGEUR", "XDG")].

(** ** Ticker *)

(** [Math.round(x)] of a double. *)
Definition round (x : Q) : Z := Qfloor (x + (1 # 2)).

(** The fields [fetchTicker] computes for a pair from the last price,
    the 24 h low and high, and the best ask and bid, in doubles; the
    arguments are what [parseFloat] returned. *)
Record TickerStats := {
  distFromLow : Z;
  dayMove : Z;
  spread : Q;
  spreadPct : Q
}.

Definition tickerStats (price low24 high24 askPrice bidPrice : Q) : TickerStats :=
  let range := fsub high24 low24 in
  let spread := fsub askPrice bidPrice in
  {| distFromLow :=
       if Qlt_bool 0 range then round (fmul (fdiv (fsub price low24) range) 100) else 0%Z;
     dayMove := if Qlt_bool 0 low24 then round (fmul (fdiv range low24) 100) else 0%Z;
     spread := spread;
     spreadPct := if Qlt_bool 0 bidPrice then fmul (fdiv spread bidPrice) 100 else 0 |}.

(** * Proofs *)

(** ** Numbers *)

Lemma Qlt_bool_true (x y : Q) : Qlt_bool x y = true <-> x < y.
Proof.
  unfold Qlt_bool. rewrite negb_true_iff. split.
  - intros H. apply Qnot_le_lt. intros Hle.
    apply Qle_bool_iff in Hle. congruence.
  - intros H. destruct (Qle_bool y x) eqn:E; [| reflexivity].
    apply Qle_bool_iff in E. lra.
Qed.

Lemma Qlt_bool_false (x y : Q) : Qlt_bool x y = false <-> y <= x.
Proof.
  unfold Qlt_bool. rewrite negb_false_iff. apply Qle_bool_iff.
Qed.

Lemma Qle_bool_false (x y : Q) : Qle_bool x y = false <-> y < x.
Proof.
  split.
  - intros H. apply Qnot_le_lt. intros Hle. apply Qle_bool_iff in Hle. congruence.
  - intros H. destruct (Qle_bool x y) eqn:E; [| reflexivity].
    apply Qle_bool_iff in E. lra.
Qed.

(** ** The model on small inputs *)

Example asset_of_legacy_pair : getAssetFromPair ∅ "XXBTZEUR" = "XXBT".
Proof. reflexivity. Qed.

Example asset_of_plain_pair : getAssetFromPair ∅ "ETHEUR" = "ETH".
Proof. reflexivity. Qed.

Example asset_of_staked_pair : getAssetFromPair ∅ "DOT.SEUR" = "DOT".
Proof. reflexivity. Qed.

Example asset_from_pair_table :
  getAssetFromPair (<["XETHZEUR" := "XETH"]> ∅) "XETHZEUR" = "XETH".
Proof. vm_compute. reflexivity. Qed.

Example sort_keeps_ties :
  map (fun t => pair t)
    (stable_sort by_time_asc
       [buyOf "c" 1 1 1 3; buyOf "a1" 1 1 1 2; buyOf "a2" 1 1 1 2; buyOf "z" 1 1 1 1])
  = ["z"; "a1"; "a2"; "c"].
Proof. reflexivity. Qed.

(** 14.67 over the budget of 15 by 9.67: wait ceil(9.67 / 0.33) = 30 s and 500 ms. *)
Example waitTime_example :
  waitTime 10 {| counter := 1467 # 100; maxCounter := 15; lastDecay := 0;
                 decayRate := 33 # 100 |} == 30500.
Proof. reflexivity. Qed.

Example scenarioA_lots :
  option_map (fun cb => map lot_remaining (lots cb)) (Obj.get scenarioA_before "XXBT")
  = Some [1; 1].
Proof. reflexivity. Qed.

(** ** Rate limiter *)

Section RateLimiterFacts.
Variable env : Env.

Lemma decay_at_nonneg now rl : 0 <= counter (decay_at now rl).
Proof. apply Q.le_max_l. Qed.

Lemma decay_at_rate now rl : decayRate (decay_at now rl) = decayRate rl.
Proof. reflexivity. Qed.

(** A decay pass after [counter / decayRate] seconds empties the counter. *)
Lemma decay_at_zero now rl :
  0 < decayRate rl ->
  lastDecay rl + (counter rl / decayRate rl) * 1000 <= now ->
  counter (decay_at now rl) == 0.
Proof.
  intros Hr Hnow. unfold decay_at; simpl.
  apply Q.max_l.
  set (x := counter rl / decayRate rl) in *.
  assert (Hx : x * decayRate rl == counter rl).
  { unfold x. field. intro; lra. }
  set (e := (now - lastDecay rl) / 1000).
  assert (He : e * 1000 == now - lastDecay rl) by (unfold e; field).
  clearbody x e.
  assert (Hm : x * decayRate rl <= e * decayRate rl).
  { apply Qmult_le_compat_r; lra. }
  lra.
Qed.

(** The loop keeps the configuration and exits under the budget. *)
Lemma waitLoop_spec fuel cost w w' hist :
  waitLoop fuel env cost w = Some (w', hist) ->
  counter (rateLimit w') + cost <= maxCounter (rateLimit w')
  /\ decayRate (rateLimit w') = decayRate (rateLimit w)
  /\ maxCounter (rateLimit w') = maxCounter (rateLimit w)
  /\ Forall (fun rl => 0 <= counter rl) hist
  /\ pairs w' = pairs w /\ fullTradeHistory w' = fullTradeHistory w
  /\ costBasis w' = costBasis w /\ tradeAnalytics w' = tradeAnalytics w
  /\ recentTrades w' = recentTrades w /\ requests w' = requests w
  /\ writes w' = writes w.
Proof.
  revert w w' hist. induction fuel as [| fuel IH]; intros w w' hist; simpl.
  - destruct (Qlt_bool _ _) eqn:G; [discriminate |].
    intros [= <- <-]. apply Qlt_bool_false in G. repeat split; auto.
  - destruct (Qlt_bool _ _) eqn:G.
    + destruct (waitLoop fuel env cost _) as [[w1 h1] |] eqn:E; [| discriminate].
      intros [= <- <-]. apply IH in E.
      destruct E as (H1 & H2 & H3 & H4 & H5).
      repeat split; try tauto.
      constructor; [apply decay_at_nonneg | assumption].
    + intros [= <- <-]. apply Qlt_bool_false in G. repeat split; auto.
Qed.

(** What a returned [waitForRateLimit] guarantees. *)
Lemma waitForRateLimit_spec fuel cost w w' hist :
  0 <= cost ->
  waitForRateLimit fuel env cost w = Some (w', hist) ->
  counter (rateLimit w') <= maxCounter (rateLimit w')
  /\ 0 <= counter (rateLimit w')
  /\ decayRate (rateLimit w') = decayRate (rateLimit w)
  /\ maxCounter (rateLimit w') = maxCounter (rateLimit w)
  /\ Forall (fun rl => 0 <= counter rl) hist.
Proof.
  intros Hc. unfold waitForRateLimit.
  destruct (waitLoop fuel env cost (decayCounter w)) as [[w1 h1] |] eqn:E;
    [| discriminate].
  intros [= <- <-]. pose proof E as E'. apply waitLoop_spec in E.
  destruct E as (H1 & H2 & H3 & H4 & _). simpl in *.
  assert (Hnn : 0 <= counter (rateLimit w1)).
  { clear - E'. remember (decayCounter w) as w0.
    assert (H0 : 0 <= counter (rateLimit w0)) by (subst; apply decay_at_nonneg).
    clear Heqw0. revert w0 w1 h1 E' H0.
    induction fuel as [| fuel IH]; intros w0 w1 h1; simpl.
    - destruct (Qlt_bool _ _); [discriminate |]. intros [= <- <-]; auto.
    - destruct (Qlt_bool _ _).
      + destruct (waitLoop fuel env cost _) as [[w2 h2] |] eqn:E; [| discriminate].
        intros [= <- <-] _. eapply IH; [exact E |]. apply decay_at_nonneg.
      + intros [= <- <-]; auto. }
  repeat split; try assumption; try lra.
  constructor; [apply decay_at_nonneg |].
  apply Forall_app. split; [assumption |].
  constructor; [simpl; lra | constructor].
Qed.

(** The other components of the world are not touched. *)
Lemma waitForRateLimit_frame fuel cost w w' hist :
  waitForRateLimit fuel env cost w = Some (w', hist) ->
  pairs w' = pairs w /\ fullTradeHistory w' = fullTradeHistory w
  /\ costBasis w' = costBasis w /\ tradeAnalytics w' = tradeAnalytics w
  /\ recentTrades w' = recentTrades w /\ requests w' = requests w
  /\ writes w' = writes w.
Proof.
  unfold waitForRateLimit.
  destruct (waitLoop fuel env cost (decayCounter w)) as [[w1 h1] |] eqn:E;
    [| discriminate].
  intros [= <- <-]. apply waitLoop_spec in E. simpl in *. tauto.
Qed.

(** One wait is always enough: a reservation that fits the budget
    returns, whatever the fuel. *)
Lemma waitLoop_returns fuel cost w :
  (forall t, 0 <= timerLag env t) ->
  0 < decayRate (rateLimit w) ->
  cost <= maxCounter (rateLimit w) ->
  lastDecay (rateLimit w) = clock w ->
  exists r, waitLoop (S fuel) env cost w = Some r.
Proof.
  intros Hlag Hr Hcost Hld. simpl.
  destruct (Qlt_bool _ _) eqn:G; [| eauto].
  apply Qlt_bool_true in G.
  set (w2 := decayCounter (sleep env (waitTime cost (rateLimit w)) w)).
  assert (G2 : Qlt_bool (maxCounter (rateLimit w2)) (counter (rateLimit w2) + cost) = false).
  { apply Qlt_bool_false. unfold w2; simpl. rewrite Hld.
    set (x := counter (rateLimit w) + cost - maxCounter (rateLimit w)) in *.
    set (r := decayRate (rateLimit w)) in *.
    assert (Hceil := Qle_ceiling (x / r)).
    unfold waitTime. fold x r.
    set (c := inject_Z (Qceiling (x / r))) in *.
    assert (Hxr : (x / r) * r == x) by (field; intro; lra).
    assert (Hm : (x / r) * r <= c * r) by (apply Qmult_le_compat_r; lra).
    specialize (Hlag (clock w)).
    set (lag := timerLag env (clock w)) in *.
    set (e := (clock w + (c * 1000 + 500) + lag - clock w) / 1000).
    assert (He : e * 1000 == c * 1000 + 500 + lag) by (unfold e; field).
    set (q := x / r) in *.
    clearbody e q c lag r. unfold x in *. clear x.
    assert (Hm2 : c * r <= e * r) by (apply Qmult_le_compat_r; lra).
    apply Q.max_case_strong; [intros a b Hab; rewrite Hab; auto | |]; intros; lra. }
  change (waitLoop fuel env cost
            (decayCounter (sleep env (waitTime cost (rateLimit w)) w)))
    with (waitLoop fuel env cost w2).
  assert (E : waitLoop fuel env cost w2 = Some (w2, [])).
  { destruct fuel; cbn [waitLoop]; rewrite G2; reflexivity. }
  rewrite E. eauto.
Qed.

Lemma waitForRateLimit_returns fuel cost w :
  (forall t, 0 <= timerLag env t) ->
  0 < decayRate (rateLimit w) ->
  cost <= maxCounter (rateLimit w) ->
  exists r, waitForRateLimit (S fuel) env cost w = Some r.
Proof.
  intros Hlag Hr Hcost. unfold waitForRateLimit.
  destruct (waitLoop_returns fuel cost (decayCounter w)) as [[w1 h1] E]; auto.
  rewrite E. eauto.
Qed.

End RateLimiterFacts.

(** ** Dictionaries and sorting *)

Section ObjFacts.
Context {V : Type}.
Implicit Types (o : Obj.t V) (k : string) (v : V).

Lemma get_set_same o k v : Obj.get (Obj.set o k v) k = Some v.
Proof.
  induction o as [| [k' v'] o IH]; simpl.
  - rewrite String.eqb_refl. reflexivity.
  - destruct (String.eqb k k') eqn:E; simpl.
    + rewrite String.eqb_refl. reflexivity.
    + rewrite E. exact IH.
Qed.

Lemma get_set_other o k k' v : k <> k' -> Obj.get (Obj.set o k v) k' = Obj.get o k'.
Proof.
  intros Hne. induction o as [| [k0 v0] o IH]; simpl.
  - destruct (String.eqb k' k) eqn:E; [| reflexivity].
    apply String.eqb_eq in E. congruence.
  - destruct (String.eqb k k0) eqn:E; simpl.
    + apply String.eqb_eq in E. subst k0.
      destruct (String.eqb k' k) eqn:E'; [| reflexivity].
      apply String.eqb_eq in E'. congruence.
    + destruct (String.eqb k' k0); [reflexivity | exact IH].
Qed.

Lemma get_Some_In o k v : Obj.get o k = Some v -> In k (Obj.keys o).
Proof.
  induction o as [| [k' v'] o IH]; simpl; [discriminate |].
  destruct (String.eqb k k') eqn:E.
  - apply String.eqb_eq in E. auto.
  - auto.
Qed.

Lemma get_None_notin o k : Obj.get o k = None <-> ~ In k (Obj.keys o).
Proof.
  induction o as [| [k' v'] o IH]; simpl; [tauto |].
  destruct (String.eqb k k') eqn:E.
  - apply String.eqb_eq in E. split; [discriminate | intros H; exfalso; auto].
  - apply String.eqb_neq in E. rewrite IH. split; [intros H [H1 | H1] |]; auto.
Qed.

Lemma set_fresh o k v : Obj.get o k = None -> Obj.set o k v = o ++ [(k, v)].
Proof.
  induction o as [| [k' v'] o IH]; simpl; [reflexivity |].
  destruct (String.eqb k k'); [discriminate |].
  intros H. rewrite IH by exact H. reflexivity.
Qed.
End ObjFacts.

Section SortFacts.
Context {A : Type} (le : A -> A -> bool).

Lemma sort_insert_perm x l : Permutation (x :: l) (sort_insert le x l).
Proof.
  induction l as [| y l IH]; simpl; [reflexivity |].
  destruct (le x y); [reflexivity |].
  rewrite perm_swap. apply perm_skip. exact IH.
Qed.

Lemma stable_sort_perm l : Permutation l (stable_sort le l).
Proof.
  induction l as [| x l IH]; simpl; [reflexivity |].
  rewrite <- sort_insert_perm. apply perm_skip. exact IH.
Qed.

Hypothesis le_total : forall a b, le a b = true \/ le b a = true.

Lemma sort_insert_ordered x l : ordered le l -> ordered le (sort_insert le x l).
Proof.
  induction l as [| y l IH]; simpl; [tauto |].
  intros [Hy Hl]. destruct (le x y) eqn:E.
  - simpl. tauto.
  - assert (Hyx : le y x = true) by (destruct (le_total x y); congruence).
    specialize (IH Hl). split; [| exact IH].
    destruct l as [| z l]; simpl in *; [exact Hyx |].
    destruct (le x z); assumption.
Qed.

(** The result of the sort is in comparator order. *)
Lemma stable_sort_ordered l : ordered le (stable_sort le l).
Proof.
  induction l as [| x l IH]; simpl; [exact I |].
  apply sort_insert_ordered. exact IH.
Qed.

Hypothesis le_trans : forall a b c, le a b = true -> le b c = true -> le a c = true.

Lemma sort_insert_rank k x l :
  List.filter (same_rank le k) (sort_insert le x l)
  = List.filter (same_rank le k) (x :: l).
Proof.
  induction l as [| y l IH]; [reflexivity |].
  cbn [sort_insert]. destruct (le x y) eqn:E; [reflexivity |].
  cbn [List.filter] in *. rewrite IH.
  destruct (same_rank le k x) eqn:Kx; [| reflexivity].
  destruct (same_rank le k y) eqn:Ky; [| reflexivity].
  exfalso. unfold same_rank in Kx, Ky.
  apply andb_true_iff in Kx. apply andb_true_iff in Ky.
  destruct Kx as [_ Hxk]. destruct Ky as [Hky _].
  rewrite (le_trans x k y Hxk Hky) in E. discriminate.
Qed.

(** The sort is stable: elements that compare equal keep their order. *)
Lemma stable_sort_stable k l :
  List.filter (same_rank le k) (stable_sort le l) = List.filter (same_rank le k) l.
Proof.
  induction l as [| x l IH]; [reflexivity |].
  cbn [stable_sort]. rewrite sort_insert_rank. cbn [List.filter]. rewrite IH. reflexivity.
Qed.
End SortFacts.

(** ** FIFO matching *)

Lemma sum_remaining_app ls1 ls2 :
  sum_remaining (ls1 ++ ls2) == sum_remaining ls1 + sum_remaining ls2.
Proof.
  induction ls1 as [| l ls1 IH]; simpl; [lra |].
  change (fold_right _ 0 (ls1 ++ ls2)) with (sum_remaining (ls1 ++ ls2)).
  change (fold_right _ 0 ls1) with (sum_remaining ls1). lra.
Qed.

Lemma sum_matched_app c1 c2 :
  sum_matched (c1 ++ c2) == sum_matched c1 + sum_matched c2.
Proof.
  induction c1 as [| c c1 IH]; simpl; [lra |].
  change (fold_right _ 0 (c1 ++ c2)) with (sum_matched (c1 ++ c2)).
  change (fold_right _ 0 c1) with (sum_matched c1). lra.
Qed.

(** A pass moves what it uses from the lots to the matched amount. *)
Lemma fifoBody_conserves st :
  sum_remaining (f_lots (fifoBody st)) + f_amountMatched (fifoBody st)
  == sum_remaining (f_lots st) + f_amountMatched st.
Proof.
  unfold fifoBody. destruct (f_lots st) as [| lot rest] eqn:L; simpl;
    [rewrite L; simpl; lra |].
  change (fold_right _ 0 rest) with (sum_remaining rest).
  set (used := Qmin (f_remaining st) (lot_remaining lot)).
  assert (Hu : used <= lot_remaining lot) by apply Q.le_min_r.
  destruct (Qle_bool (lot_remaining lot - used) 0) eqn:E; simpl.
  - apply Qle_bool_iff in E. lra.
  - change (fold_right _ 0 rest) with (sum_remaining rest). lra.
Qed.

Lemma fifoLoop_conserves fuel st :
  sum_remaining (f_lots (fifoLoop fuel st)) + f_amountMatched (fifoLoop fuel st)
  == sum_remaining (f_lots st) + f_amountMatched st.
Proof.
  revert st. induction fuel as [| fuel IH]; intros st; simpl; [lra |].
  destruct (fifo_guard st); [| lra].
  rewrite IH. apply fifoBody_conserves.
Qed.

(** The cut never shows: when the loop of [fifoMatch] stops, the guard
    of the [while] is false. *)
Lemma fifoLoop_exits fuel st :
  (length (f_lots st) <= fuel)%nat \/ f_remaining st <= 0 ->
  fifo_guard (fifoLoop fuel st) = false.
Proof.
  revert st. induction fuel as [| fuel IH]; intros st H; simpl.
  - unfold fifo_guard. destruct H as [H | H].
    + destruct (f_lots st); simpl in *; [apply andb_false_r | lia].
    + apply Qlt_bool_false in H. rewrite H. reflexivity.
  - destruct (fifo_guard st) eqn:G; [| exact G].
    apply IH. unfold fifo_guard in G. apply andb_true_iff in G.
    destruct G as [Gr Gl]. apply Qlt_bool_true in Gr.
    destruct H as [H | H]; [| lra].
    unfold fifoBody. destruct (f_lots st) as [| lot rest]; simpl in *; [left; lia |].
    destruct (Qle_bool _ 0) eqn:E; simpl.
    + left. lia.
    + right. apply Qle_bool_false in E.
      destruct (Q.min_spec (f_remaining st) (lot_remaining lot)) as [[_ Hm] | [_ Hm]];
        lra.
Qed.

Lemma fifoMatch_exits amt ls : fifo_guard (fifoMatch amt ls) = false.
Proof. apply fifoLoop_exits. left. simpl. lia. Qed.

(** The division [amountMatched / amount] is by a positive amount: a
    sell of a non-positive amount matches nothing. *)
Lemma fifoMatch_positive amt ls :
  0 < f_amountMatched (fifoMatch amt ls) -> 0 < amt.
Proof.
  intros H. destruct (Qlt_le_dec 0 amt) as [Hpos | Hle]; [exact Hpos |].
  exfalso. unfold fifoMatch in H.
  destruct (length ls) as [| n]; simpl in H; [lra |].
  unfold fifo_guard in H. simpl in H.
  apply Qlt_bool_false in Hle. rewrite Hle in H. simpl in H. lra.
Qed.

Lemma fifoMatch_conserves amt ls :
  sum_remaining (f_lots (fifoMatch amt ls)) + f_amountMatched (fifoMatch amt ls)
  == sum_remaining ls.
Proof. unfold fifoMatch. rewrite fifoLoop_conserves. simpl. lra. Qed.

(** ** Replay of the ledger *)

Section ReplayFacts.
Variable prs : gmap string string.

Lemma ensure_get cbs asset : Obj.get (ensure cbs asset) asset = Some (current cbs asset).
Proof.
  unfold ensure, current. destruct (Obj.get cbs asset) eqn:E; [exact E |].
  apply get_set_same.
Qed.

Lemma ensure_get_other cbs asset a :
  asset <> a -> Obj.get (ensure cbs asset) a = Obj.get cbs a.
Proof.
  intros Hne. unfold ensure. destruct (Obj.get cbs asset); [reflexivity |].
  apply get_set_other. exact Hne.
Qed.

Lemma current_ensure cbs asset : current (ensure cbs asset) asset = current cbs asset.
Proof. unfold current at 1. rewrite ensure_get. reflexivity. Qed.

Lemma current_set cbs asset cb : current (Obj.set cbs asset cb) asset = cb.
Proof. unfold current. rewrite get_set_same. reflexivity. Qed.

(** The loop body, by the kind of trade. *)
Lemma replayTrade_eq cbs trade :
  replayTrade prs cbs trade =
  let asset := getAssetFromPair prs (pair trade) in
  if String.eqb (type trade) "buy"
  then Obj.set (ensure cbs asset) asset (applyBuy (current cbs asset) trade)
  else if String.eqb (type trade) "sell"
  then Obj.set (ensure cbs asset) asset (applySell (current cbs asset) trade)
  else ensure cbs asset.
Proof. unfold replayTrade. cbv zeta. rewrite current_ensure. reflexivity. Qed.

Lemma held_matched_current cbs a :
  held cbs a + matched cbs a
  == sum_remaining (lots (current cbs a)) + sum_matched (completedTrades (current cbs a)).
Proof.
  unfold held, matched, current. destruct (Obj.get cbs a); simpl; lra.
Qed.

Lemma applyBuy_conserves cb trade :
  sum_remaining (lots (applyBuy cb trade)) + sum_matched (completedTrades (applyBuy cb trade))
  == sum_remaining (lots cb) + sum_matched (completedTrades cb) + vol trade.
Proof.
  simpl. pose proof (sum_remaining_app (lots cb)
    [ {| lot_price := price trade; lot_amount := vol trade;
         lot_remaining := vol trade; lot_time := time trade |} ]) as H.
  simpl in H. unfold sum_remaining in *. lra.
Qed.

Lemma applySell_conserves cb trade :
  sum_remaining (lots (applySell cb trade)) + sum_matched (completedTrades (applySell cb trade))
  == sum_remaining (lots cb) + sum_matched (completedTrades cb).
Proof.
  pose proof (fifoMatch_conserves (vol trade) (lots cb)) as H.
  unfold applySell. cbv zeta. cbn [lots completedTrades].
  match goal with
  | |- context [sum_matched (?c ++ [?x])] =>
      pose proof (sum_matched_app c [x]) as H1;
      assert (H2 : sum_matched [x] == f_amountMatched (fifoMatch (vol trade) (lots cb)))
        by (simpl; lra)
  end.
  lra.
Qed.

(** One replayed trade keeps the balance of every asset. *)
Lemma replayTrade_conserves cbs trade a :
  held (replayTrade prs cbs trade) a + matched (replayTrade prs cbs trade) a
  == held cbs a + matched cbs a + bought prs a [trade].
Proof.
  rewrite replayTrade_eq. cbv zeta. unfold bought; simpl.
  set (asset := getAssetFromPair prs (pair trade)).
  pose proof (held_matched_current cbs a) as H0.
  destruct (String.eqb_spec asset a) as [-> | Hne].
  - rewrite andb_true_r.
    destruct (String.eqb (type trade) "buy").
    + pose proof (held_matched_current
                    (Obj.set (ensure cbs a) a (applyBuy (current cbs a) trade)) a) as H1.
      rewrite current_set in H1.
      pose proof (applyBuy_conserves (current cbs a) trade). lra.
    + destruct (String.eqb (type trade) "sell").
      * pose proof (held_matched_current
                      (Obj.set (ensure cbs a) a (applySell (current cbs a) trade)) a) as H1.
        rewrite current_set in H1.
        pose proof (applySell_conserves (current cbs a) trade). lra.
      * pose proof (held_matched_current (ensure cbs a) a) as H1.
        rewrite current_ensure in H1. lra.
  - rewrite andb_false_r.
    assert (E : forall cb', held (Obj.set (ensure cbs asset) asset cb') a
                            + matched (Obj.set (ensure cbs asset) asset cb') a
                            == held cbs a + matched cbs a).
    { intros cb'. unfold held, matched.
      rewrite get_set_other by exact Hne.
      rewrite ensure_get_other by exact Hne. lra. }
    destruct (String.eqb (type trade) "buy"); [rewrite E; lra |].
    destruct (String.eqb (type trade) "sell"); [rewrite E; lra |].
    unfold held, matched. rewrite ensure_get_other by exact Hne. lra.
Qed.

Lemma bought_app a ts1 ts2 : bought prs a (ts1 ++ ts2) == bought prs a ts1 + bought prs a ts2.
Proof.
  induction ts1 as [| t ts1 IH]; simpl; [lra |].
  change (fold_right _ 0 (ts1 ++ ts2)) with (bought prs a (ts1 ++ ts2)).
  change (fold_right _ 0 ts1) with (bought prs a ts1).
  destruct (_ && _); lra.
Qed.

Lemma bought_perm a ts1 ts2 : Permutation ts1 ts2 -> bought prs a ts1 == bought prs a ts2.
Proof.
  induction 1 as [| t l l' _ IH | t1 t2 l | l1 l2 l3 _ IH1 _ IH2].
  - reflexivity.
  - change (t :: l) with ([t] ++ l). change (t :: l') with ([t] ++ l').
    rewrite !bought_app. lra.
  - change (t2 :: t1 :: l) with ([t2] ++ [t1] ++ l).
    change (t1 :: t2 :: l) with ([t1] ++ [t2] ++ l).
    rewrite !bought_app. lra.
  - lra.
Qed.

Lemma fold_replay_conserves ts cbs a :
  held (fold_left (replayTrade prs) ts cbs) a + matched (fold_left (replayTrade prs) ts cbs) a
  == held cbs a + matched cbs a + bought prs a ts.
Proof.
  revert cbs. induction ts as [| t ts IH]; intros cbs; simpl; [lra |].
  rewrite IH. rewrite replayTrade_conserves.
  change (fold_right _ 0 ts) with (bought prs a ts).
  unfold bought at 1; simpl. destruct (_ && _); lra.
Qed.

End ReplayFacts.

(** ** C5: FIFO matching across two lots *)

(** C5.  An asset holds the lots 1.0 at 10000 and 1.0 at 20000, oldest
    first.  A sell of 1.5 for 37500 matches 1.5, uses a cost basis of
    20000, adds a pnl of 17500 to [realizedPnL], logs it, and leaves
    the single lot 0.5 at 20000. *)
Theorem sell_across_two_lots prs cbs cb trade ta tb :
  type trade = "sell" -> vol trade = 3 # 2 -> cost trade = 37500 ->
  Obj.get cbs (getAssetFromPair prs (pair trade)) = Some cb ->
  lots cb = [freshLot 10000 1 ta; freshLot 20000 1 tb] ->
  let m := fifoMatch (vol trade) (lots cb) in
  f_amountMatched m == 3 # 2
  /\ f_costBasisUsed m == 20000
  /\ exists cb' ct lot,
       Obj.get (replayTrade prs cbs trade) (getAssetFromPair prs (pair trade)) = Some cb'
       /\ realizedPnL cb' == realizedPnL cb + 17500
       /\ completedTrades cb' = completedTrades cb ++ [ct]
       /\ amountMatched ct == 3 # 2 /\ pnl ct == 17500
       /\ lots cb' = [lot]
       /\ lot_remaining lot == 1 # 2 /\ lot_price lot == 20000.
Proof.
  intros Hty Hvol Hcost Hget Hlots m.
  assert (Hm : m = {| f_remaining := 0 # 4; f_costBasisUsed := 40000 # 2;
                      f_amountMatched := 3 # 2;
                      f_lots := [ {| lot_price := 20000; lot_amount := 1;
                                     lot_remaining := 1 # 2; lot_time := tb |} ] |}).
  { unfold m. rewrite Hvol, Hlots. reflexivity. }
  split; [rewrite Hm; reflexivity |].
  split; [rewrite Hm; reflexivity |].
  rewrite replayTrade_eq. cbv zeta. rewrite Hty. simpl String.eqb. cbv iota.
  rewrite get_set_same.
  assert (Hcur : current cbs (getAssetFromPair prs (pair trade)) = cb).
  { unfold current. rewrite Hget. reflexivity. }
  rewrite Hcur. unfold applySell. cbv zeta. fold m. rewrite Hm, Hvol, Hcost.
  cbn [f_lots f_amountMatched f_costBasisUsed].
  do 3 eexists. split; [reflexivity |].
  cbn [realizedPnL completedTrades lots amountMatched pnl].
  change (Qlt_bool 0 (3 # 2)) with true. cbv iota.
  split; [| split; [reflexivity |]].
  - assert (E : (3 # 2) / (3 # 2) * 37500 - (40000 # 2) == 17500) by reflexivity.
    lra.
  - repeat split; reflexivity.
Qed.

(** The theorem at scenario A. *)
Lemma sell_across_two_lots_witness :
  exists cb' lot,
    Obj.get (replayTrade ∅ scenarioA_before scenarioA_sell) "XXBT" = Some cb'
    /\ realizedPnL cb' == 17500
    /\ lots cb' = [lot] /\ lot_remaining lot == 1 # 2 /\ lot_price lot == 20000.
Proof.
  destruct (sell_across_two_lots ∅ scenarioA_before
              {| lots := [freshLot 10000 1 100; freshLot 20000 1 200];
                 totalInvested := 0 + 10000 + 20000; totalReturned := 0;
                 realizedPnL := 0; completedTrades := [] |}
              scenarioA_sell 100 200)
    as (_ & _ & cb' & ct & lot & H1 & H2 & _ & _ & _ & H3 & H4 & H5);
    try reflexivity.
  exists cb', lot. simpl in H2. repeat split; assumption.
Defined.

(** ** C6: a sell with no cost basis *)

(** C6.  A sell replayed for an asset with no lot (no entry yet, or an
    empty queue) matches nothing: it leaves [realizedPnL] as it was,
    adds its cost to [totalReturned], and logs a completed trade with
    [amountMatched], [pnl] and [pnlPercent] all 0. *)
Theorem sell_without_lots prs cbs trade :
  type trade = "sell" ->
  lots (current cbs (getAssetFromPair prs (pair trade))) = [] ->
  let asset := getAssetFromPair prs (pair trade) in
  let cb := current cbs asset in
  f_amountMatched (fifoMatch (vol trade) (lots cb)) = 0
  /\ Obj.get (replayTrade prs cbs trade) asset =
     Some {| lots := [];
             totalInvested := totalInvested cb;
             totalReturned := totalReturned cb + cost trade;
             realizedPnL := realizedPnL cb;
             completedTrades := completedTrades cb ++
               [ {| sellTime := time trade; sellPrice := price trade;
                    amount := vol trade; amountMatched := 0;
                    pnl := 0; pnlPercent := 0 |} ] |}.
Proof.
  intros Hty Hlots asset cb. fold asset in Hlots. fold cb in Hlots.
  split; [rewrite Hlots; reflexivity |].
  rewrite replayTrade_eq. cbv zeta. fold asset. rewrite Hty. simpl String.eqb. cbv iota.
  rewrite get_set_same. fold cb. unfold applySell. rewrite Hlots. reflexivity.
Qed.

(** The theorem at scenario B. *)
Lemma sell_without_lots_witness :
  Obj.get (replayTrade ∅ [] scenarioB_sell) "X" =
  Some {| lots := []; totalInvested := 0; totalReturned := 0 + 500; realizedPnL := 0;
          completedTrades := [ {| sellTime := 100; sellPrice := 250; amount := 2;
                                  amountMatched := 0; pnl := 0; pnlPercent := 0 |} ] |}.
Proof.
  generalize (proj2 (sell_without_lots ∅ [] scenarioB_sell eq_refl eq_refl)).
  vm_compute. exact (fun H => H).
Defined.

(** ** C9: the rebuild is idempotent *)

(** The rebuild reads the ledger and the pair table only. *)
Lemma buildCostBasis_reads w1 w2 :
  pairs w1 = pairs w2 ->
  trades (fullTradeHistory w1) = trades (fullTradeHistory w2) ->
  costBasis (buildCostBasis w1) = costBasis (buildCostBasis w2).
Proof. intros Hp Ht. simpl. rewrite Hp, Ht. reflexivity. Qed.

Lemma buildCostBasis_frame w :
  pairs (buildCostBasis w) = pairs w
  /\ fullTradeHistory (buildCostBasis w) = fullTradeHistory w
  /\ clock (buildCostBasis w) = clock w
  /\ rateLimit (buildCostBasis w) = rateLimit w
  /\ requests (buildCostBasis w) = requests w
  /\ recentTrades (buildCostBasis w) = recentTrades w.
Proof. repeat split. Qed.

(** C9.  Rebuilding twice from an unchanged ledger gives the cost-basis
    map of rebuilding once, and at the same clock reading the same
    analytics; the cost-basis map is the same at any later reading [t]
    too. *)
Theorem rebuild_idempotent (w : World) (t : Q) :
  costBasis (buildCostBasis (buildCostBasis w)) = costBasis (buildCostBasis w)
  /\ tradeAnalytics (buildCostBasis (buildCostBasis w)) = tradeAnalytics (buildCostBasis w)
  /\ costBasis (buildCostBasis (set_clock (buildCostBasis w) t))
     = costBasis (buildCostBasis w).
Proof.
  split; [| split].
  - destruct (buildCostBasis_frame w) as (Hp & Hh & _).
    apply buildCostBasis_reads; [exact Hp | rewrite Hh; reflexivity].
  - reflexivity.
  - apply buildCostBasis_reads; reflexivity.
Qed.

(** ** C2: what the analytics summary surfaces *)

Section TallyFacts.
Variable now : Q.

Lemma pnlSum_app l1 l2 : pnlSum (l1 ++ l2) == pnlSum l1 + pnlSum l2.
Proof.
  induction l1 as [| a l1 IH]; simpl; [lra |].
  change (fold_right _ 0 (l1 ++ l2)) with (pnlSum (l1 ++ l2)).
  change (fold_right _ 0 l1) with (pnlSum l1). lra.
Qed.

Lemma winCount_app l1 l2 : winCount (l1 ++ l2) = (winCount l1 + winCount l2)%nat.
Proof. unfold winCount. rewrite List.filter_app, List.length_app. reflexivity. Qed.

Lemma lossCount_app l1 l2 : lossCount (l1 ++ l2) = (lossCount l1 + lossCount l2)%nat.
Proof. unfold lossCount. rewrite List.filter_app, List.length_app. reflexivity. Qed.

(** The inner loop, field by field. *)
Lemma fold_tallyTrade asset cts a :
  let a' := fold_left (tallyTrade (oneWeekAgo now) asset) cts a in
  let acts := map (toActivity asset) cts in
  t_recentActivity a' = t_recentActivity a ++ acts
  /\ wins a' = (wins a + winCount acts)%nat
  /\ losses a' = (losses a + lossCount acts)%nat
  /\ totalPnL a' = totalPnL a
  /\ t_weeklyPnL a' == t_weeklyPnL a + pnlSum (List.filter (in_week now) acts)
  /\ weeklyWins a' = (weeklyWins a + winCount (List.filter (in_week now) acts))%nat
  /\ weeklyLosses a' = (weeklyLosses a + lossCount (List.filter (in_week now) acts))%nat.
Proof.
  revert a. induction cts as [| t cts IH]; intros a; simpl.
  - rewrite app_nil_r, !Nat.add_0_r. repeat split; try reflexivity. lra.
  - specialize (IH (tallyTrade (oneWeekAgo now) asset a t)). cbv zeta in IH.
    destruct IH as (H1 & H2 & H3 & H4 & H5 & H6 & H7).
    rewrite H1, H2, H3, H4, H6, H7. clear H1 H2 H3 H4 H6 H7.
    unfold winCount, lossCount, in_week in *. simpl. simpl in H5.
    destruct (Qle_bool (oneWeekAgo now) (sellTime t)); simpl;
      destruct (is_win (pnl t)); simpl;
      rewrite <- ?app_assoc; simpl;
      repeat split; try reflexivity; try lia; try lra.
Qed.

(** The outer loop, field by field. *)
Lemma fold_tallyAsset cbs a :
  let a' := fold_left (tallyAsset (oneWeekAgo now)) cbs a in
  t_recentActivity a' = t_recentActivity a ++ allCompleted cbs
  /\ wins a' = (wins a + winCount (allCompleted cbs))%nat
  /\ losses a' = (losses a + lossCount (allCompleted cbs))%nat
  /\ totalPnL a' = sumRealized cbs (totalPnL a)
  /\ t_weeklyPnL a' == t_weeklyPnL a + pnlSum (List.filter (in_week now) (allCompleted cbs))
  /\ weeklyWins a' = (weeklyWins a + winCount (List.filter (in_week now) (allCompleted cbs)))%nat
  /\ weeklyLosses a'
     = (weeklyLosses a + lossCount (List.filter (in_week now) (allCompleted cbs)))%nat.
Proof.
  revert a. induction cbs as [| [asset cb] cbs IH]; intros a; simpl.
  - rewrite app_nil_r, !Nat.add_0_r. repeat split; try reflexivity. lra.
  - match goal with
    | |- context [fold_left (tallyTrade ?o asset) ?cts ?a0] =>
        pose proof (fold_tallyTrade asset cts a0) as F;
        set (a1 := fold_left (tallyTrade o asset) cts a0) in *
    end.
    cbv zeta in F. simpl in F. destruct F as (F1 & F2 & F3 & F4 & F5 & F6 & F7).
    specialize (IH a1). cbv zeta in IH.
    destruct IH as (H1 & H2 & H3 & H4 & H5 & H6 & H7).
    rewrite H1, H2, H3, H4, H6, H7, F1, F2, F3, F4, F6, F7.
    rewrite List.filter_app, winCount_app, lossCount_app, winCount_app, lossCount_app.
    rewrite <- app_assoc. repeat split; try reflexivity; try lia.
    rewrite H5, F5, pnlSum_app. lra.
Qed.

End TallyFacts.

(** The loop over the displayed trades. *)
Lemma fold_displayTrade l d :
  let d' := fold_left displayTrade l d in
  displayedPnL d' == displayedPnL d + pnlSum l
  /\ displayedWins d' = (displayedWins d + winCount l)%nat
  /\ displayedLosses d' = (displayedLosses d + lossCount l)%nat.
Proof.
  revert d. induction l as [| a l IH]; intros d; simpl.
  - rewrite !Nat.add_0_r. repeat split; try reflexivity. lra.
  - specialize (IH (displayTrade d a)). cbv zeta in IH.
    destruct IH as (H1 & H2 & H3). rewrite H2, H3. simpl in H1.
    unfold winCount, lossCount in *. simpl.
    change (fold_right _ 0 l) with (pnlSum l).
    destruct (is_win (act_pnl a)); simpl; repeat split; try lia; lra.
Qed.

(** The analytics the rebuild stores are those of the map it has built. *)
Lemma buildCostBasis_analytics w :
  tradeAnalytics (buildCostBasis w) = analytics (clock w) (costBasis (buildCostBasis w)).
Proof. reflexivity. Qed.

(** The stored summary and list do not depend on the clock. *)
Lemma analytics_clock_independent (now now' : Q) (cbs : Obj.t CostBasis) :
  summary (analytics now' cbs) = summary (analytics now cbs)
  /\ recentActivity (analytics now' cbs) = recentActivity (analytics now cbs).
Proof.
  assert (T : forall t, t_recentActivity (tally t cbs) = allCompleted cbs
                        /\ wins (tally t cbs) = winCount (allCompleted cbs)
                        /\ losses (tally t cbs) = lossCount (allCompleted cbs)
                        /\ totalPnL (tally t cbs) = sumRealized cbs 0).
  { intros t. destruct (fold_tallyAsset t cbs tally0) as (H1 & H2 & H3 & H4 & _).
    unfold tally. rewrite H1, H2, H3, H4. repeat split. }
  unfold analytics; simpl.
  destruct (T now) as (-> & -> & -> & ->). destruct (T now') as (-> & -> & -> & ->).
  split; reflexivity.
Qed.

(** C2, as the code has it.  For every cost-basis map the rebuild
    computes two views of the completed trades.  The count window (the
    50 latest by [sellTime]) is surfaced: it is [recentActivity], its
    P&L sum is [weeklyPnL] and its win rate is [weeklyWinRate].  The
    time window (sells of the last 7 days) is tallied: its P&L sum, its
    wins and its losses are the locals [weeklyPnL], [weeklyWins] and
    [weeklyLosses]. *)
Theorem analytics_surface_count_window (now : Q) (cbs : Obj.t CostBasis) :
  let out := analytics now cbs in
  recentActivity out = countWindow cbs
  /\ weeklyPnL (summary out) == pnlSum (countWindow cbs)
  /\ weeklyWinRate (summary out) = winRateOf (countWindow cbs)
  /\ t_weeklyPnL (tally now cbs) == pnlSum (timeWindow now cbs)
  /\ weeklyWins (tally now cbs) = winCount (timeWindow now cbs)
  /\ weeklyLosses (tally now cbs) = lossCount (timeWindow now cbs).
Proof.
  destruct (fold_tallyAsset now cbs tally0) as (W1 & _ & _ & _ & W5 & W6 & W7).
  fold (tally now cbs) in W1, W5, W6, W7. simpl in W1, W5, W6, W7.
  fold (timeWindow now cbs) in W5, W6, W7.
  destruct (fold_displayTrade (countWindow cbs)
              {| displayedPnL := 0; displayedWins := 0; displayedLosses := 0 |})
    as (D1 & D2 & D3). simpl in D1, D2, D3.
  cbv zeta. unfold analytics; simpl. rewrite W1. fold (countWindow cbs).
  rewrite D2, D3.
  split; [reflexivity |]. split; [lra |]. split; [reflexivity |].
  split; [lra |]. split; assumption.
Qed.

(** C2, as stated, fails: the time window is not in the output.  Two
    ledgers read at the same instant get the very same analytics, while
    the P&L of their last 7 days differs (2 against 1). *)
Lemma time_window_not_surfaced :
  tradeAnalytics (buildCostBasis (weekWorld 1 2))
  = tradeAnalytics (buildCostBasis (weekWorld 2 1))
  /\ pnlSum (timeWindow 1000000000 (costBasis (buildCostBasis (weekWorld 1 2)))) == 2
  /\ pnlSum (timeWindow 1000000000 (costBasis (buildCostBasis (weekWorld 2 1)))) == 1
  /\ length (timeWindow 1000000000 (costBasis (buildCostBasis (weekWorld 1 2)))) = 51%nat.
Proof.
  split; [vm_compute; reflexivity |].
  split; [vm_compute; reflexivity |].
  split; vm_compute; reflexivity.
Qed.

(** ** Trade sync *)

Section MergeFacts.
Implicit Types (ledger page : Obj.t Trade) (m : Merge).

Lemma get_app_fresh ledger (e : string * Trade) id :
  Obj.get (ledger ++ [e]) id =
  match Obj.get ledger id with
  | Some v => Some v
  | None => if String.eqb id (fst e) then Some (snd e) else None
  end.
Proof.
  induction ledger as [| [k v] ledger IH]; simpl.
  - destruct e as [k v]; reflexivity.
  - destruct (String.eqb id k); [reflexivity | exact IH].
Qed.

Lemma known_app_other ledger (e : string * Trade) id :
  id <> fst e -> known (ledger ++ [e]) id = known ledger id.
Proof.
  intros Hne. unfold known. rewrite get_app_fresh.
  destruct (Obj.get ledger id); [reflexivity |].
  apply String.eqb_neq in Hne. rewrite Hne. reflexivity.
Qed.

Lemma unseen_app_other ledger (e : string * Trade) page :
  ~ In (fst e) (Obj.keys page) ->
  unseen (ledger ++ [e]) page = unseen ledger page
  /\ has_known (ledger ++ [e]) page = has_known ledger page.
Proof.
  induction page as [| e' page IH]; simpl; intros Hn; [split; reflexivity |].
  assert (Hne : fst e' <> fst e) by (intros E; apply Hn; left; congruence).
  destruct IH as [IH1 IH2]; [intros Hin; apply Hn; right; exact Hin |].
  rewrite (known_app_other ledger e (fst e') Hne), IH1, IH2. split; reflexivity.
Qed.

(** The page loop over a well-formed page: the unseen entries are
    appended in page order, and [hitExisting] is raised by a known id. *)
Lemma fold_merge page m :
  Obj.wf page ->
  let m' := fold_left mergeEntry page m in
  m_trades m' = m_trades m ++ unseen (m_trades m) page
  /\ m_hitExisting m' = m_hitExisting m || has_known (m_trades m) page
  /\ m_newInPage m' = (m_newInPage m + length (unseen (m_trades m) page))%nat
  /\ m_newTradesCount m' = (m_newTradesCount m + length (unseen (m_trades m) page))%nat.
Proof.
  unfold Obj.wf, Obj.keys. revert m.
  induction page as [| e page IH]; intros m Hwf; simpl.
  - rewrite app_nil_r, orb_false_r, !Nat.add_0_r. repeat split.
  - inversion Hwf as [| ? ? Hnotin Hwf']; subst.
    specialize (IH (mergeEntry m e) Hwf'). cbv zeta in IH.
    destruct IH as (H1 & H2 & H3 & H4). rewrite H1, H2, H3, H4.
    unfold mergeEntry, known.
    destruct (Obj.get (m_trades m) (fst e)) eqn:G; simpl.
    + rewrite orb_true_r. repeat split; reflexivity.
    + rewrite (set_fresh _ _ _ G).
      replace (fst e, snd e) with e by (destruct e; reflexivity).
      destruct (unseen_app_other (m_trades m) e page Hnotin) as [-> ->].
      rewrite <- app_assoc. simpl. repeat split; lia.
Qed.

Lemma unseen_all_known ledger page :
  (forall id, In id (Obj.keys page) -> known ledger id = true) ->
  unseen ledger page = [].
Proof.
  induction page as [| e page IH]; simpl; intros H; [reflexivity |].
  rewrite (H (fst e)) by (left; reflexivity). simpl.
  apply IH. intros id Hin. apply H. right. exact Hin.
Qed.

Lemma has_known_all_known ledger page :
  page <> [] ->
  (forall id, In id (Obj.keys page) -> known ledger id = true) ->
  has_known ledger page = true.
Proof.
  destruct page as [| e page]; [congruence |]. intros _ H. simpl.
  rewrite (H (fst e)) by (left; reflexivity). reflexivity.
Qed.

Lemma unseen_none_known ledger page :
  has_known ledger page = false -> unseen ledger page = page.
Proof.
  induction page as [| e page IH]; simpl; [reflexivity |].
  intros H. apply orb_false_iff in H. destruct H as [H1 H2].
  rewrite H1. simpl. rewrite IH by exact H2. reflexivity.
Qed.

End MergeFacts.

Section SyncFacts.
Variable env : Env.
Hypothesis env_wf : wf_env env.

Lemma loop_frame_refl w : loop_frame w w.
Proof. unfold loop_frame. repeat split. Qed.

Lemma loop_frame_trans w1 w2 w3 : loop_frame w1 w2 -> loop_frame w2 w3 -> loop_frame w1 w3.
Proof.
  unfold loop_frame.
  intros (A1 & A2 & A3 & A4 & A5 & A6 & A7 & A8 & A9)
         (B1 & B2 & B3 & B4 & B5 & B6 & B7 & B8 & B9).
  repeat split; congruence.
Qed.

(** The reservation of a page fetch returns and leaves the ledger alone. *)
Lemma reserve_page n w :
  punctual env -> limiter_ready w ->
  exists w1 h,
    waitForRateLimit (S n) env 2 w = Some (w1, h)
    /\ fullTradeHistory w1 = fullTradeHistory w
    /\ requests w1 = requests w
    /\ loop_frame w w1.
Proof.
  intros Hp [Hr Hm].
  destruct (waitForRateLimit_returns env n 2 w Hp Hr Hm) as [[w1 h] E].
  exists w1, h. split; [exact E |].
  destruct (waitForRateLimit_frame env _ _ _ _ _ E) as (F1 & F2 & F3 & F4 & F5 & F6 & F7).
  destruct (waitForRateLimit_spec env (S n) 2 w w1 h ltac:(lra) E) as (_ & _ & S1 & S2 & _).
  split; [exact F2 |]. split; [exact F6 |].
  unfold loop_frame. rewrite F2. repeat split; assumption.
Qed.

Lemma has_known_of_no_unseen ledger page :
  page <> [] -> unseen ledger page = [] -> has_known ledger page = true.
Proof.
  intros Hne Hu. destruct (has_known ledger page) eqn:E; [reflexivity |].
  apply unseen_none_known in E. congruence.
Qed.

(** One turn of the sync loop, entered with [hitExisting] false. *)
Lemma fetchLoop_iter fuel n offset cnt w w1 h :
  waitForRateLimit n env 2 w = Some (w1, h) ->
  let ledger := trades (fullTradeHistory w) in
  let resp := gateway env offset in
  let new := match resp with
             | ApiError => []
             | Page page => unseen ledger page
             end in
  exists w3,
    requests w3 = requests w ++ [offset]
    /\ trades (fullTradeHistory w3) = ledger ++ new
    /\ loop_frame w w3
    /\ fetchLoop (S fuel) n env offset cnt false w =
       if stops_as_coded ledger resp then Some ((cnt + length new)%nat, w3)
       else fetchLoop fuel n env (offset + 50) (cnt + length new) false w3.
Proof.
  intros E ledger resp new.
  destruct (waitForRateLimit_frame env _ _ _ _ _ E) as (F1 & F2 & F3 & F4 & F5 & F6 & F7).
  destruct (waitForRateLimit_spec env n 2 w w1 h ltac:(lra) E) as (_ & _ & S1 & S2 & _).
  cbn [fetchLoop]. rewrite E. unfold callTradesHistory.
  set (w2 := set_clock (add_request w1 offset)
               (clock (add_request w1 offset) + apiLatency env offset)).
  assert (Hw2 : requests w2 = requests w ++ [offset]
                /\ trades (fullTradeHistory w2) = ledger
                /\ loop_frame w w2).
  { unfold w2, loop_frame, ledger; simpl. rewrite F2, F6.
    repeat split; assumption. }
  destruct Hw2 as (R2 & T2 & L2).
  assert (Hset : forall ts, requests (set_trades w2 ts) = requests w ++ [offset]
                            /\ trades (fullTradeHistory (set_trades w2 ts)) = ts
                            /\ loop_frame w (set_trades w2 ts)).
  { intros ts. split; [exact R2 |]. split; [reflexivity |].
    eapply loop_frame_trans; [exact L2 |]. unfold loop_frame; simpl. repeat split. }
  subst resp new. destruct (gateway env offset) as [| page] eqn:G.
  - exists w2. simpl. rewrite app_nil_r, Nat.add_0_r.
    split; [exact R2 |]. split; [exact T2 |]. split; [exact L2 | reflexivity].
  - pose proof (env_wf offset page G) as Hwf.
    unfold Obj.keys. rewrite length_map.
    destruct page as [| e page'] eqn:Hpage.
    + exists w2. simpl. rewrite app_nil_r, Nat.add_0_r.
      split; [exact R2 |]. split; [exact T2 |]. split; [exact L2 | reflexivity].
    + rewrite <- Hpage in *. 
      assert (Hlen : (length page =? 0)%nat = false) by (subst page; reflexivity).
      rewrite Hlen.
      match goal with
      | |- context [fold_left mergeEntry page ?m0] =>
          destruct (fold_merge page m0 Hwf) as (M1 & M2 & M3 & M4);
          set (m := fold_left mergeEntry page m0) in *
      end.
      cbn [m_trades m_hitExisting m_newInPage m_newTradesCount] in M1, M2, M3, M4.
      rewrite T2 in M1, M2, M3, M4. simpl in M2, M3.
      rewrite M1, M3, M4.
      destruct (Hset (ledger ++ unseen ledger page)) as (R3 & T3 & L3).
      exists (set_trades w2 (ledger ++ unseen ledger page)).
      split; [exact R3 |]. split; [exact T3 |]. split; [exact L3 |].
      unfold stops_as_coded.
      destruct (length (unseen ledger page) =? 0)%nat eqn:N0.
      * apply Nat.eqb_eq in N0. apply length_zero_iff_nil in N0.
        rewrite (has_known_of_no_unseen ledger page) by (subst page; congruence || exact N0).
        reflexivity.
      * destruct (length page <? 50)%nat eqn:N50.
        -- rewrite orb_true_r. reflexivity.
        -- rewrite orb_false_r, M2.
           destruct (has_known ledger page); [| reflexivity].
           destruct fuel; reflexivity.
Qed.

(** The loop does what the plan of the coded stop rule says: it ends
    when the plan ends, having fetched the planned offsets and added
    the planned entries. *)
Lemma fetchLoop_plan fuel n offset cnt w :
  punctual env -> limiter_ready w ->
  match syncPlan stops_as_coded fuel env offset (trades (fullTradeHistory w)) with
  | Some (offs, news) =>
      exists w',
        fetchLoop fuel (S n) env offset cnt false w = Some ((cnt + length news)%nat, w')
        /\ requests w' = requests w ++ offs
        /\ trades (fullTradeHistory w') = trades (fullTradeHistory w) ++ news
        /\ loop_frame w w'
  | None => fetchLoop fuel (S n) env offset cnt false w = None
  end.
Proof.
  intros Hp. revert offset cnt w.
  induction fuel as [| fuel IH]; intros offset cnt w Hr; [reflexivity |].
  destruct (reserve_page n w Hp Hr) as (w1 & h & E & _).
  destruct (fetchLoop_iter fuel (S n) offset cnt w w1 h E) as (w3 & R3 & T3 & L3 & Eq).
  cbv zeta in *. rewrite Eq. cbn [syncPlan].
  set (ledger := trades (fullTradeHistory w)) in *.
  set (new := match gateway env offset with
              | ApiError => []
              | Page page => unseen ledger page
              end) in *.
  destruct (stops_as_coded ledger (gateway env offset)).
  - exists w3. split; [reflexivity |]. split; [exact R3 |]. split; [exact T3 | exact L3].
  - assert (Hr3 : limiter_ready w3).
    { destruct Hr as [Hr1 Hr2]. destruct L3 as (_ & _ & _ & _ & _ & _ & _ & D & M).
      unfold limiter_ready. rewrite D, M. split; assumption. }
    specialize (IH (offset + 50)%nat (cnt + length new)%nat w3 Hr3).
    rewrite T3 in IH.
    destruct (syncPlan stops_as_coded fuel env (offset + 50) (ledger ++ new))
      as [[offs news] |].
    + destruct IH as (w' & E' & R' & T' & L').
      exists w'. rewrite E', R', T', R3, length_app, <- !app_assoc, Nat.add_assoc.
      split; [reflexivity |]. split; [reflexivity |]. split; [reflexivity |].
      eapply loop_frame_trans; eassumption.
    + exact IH.
Qed.

End SyncFacts.

Lemma distinct_NoDup l : distinct l = true -> List.NoDup l.
Proof.
  induction l as [| x l IH]; simpl; intros H; [constructor |].
  apply andb_true_iff in H. destruct H as [H1 H2].
  constructor; [| apply IH; exact H2].
  intros Hin. apply negb_true_iff in H1.
  assert (E : existsb (String.eqb x) l = true).
  { apply existsb_exists. exists x. split; [exact Hin | apply String.eqb_refl]. }
  congruence.
Qed.

Lemma known_of_In (ledger : Obj.t Trade) id : In id (Obj.keys ledger) -> known ledger id = true.
Proof.
  intros Hin. unfold known. destruct (Obj.get ledger id) eqn:G; [reflexivity |].
  apply get_None_notin in G. contradiction.
Qed.

Lemma known_In (ledger : Obj.t Trade) id : known ledger id = true -> In id (Obj.keys ledger).
Proof.
  unfold known. destruct (Obj.get ledger id) eqn:G; [| discriminate].
  intros _. eapply get_Some_In. exact G.
Qed.

Lemma TradeHistory_ext (h1 h2 : TradeHistory) :
  trades h1 = trades h2 -> lastFetchTime h1 = lastFetchTime h2 ->
  totalCount h1 = totalCount h2 -> h1 = h2.
Proof. destruct h1, h2; simpl; intros -> -> ->; reflexivity. Qed.

(** What follows the loop, by whether it inserted anything. *)
Lemma finishSync_spec cnt w :
  let w' := snd (finishSync cnt w) in
  fst (finishSync cnt w) = fullTradeHistory w'
  /\ requests w' = requests w
  /\ trades (fullTradeHistory w') = trades (fullTradeHistory w)
  /\ costBasis w' = replay (pairs w') (trades (fullTradeHistory w'))
  /\ tradeAnalytics w' = analytics (clock w') (costBasis w')
  /\ match cnt with
     | O =>
         fullTradeHistory w' = fullTradeHistory w
         /\ writes w' = writes w ++
              [SaveCostBasis (costBasis w'); SaveAnalytics (tradeAnalytics w')]
     | S _ =>
         lastFetchTime (fullTradeHistory w') = Some (clock w')
         /\ totalCount (fullTradeHistory w') = length (trades (fullTradeHistory w'))
         /\ writes w' = writes w ++
              [SaveTradeHistory (fullTradeHistory w');
               SaveCostBasis (costBasis w'); SaveAnalytics (tradeAnalytics w')]
     end.
Proof.
  destruct cnt; simpl.
  - repeat split; try reflexivity. rewrite <- app_assoc. reflexivity.
  - unfold Obj.keys. rewrite length_map.
    repeat split; try reflexivity. rewrite <- !app_assoc. reflexivity.
Qed.

Section SyncRuns.
Variable env : Env.
Hypothesis env_wf : wf_env env.

(** A finished loop has appended to the ledger what it counted. *)
Lemma fetchLoop_inv fuel n offset cnt w cnt' w' :
  fetchLoop fuel n env offset cnt false w = Some (cnt', w') ->
  exists news,
    cnt' = (cnt + length news)%nat
    /\ trades (fullTradeHistory w') = trades (fullTradeHistory w) ++ news
    /\ loop_frame w w'.
Proof.
  revert offset cnt w. induction fuel as [| fuel IH]; intros offset cnt w; [discriminate |].
  destruct (waitForRateLimit n env 2 w) as [[w1 h] |] eqn:E;
    [| cbn [fetchLoop]; rewrite E; discriminate].
  destruct (fetchLoop_iter env env_wf fuel n offset cnt w w1 h E)
    as (w3 & R3 & T3 & L3 & Eq).
  cbv zeta in Eq. rewrite Eq. clear Eq.
  match type of T3 with _ = _ ++ ?x => set (new := x) in * end.
  destruct (stops_as_coded _ _).
  - intros [= <- <-]. exists new. split; [reflexivity |]. split; assumption.
  - intros H. apply IH in H. destruct H as (news & -> & T' & L').
    exists (new ++ news). rewrite T', T3, length_app, <- app_assoc, Nat.add_assoc.
    split; [reflexivity |]. split; [reflexivity |].
    eapply loop_frame_trans; eassumption.
Qed.

End SyncRuns.

(** ** C3: when the incremental sync stops *)

(** C3, as the code has it.  The sync fetches exactly the offsets the
    coded stop rule prescribes: after a page it stops when the gateway
    errored, or the page had at least one id already in the ledger, or
    the page had fewer than 50 records; otherwise (a page of 50 or
    more records, all unseen) it advances the offset by 50 and fetches
    the next page.  The ledger gains the unseen entries of the fetched
    pages, and the sync ends exactly when the prescribed run ends. *)
Theorem sync_follows_coded_stop_rule env fuel w :
  wf_env env -> punctual env -> limiter_ready w ->
  match syncPlan stops_as_coded fuel env 0 (trades (fullTradeHistory w)) with
  | Some (offs, news) =>
      exists w',
        fetchNewTrades fuel env w = Some (fullTradeHistory w', w')
        /\ requests w' = requests w ++ offs
        /\ trades (fullTradeHistory w') = trades (fullTradeHistory w) ++ news
  | None => fetchNewTrades fuel env w = None
  end.
Proof.
  intros Hwf Hp Hr. unfold fetchNewTrades.
  destruct fuel as [| fuel]; [reflexivity |].
  pose proof (fetchLoop_plan env Hwf (S fuel) fuel 0 0 w Hp Hr) as H.
  destruct (syncPlan stops_as_coded (S fuel) env 0 (trades (fullTradeHistory w)))
    as [[offs news] |].
  - destruct H as (w1 & E & R & T & _). rewrite E.
    destruct (finishSync_spec (0 + length news) w1) as (F1 & F2 & F3 & _).
    exists (snd (finishSync (0 + length news) w1)).
    split; [rewrite <- F1; destruct (finishSync _ w1); reflexivity |].
    split; [rewrite F2; exact R | rewrite F3; exact T].
  - rewrite H. reflexivity.
Qed.

Lemma page50_wf : Obj.wf page50.
Proof. apply distinct_NoDup. vm_compute. reflexivity. Qed.

Lemma endEnv_wf : wf_env endEnv.
Proof.
  intros [| ofs] page; simpl.
  - intros [= <-]. exact page50_wf.
  - intros [= <-]. constructor.
Qed.

Lemma errorEnv_wf : wf_env errorEnv.
Proof.
  intros offset page. unfold errorEnv, pagedEnv; simpl.
  do 51 (destruct offset as [| offset];
         [first [discriminate | intros [= <-]; first [exact page50_wf | constructor]] |]).
  intros [= <-]. constructor.
Qed.

Lemma pagedEnv_punctual pages : punctual (pagedEnv pages).
Proof. intros t. simpl. lra. Qed.

Lemma ledgerWorld_ready ledger fetched : limiter_ready (ledgerWorld ledger fetched).
Proof. split; simpl; lra. Qed.

(** The theorem at the mixed first page: one fetch, 49 entries added. *)
Lemma sync_follows_coded_stop_rule_witness :
  exists w',
    fetchNewTrades 3 endEnv mixedWorld = Some (fullTradeHistory w', w')
    /\ requests w' = [0%nat]
    /\ length (trades (fullTradeHistory w')) = 50%nat.
Proof.
  assert (P : exists news,
             syncPlan stops_as_coded 3 endEnv 0 (trades (fullTradeHistory mixedWorld))
             = Some ([0%nat], news) /\ length news = 49%nat).
  { eexists. split; [vm_compute; reflexivity | reflexivity]. }
  destruct P as (news & P & Hlen).
  pose proof (sync_follows_coded_stop_rule endEnv 3 mixedWorld endEnv_wf
                (pagedEnv_punctual _) (ledgerWorld_ready _ _)) as H.
  rewrite P in H. destruct H as (w' & E & R & T). exists w'.
  split; [exact E |]. split; [exact R |].
  rewrite T, length_app, Hlen. reflexivity.
Defined.

(** C3, as stated, fails.  The first page is full (50 records) and has
    both new ids (49) and a known one: the rule as specified does not
    stop there and goes on to offset 50, while the sync stops after
    this one fetch. *)
Lemma mixed_full_page_ends_sync :
  length page50 = 50%nat
  /\ length (unseen (trades (fullTradeHistory mixedWorld)) page50) = 49%nat
  /\ has_known (trades (fullTradeHistory mixedWorld)) page50 = true
  /\ stops_as_claimed (trades (fullTradeHistory mixedWorld)) (gateway endEnv 0) = false
  /\ option_map fst (syncPlan stops_as_claimed 3 endEnv 0
                       (trades (fullTradeHistory mixedWorld)))
     = Some [0; 50]%nat
  /\ option_map (fun r => requests (snd r)) (fetchNewTrades 3 endEnv mixedWorld)
     = Some [0%nat].
Proof.
  split; [vm_compute; reflexivity |].
  split; [vm_compute; reflexivity |].
  split; [vm_compute; reflexivity |].
  split; [vm_compute; reflexivity |].
  split; vm_compute; reflexivity.
Qed.

(** ** C8: convergence *)

(** C8.  When the ledger has every trade of the remote history, the
    sync makes exactly one page fetch and leaves the ledger as it was:
    the trades, [totalCount] and [lastFetchTime] are unchanged, and the
    ledger is not written. *)
Theorem sync_converged env fuel w :
  wf_env env -> punctual env -> limiter_ready w ->
  remote_known env (trades (fullTradeHistory w)) ->
  exists w',
    fetchNewTrades (S fuel) env w = Some (fullTradeHistory w, w')
    /\ requests w' = requests w ++ [0%nat]
    /\ fullTradeHistory w' = fullTradeHistory w
    /\ writes w' = writes w ++
         [SaveCostBasis (costBasis w'); SaveAnalytics (tradeAnalytics w')].
Proof.
  intros Hwf Hp Hr Hk. unfold fetchNewTrades.
  pose proof (fetchLoop_plan env Hwf (S fuel) fuel 0 0 w Hp Hr) as H.
  cbn [syncPlan] in H.
  set (ledger := trades (fullTradeHistory w)) in *.
  assert (Hstop : stops_as_coded ledger (gateway env 0) = true
                  /\ match gateway env 0 with
                     | ApiError => []
                     | Page page => unseen ledger page
                     end = []).
  { destruct (gateway env 0) as [| page] eqn:G; [split; reflexivity |].
    split; [| apply unseen_all_known; exact (Hk 0%nat page G)].
    simpl. destruct page as [| e page]; [reflexivity |].
    rewrite has_known_all_known; [reflexivity | discriminate | exact (Hk 0%nat _ G)]. }
  destruct Hstop as [Hs Hn]. rewrite Hs, Hn in H.
  destruct H as (w1 & E & R & T & (L1 & L2 & L)). rewrite E. simpl plus.
  destruct (finishSync_spec 0 w1) as (F1 & F2 & F3 & _ & _ & F6 & F7).
  exists (snd (finishSync 0 w1)).
  assert (Hh : fullTradeHistory w1 = fullTradeHistory w).
  { apply TradeHistory_ext; [rewrite T; apply app_nil_r | exact L1 | exact L2]. }
  split; [rewrite <- Hh, <- F6, <- F1; destruct (finishSync 0 w1); reflexivity |].
  split; [rewrite F2; exact R |].
  split; [rewrite F6; exact Hh |].
  rewrite F7. destruct L as (_ & _ & _ & _ & -> & _). reflexivity.
Qed.

Lemma endEnv_known : remote_known endEnv (trades (fullTradeHistory syncedWorld)).
Proof.
  intros [| ofs] page; simpl.
  - intros [= <-] id Hin. apply known_of_In. exact Hin.
  - intros [= <-] id [].
Qed.

(** The theorem at a ledger that holds the one remote page. *)
Lemma sync_converged_witness :
  exists w',
    fetchNewTrades 1 endEnv syncedWorld = Some (fullTradeHistory syncedWorld, w')
    /\ requests w' = [0%nat]
    /\ fullTradeHistory w' = fullTradeHistory syncedWorld.
Proof.
  destruct (sync_converged endEnv 0 syncedWorld endEnv_wf (pagedEnv_punctual _)
              (ledgerWorld_ready _ _) endEnv_known) as (w' & E & R & H & _).
  exists w'. split; [exact E |]. split; [exact R | exact H].
Defined.

(** ** C10: what every sync does, and what only a growing one does *)

(** C10.  Every completed sync rebuilds the cost-basis map from the
    ledger alone and the analytics from that map, and writes both
    stores.  The ledger is changed and written only when the sync
    inserted a record: then [totalCount] and [lastFetchTime] are set
    and the ledger is saved; otherwise the ledger is as before and is
    not written. *)
Theorem sync_always_rebuilds env fuel w r w' :
  wf_env env ->
  fetchNewTrades fuel env w = Some (r, w') ->
  exists news,
    trades (fullTradeHistory w') = trades (fullTradeHistory w) ++ news
    /\ costBasis w' = replay (pairs w') (trades (fullTradeHistory w'))
    /\ tradeAnalytics w' = analytics (clock w') (costBasis w')
    /\ match news with
       | [] =>
           fullTradeHistory w' = fullTradeHistory w
           /\ writes w' = writes w ++
                [SaveCostBasis (costBasis w'); SaveAnalytics (tradeAnalytics w')]
       | _ :: _ =>
           lastFetchTime (fullTradeHistory w') = Some (clock w')
           /\ totalCount (fullTradeHistory w') = length (trades (fullTradeHistory w'))
           /\ writes w' = writes w ++
                [SaveTradeHistory (fullTradeHistory w');
                 SaveCostBasis (costBasis w'); SaveAnalytics (tradeAnalytics w')]
       end.
Proof.
  intros Hwf. unfold fetchNewTrades.
  destruct (fetchLoop fuel fuel env 0 0 false w) as [[cnt w1] |] eqn:E; [| discriminate].
  intros H. assert (Hfin : finishSync cnt w1 = (r, w')) by congruence. clear H.
  assert (Hw' : w' = snd (finishSync cnt w1)) by (rewrite Hfin; reflexivity).
  subst w'. clear Hfin r.
  destruct (fetchLoop_inv env Hwf _ _ _ _ _ _ _ E) as (news & -> & T & L1 & L2 & L).
  exists news. destruct L as (_ & _ & _ & _ & Hw & _).
  destruct news as [| e news].
  - change (0 + length (@nil (string * Trade)))%nat with 0%nat.
    destruct (finishSync_spec 0 w1) as (_ & _ & F3 & F4 & F5 & F6 & F7).
    split; [rewrite F3; exact T |]. split; [exact F4 |]. split; [exact F5 |].
    rewrite F6, F7, Hw. split; [| reflexivity].
    apply TradeHistory_ext; [rewrite T; apply app_nil_r | exact L1 | exact L2].
  - change (0 + length (e :: news))%nat with (S (length news)).
    destruct (finishSync_spec (S (length news)) w1) as (_ & _ & F3 & F4 & F5 & F6 & F7 & F8).
    split; [rewrite F3; exact T |]. split; [exact F4 |]. split; [exact F5 |].
    rewrite F8, Hw. split; [exact F6 |]. split; [exact F7 | reflexivity].
Qed.

Lemma downEnv_wf : wf_env downEnv.
Proof. intros offset page. discriminate. Qed.

(** The theorem at a sync whose first fetch fails: the stores are
    rebuilt and written, the ledger is neither changed nor written. *)
Lemma sync_always_rebuilds_witness :
  exists r w',
    fetchNewTrades 1 downEnv syncedWorld = Some (r, w')
    /\ fullTradeHistory w' = fullTradeHistory syncedWorld
    /\ costBasis w' = replay (pairs w') (trades (fullTradeHistory w'))
    /\ writes w' = [SaveCostBasis (costBasis w'); SaveAnalytics (tradeAnalytics w')].
Proof.
  assert (E : exists r w', fetchNewTrades 1 downEnv syncedWorld = Some (r, w')).
  { vm_compute. do 2 eexists. reflexivity. }
  destruct E as (r & w' & E). exists r, w'. split; [exact E |].
  destruct (sync_always_rebuilds downEnv 1 syncedWorld r w' downEnv_wf E)
    as (news & T & C & _ & M).
  assert (Hn : news = []).
  { assert (L : option_map (fun x => length (trades (fullTradeHistory (snd x))))
                  (fetchNewTrades 1 downEnv syncedWorld) = Some 50%nat)
      by (vm_compute; reflexivity).
    rewrite E in L. injection L as L. cbn [snd] in L.
    rewrite T, length_app in L.
    change (length (trades (fullTradeHistory syncedWorld))) with 50%nat in L.
    destruct news; [reflexivity | simpl in L; lia]. }
  subst news. destruct M as [M1 M2]. split; [exact M1 |]. split; [exact C | exact M2].
Defined.

(** ** C1: a gateway error after progress *)

Lemma NoDup_app_disjoint {A : Type} (l1 l2 : list A) a :
  List.NoDup (l1 ++ l2) -> In a l1 -> In a l2 -> False.
Proof.
  induction l1 as [| x l1 IH]; simpl; intros Hnd H1 H2; [contradiction |].
  inversion Hnd as [| ? ? Hx Hnd']; subst. destruct H1 as [-> | H1].
  - apply Hx. apply in_or_app. right. exact H2.
  - exact (IH Hnd' H1 H2).
Qed.

Lemma has_known_fresh (ledger page rest : Obj.t Trade) :
  List.NoDup (Obj.keys (ledger ++ page ++ rest)) -> has_known ledger page = false.
Proof.
  intros Hnd. destruct (has_known ledger page) eqn:E; [| reflexivity]. exfalso.
  apply existsb_exists in E. destruct E as (e & Hin & Hk).
  apply known_In in Hk. unfold Obj.keys in *. rewrite !map_app in Hnd.
  apply (NoDup_app_disjoint _ _ (fst e) Hnd Hk).
  apply in_or_app. left. apply in_map. exact Hin.
Qed.

(** The plan of the coded rule over full pages of unseen trades that
    end in a gateway error: every page is fetched and merged, the
    failing fetch is the last. *)
Lemma plan_fresh_pages env pages :
  forall fuel offset ledger,
    (forall i page, nth_error pages i = Some page ->
       gateway env (offset + 50 * i) = Page page /\ (50 <= length page)%nat) ->
    gateway env (offset + 50 * length pages) = ApiError ->
    List.NoDup (Obj.keys (ledger ++ concat pages)) ->
    (length pages < fuel)%nat ->
    syncPlan stops_as_coded fuel env offset ledger
    = Some (map (fun i => (offset + 50 * i)%nat) (seq 0 (S (length pages))), concat pages).
Proof.
  induction pages as [| page pages IH]; intros fuel offset ledger Hp He Hnd Hf;
    (destruct fuel as [| fuel]; [lia |]); cbn [syncPlan].
  - simpl in He. rewrite Nat.add_0_r in He. rewrite He. simpl.
    rewrite Nat.add_0_r. reflexivity.
  - destruct (Hp 0%nat page eq_refl) as [Hg Hl]. rewrite Nat.mul_0_r, Nat.add_0_r in Hg.
    rewrite Hg. simpl concat in *.
    pose proof (has_known_fresh ledger page (concat pages) Hnd) as Hk.
    assert (H50 : (length page <? 50)%nat = false) by (apply Nat.ltb_ge; exact Hl).
    assert (Hs : stops_as_coded ledger (Page page) = false)
      by (simpl; rewrite Hk, H50; reflexivity).
    rewrite Hs. cbv beta iota zeta. rewrite (unseen_none_known _ _ Hk).
    rewrite (IH fuel (offset + 50)%nat (ledger ++ page)).
    + f_equal. f_equal.
      change (seq 0 (S (length (page :: pages))))
        with (0%nat :: seq 1 (S (length pages))).
      rewrite <- seq_shift, map_cons, map_map, Nat.mul_0_r, Nat.add_0_r. f_equal.
      apply map_ext. intros i. lia.
    + intros i pg Hi. replace (offset + 50 + 50 * i)%nat with (offset + 50 * S i)%nat by lia.
      apply Hp. exact Hi.
    + replace (offset + 50 + 50 * length pages)%nat
        with (offset + 50 * length (page :: pages))%nat by (simpl; lia).
      exact He.
    + rewrite <- app_assoc. exact Hnd.
    + simpl in Hf. lia.
Qed.

(** C1, as the code has it.  The pages at offsets 0, 50, ... are full
    pages of unseen trades, at least one, and the next fetch returns a
    gateway error.  The sync stops at the failing fetch, every merged
    record is in the ledger after the records it had, and, records
    having been inserted, [totalCount] and [lastFetchTime] are set
    ([lastFetchTime] to the clock at the end) and the ledger is saved;
    the call resolves to the ledger. *)
Theorem sync_error_after_progress env fuel w pages :
  wf_env env -> punctual env -> limiter_ready w ->
  pages <> [] ->
  (forall i page, nth_error pages i = Some page ->
     gateway env (50 * i) = Page page /\ (50 <= length page)%nat) ->
  gateway env (50 * length pages) = ApiError ->
  List.NoDup (Obj.keys (trades (fullTradeHistory w) ++ concat pages)) ->
  (length pages < fuel)%nat ->
  exists w',
    fetchNewTrades fuel env w = Some (fullTradeHistory w', w')
    /\ requests w' = requests w ++ map (fun i => (50 * i)%nat) (seq 0 (S (length pages)))
    /\ trades (fullTradeHistory w') = trades (fullTradeHistory w) ++ concat pages
    /\ lastFetchTime (fullTradeHistory w') = Some (clock w')
    /\ totalCount (fullTradeHistory w') = length (trades (fullTradeHistory w'))
    /\ writes w' = writes w ++
         [SaveTradeHistory (fullTradeHistory w');
          SaveCostBasis (costBasis w'); SaveAnalytics (tradeAnalytics w')].
Proof.
  intros Hwf Hpu Hr Hne Hp He Hnd Hf. unfold fetchNewTrades.
  destruct fuel as [| fuel]; [lia |].
  pose proof (fetchLoop_plan env Hwf (S fuel) fuel 0 0 w Hpu Hr) as H.
  rewrite (plan_fresh_pages env pages (S fuel) 0 (trades (fullTradeHistory w))) in H;
    try assumption.
  destruct H as (w1 & E & R & T & L). rewrite E.
  assert (Hcnt : exists k, (0 + length (concat pages))%nat = S k).
  { destruct pages as [| page pages]; [congruence |].
    destruct (Hp 0%nat page eq_refl) as [_ Hl]. simpl. rewrite length_app.
    exists (length page + length (concat pages) - 1)%nat. lia. }
  destruct Hcnt as [k ->].
  destruct (finishSync_spec (S k) w1) as (F1 & F2 & F3 & _ & _ & F6 & F7 & F8).
  destruct L as (_ & _ & _ & _ & _ & _ & Hw & _).
  exists (snd (finishSync (S k) w1)).
  split; [rewrite <- F1; destruct (finishSync _ w1); reflexivity |].
  split; [rewrite F2; exact R |]. split; [rewrite F3; exact T |].
  split; [exact F6 |]. split; [exact F7 |]. rewrite F8, Hw. reflexivity.
Qed.

(** The theorem at scenario D: 50 new records, then a gateway error. *)
Lemma sync_error_after_progress_witness :
  exists w',
    fetchNewTrades 3 errorEnv errorWorld = Some (fullTradeHistory w', w')
    /\ requests w' = [0; 50]%nat
    /\ trades (fullTradeHistory w') = oldTrade :: page50
    /\ lastFetchTime (fullTradeHistory w') = Some (clock w').
Proof.
  destruct (sync_error_after_progress errorEnv 3 errorWorld [page50])
    as (w' & E & R & T & F & _).
  - exact errorEnv_wf.
  - apply pagedEnv_punctual.
  - apply ledgerWorld_ready.
  - discriminate.
  - intros [| [| i]] page; simpl; try discriminate.
    intros [= <-]. split; [reflexivity | apply Nat.leb_le; reflexivity].
  - reflexivity.
  - apply distinct_NoDup. vm_compute. reflexivity.
  - simpl. lia.
  - exists w'. split; [exact E |]. split; [exact R |]. split; [| exact F].
    rewrite T. cbn [concat]. rewrite app_nil_r. reflexivity.
Defined.

(** C1, as stated, fails.  At scenario D the first page merges 50
    records and the second fetch is a gateway error; [lastFetchTime]
    was 4 999 000 000 and is 5 000 000 400 after the sync, and the
    call resolves to the very value, in the very state, of a sync
    whose second page is merely empty: the caller gets no failure
    signal. *)
Lemma sync_error_moves_lastFetchTime :
  gateway errorEnv 50 = ApiError
  /\ lastFetchTime (fullTradeHistory errorWorld) = Some 4999000000
  /\ option_map (fun r => lastFetchTime (fst r)) (fetchNewTrades 3 errorEnv errorWorld)
     = Some (Some 5000000400)
  /\ option_map (fun r => requests (snd r)) (fetchNewTrades 3 errorEnv errorWorld)
     = Some [0; 50]%nat
  /\ fetchNewTrades 3 errorEnv errorWorld = fetchNewTrades 3 endEnv errorWorld.
Proof.
  split; [reflexivity |].
  split; [reflexivity |].
  split; [vm_compute; reflexivity |].
  split; vm_compute; reflexivity.
Qed.

(** * Further properties *)

(** ** Binary64 rounding *)

Lemma pow2_pos z : 0 < pow2 z.
Proof. apply Qpower_0_lt. reflexivity. Qed.

Lemma pow2_add a b : pow2 (a + b) == pow2 a * pow2 b.
Proof. apply Qpower_plus. discriminate. Qed.

Lemma pow2_opp a : pow2 (- a) == / pow2 a.
Proof. apply Qpower_opp. Qed.

Lemma pow2_cancel a : pow2 a * pow2 (- a) == 1.
Proof. rewrite <- pow2_add, Z.add_opp_diag_r. reflexivity. Qed.

Lemma pow2_le a b : (a <= b)%Z -> pow2 a <= pow2 b.
Proof. intros H. apply Qpower_le_compat_l; [exact H | discriminate]. Qed.

Lemma pow2_lt a b : (a < b)%Z -> pow2 a < pow2 b.
Proof. intros H. apply Qpower_lt_compat_l; [exact H | reflexivity]. Qed.

Lemma pow2_le_inv a b : pow2 a <= pow2 b -> (a <= b)%Z.
Proof. intros H. apply (Qpower_le_compat_l_inv 2); [exact H | reflexivity]. Qed.

Lemma pow2_lt_inv a b : pow2 a < pow2 b -> (a < b)%Z.
Proof. intros H. apply (Qpower_lt_compat_l_inv 2); [exact H | reflexivity]. Qed.

Lemma pow2_Z n : (0 <= n)%Z -> pow2 n == inject_Z (2 ^ n).
Proof. intros H. unfold pow2. rewrite Zpower_Qpower by exact H. reflexivity. Qed.

Lemma pow2_succ a : pow2 (a + 1) == 2 * pow2 a.
Proof. rewrite pow2_add. change (pow2 1) with 2. ring. Qed.

Lemma log2_bounds n :
  (0 < n)%Z -> pow2 (Z.log2 n) <= inject_Z n /\ inject_Z n < pow2 (Z.log2 n + 1).
Proof.
  intros Hn. destruct (Z.log2_spec n Hn) as [H1 H2].
  pose proof (Z.log2_nonneg n) as H0.
  rewrite !pow2_Z by lia. rewrite <- Zle_Qle, <- Zlt_Qlt.
  replace (Z.log2 n + 1)%Z with (Z.succ (Z.log2 n)) by lia. split; assumption.
Qed.

Lemma expo_spec x : 0 < x -> pow2 (expo x) <= x /\ x < pow2 (expo x + 1).
Proof.
  intros Hx. destruct x as [n d]. unfold expo. cbn [Qnum Qden].
  assert (Hn : (0 < n)%Z) by (unfold Qlt in Hx; simpl in Hx; lia).
  destruct (log2_bounds n Hn) as [N1 N2].
  destruct (log2_bounds (Zpos d) ltac:(lia)) as [D1 D2].
  set (a := Z.log2 n) in *. set (b := Z.log2 (Z.pos d)) in *.
  assert (Hq : (n # d) * inject_Z (Z.pos d) == inject_Z n).
  { unfold Qeq, Qmult, inject_Z; simpl. lia. }
  assert (Hd : 0 < inject_Z (Z.pos d)) by (unfold Qlt; simpl; lia).
  pose proof (pow2_pos a) as Pa. pose proof (pow2_pos b) as Pb.
  pose proof (pow2_pos (a - b)) as Pab.
  assert (E1 : pow2 (a - b) * pow2 b == pow2 a).
  { rewrite <- pow2_add. replace (a - b + b)%Z with a by lia. reflexivity. }
  assert (E2 : pow2 (a + 1) == 2 * pow2 a) by apply pow2_succ.
  assert (E3 : pow2 (b + 1) == 2 * pow2 b) by apply pow2_succ.
  assert (E4 : pow2 (a - b + 1) == 2 * pow2 (a - b)) by apply pow2_succ.
  assert (E5 : pow2 (a - b - 1 + 1) == pow2 (a - b))
    by (replace (a - b - 1 + 1)%Z with (a - b)%Z by lia; reflexivity).
  assert (E6 : pow2 (a - b) == 2 * pow2 (a - b - 1)).
  { rewrite <- pow2_succ. symmetry. exact E5. }
  set (x := n # d) in *. set (dd := inject_Z (Z.pos d)) in *. set (nn := inject_Z n) in *.
  clearbody x dd nn.
  destruct (Qle_bool (pow2 (a - b)) x) eqn:C.
  - apply Qle_bool_iff in C. split; [exact C |]. rewrite E4.
    (* x * dd = nn < 2 pa = 2 pab pb <= 2 pab dd *)
    apply Qnot_le_lt. intros Hc.
    assert (2 * pow2 (a - b) * dd <= x * dd) by (apply Qmult_le_compat_r; lra).
    assert (pow2 (a - b) * pow2 b <= pow2 (a - b) * dd) by (apply Qmult_le_l; lra).
    lra.
  - assert (C' : x < pow2 (a - b)).
    { apply Qnot_le_lt. intros Hc. apply Qle_bool_iff in Hc. congruence. }
    clear C. split; [| rewrite E5; exact C'].
    (* x dd = nn >= pa = pab pb ; dd < 2 pb ; so x > pab/2 *)
    apply Qnot_lt_le. intros Hc.
    assert (x * dd <= pow2 (a - b - 1) * dd) by (apply Qmult_le_compat_r; lra).
    assert (pow2 (a - b - 1) * dd < pow2 (a - b - 1) * (2 * pow2 b)).
    { apply Qmult_lt_l; [apply pow2_pos | lra]. }
    assert (pow2 (a - b - 1) * (2 * pow2 b) == pow2 a).
    { rewrite <- E1, E6. ring. }
    lra.
Qed.

Lemma expo_unique x e : pow2 e <= x -> x < pow2 (e + 1) -> expo x = e.
Proof.
  intros H1 H2. assert (Hx : 0 < x) by (pose proof (pow2_pos e); lra).
  destruct (expo_spec x Hx) as [S1 S2].
  assert ((expo x < e + 1)%Z) by (apply pow2_lt_inv; lra).
  assert ((e < expo x + 1)%Z) by (apply pow2_lt_inv; lra).
  lia.
Qed.

Lemma expo_comp x y : 0 < x -> x == y -> expo x = expo y.
Proof.
  intros Hx E. destruct (expo_spec x Hx) as [S1 S2].
  symmetry. apply expo_unique; lra.
Qed.

Lemma expo_mono x y : 0 < x -> x <= y -> (expo x <= expo y)%Z.
Proof.
  intros Hx Hxy. destruct (expo_spec x Hx) as [S1 _].
  destruct (expo_spec y ltac:(lra)) as [_ T2].
  assert ((expo x < expo y + 1)%Z) by (apply pow2_lt_inv; lra). lia.
Qed.

(** Rounding to the nearest integer. *)

Lemma rne_cases m :
  let f := Qfloor m in
  inject_Z f <= m /\ m < inject_Z f + 1
  /\ ((rne m = f /\ m - inject_Z f <= 1 # 2 /\ (m - inject_Z f == 1 # 2 -> Z.even f = true))
      \/ (rne m = (f + 1)%Z /\ 1 # 2 <= m - inject_Z f
          /\ (m - inject_Z f == 1 # 2 -> Z.even f = false))).
Proof.
  cbv zeta. pose proof (Qfloor_le m) as F1. pose proof (Qlt_floor m) as F2.
  rewrite inject_Z_plus in F2. change (inject_Z 1) with 1 in F2.
  split; [exact F1 |]. split; [exact F2 |].
  unfold rne. cbv zeta.
  destruct (Qlt_bool (m - inject_Z (Qfloor m)) (1 # 2)) eqn:A.
  - apply Qlt_bool_true in A. left. split; [reflexivity |]. split; [lra |]. intros; lra.
  - apply Qlt_bool_false in A.
    destruct (Qlt_bool (1 # 2) (m - inject_Z (Qfloor m))) eqn:B.
    + apply Qlt_bool_true in B. right. split; [reflexivity |]. split; [lra |]. intros; lra.
    + apply Qlt_bool_false in B. destruct (Z.even (Qfloor m)) eqn:Ev.
      * left. split; [reflexivity |]. split; [lra |]. intros; reflexivity.
      * right. split; [reflexivity |]. split; [lra |]. intros; reflexivity.
Qed.

Lemma rne_near m : m - (1 # 2) <= inject_Z (rne m) /\ inject_Z (rne m) <= m + (1 # 2).
Proof.
  destruct (rne_cases m) as (F1 & F2 & [(-> & H & _) | (-> & H & _)]).
  - split; lra.
  - rewrite inject_Z_plus. change (inject_Z 1) with 1. split; lra.
Qed.

Lemma rne_comp m m' : m == m' -> rne m = rne m'.
Proof.
  intros E. unfold rne. cbv zeta. rewrite (Qfloor_comp _ _ E).
  set (f := Qfloor m').
  assert (R : m - inject_Z f == m' - inject_Z f) by lra.
  assert (A : Qlt_bool (m - inject_Z f) (1 # 2) = Qlt_bool (m' - inject_Z f) (1 # 2)).
  { destruct (Qlt_bool (m' - inject_Z f) (1 # 2)) eqn:X.
    - apply Qlt_bool_true in X. apply Qlt_bool_true. lra.
    - apply Qlt_bool_false in X. apply Qlt_bool_false. lra. }
  assert (B : Qlt_bool (1 # 2) (m - inject_Z f) = Qlt_bool (1 # 2) (m' - inject_Z f)).
  { destruct (Qlt_bool (1 # 2) (m' - inject_Z f)) eqn:X.
    - apply Qlt_bool_true in X. apply Qlt_bool_true. lra.
    - apply Qlt_bool_false in X. apply Qlt_bool_false. lra. }
  rewrite A, B. reflexivity.
Qed.

Lemma rne_Z k : rne (inject_Z k) = k.
Proof.
  unfold rne. cbv zeta. rewrite Qfloor_Z.
  replace (Qlt_bool (inject_Z k - inject_Z k) (1 # 2)) with true; [reflexivity |].
  symmetry. apply Qlt_bool_true. lra.
Qed.

Lemma rne_mono m m' : m <= m' -> (rne m <= rne m')%Z.
Proof.
  intros H. pose proof (Qfloor_resp_le _ _ H) as Hf.
  destruct (rne_cases m) as (F1 & F2 & C). destruct (rne_cases m') as (G1 & G2 & C').
  destruct (Z.eq_dec (Qfloor m) (Qfloor m')) as [E | NE].
  - rewrite <- E in *.
    destruct C as [(-> & H1 & H2) | (-> & H1 & H2)];
      destruct C' as [(-> & K1 & K2) | (-> & K1 & K2)]; try lia.
    exfalso.
    assert (E1 : m - inject_Z (Qfloor m) == 1 # 2) by lra.
    assert (E2 : m' - inject_Z (Qfloor m) == 1 # 2) by lra.
    specialize (H2 E1). specialize (K2 E2). congruence.
  - assert ((Qfloor m + 1 <= Qfloor m')%Z) by lia.
    destruct C as [(-> & _) | (-> & _)]; destruct C' as [(-> & _) | (-> & _)]; lia.
Qed.

(** Rounding a positive number. *)

Lemma round_pos_parts x :
  0 < x ->
  let s := (expo x - 52)%Z in
  let m := x * pow2 (- s) in
  pow2 52 <= m /\ m < pow2 53
  /\ x == m * pow2 s
  /\ (2 ^ 52 <= rne m <= 2 ^ 53)%Z.
Proof.
  intros Hx. cbv zeta. destruct (expo_spec x Hx) as [S1 S2].
  set (e := expo x) in *. set (s := (e - 52)%Z).
  pose proof (pow2_pos s) as Ps. pose proof (pow2_pos (- s)) as Pn.
  pose proof (pow2_cancel s) as Pc.
  assert (A1 : pow2 52 == pow2 e * pow2 (- s)).
  { rewrite <- pow2_add. replace (e + - s)%Z with 52%Z by (unfold s; lia). reflexivity. }
  assert (A2 : pow2 53 == pow2 (e + 1) * pow2 (- s)).
  { rewrite <- pow2_add. replace (e + 1 + - s)%Z with 53%Z by (unfold s; lia). reflexivity. }
  assert (M1 : pow2 52 <= x * pow2 (- s)).
  { rewrite A1. apply Qmult_le_compat_r; lra. }
  assert (M2 : x * pow2 (- s) < pow2 53).
  { rewrite A2. apply Qmult_lt_compat_r; lra. }
  split; [exact M1 |]. split; [exact M2 |].
  split; [rewrite <- Qmult_assoc, (Qmult_comm (pow2 (- s))), Pc; ring |].
  split.
  - rewrite <- (rne_Z (2 ^ 52)). apply rne_mono. rewrite <- pow2_Z by lia. exact M1.
  - rewrite <- (rne_Z (2 ^ 53)). apply rne_mono. rewrite <- pow2_Z by lia. lra.
Qed.

Lemma round_pos_bounds x :
  0 < x -> pow2 (expo x) <= round_pos x /\ round_pos x <= pow2 (expo x + 1).
Proof.
  intros Hx. destruct (round_pos_parts x Hx) as (_ & _ & _ & R1 & R2).
  unfold round_pos. cbv zeta in *.
  set (s := (expo x - 52)%Z) in *. set (r := rne (x * pow2 (- s))) in *.
  pose proof (pow2_pos s) as Ps.
  assert (A1 : pow2 (expo x) == pow2 52 * pow2 s).
  { rewrite <- pow2_add. replace (52 + s)%Z with (expo x) by (unfold s; lia). reflexivity. }
  assert (A2 : pow2 (expo x + 1) == pow2 53 * pow2 s).
  { rewrite <- pow2_add. replace (53 + s)%Z with (expo x + 1)%Z by (unfold s; lia).
    reflexivity. }
  rewrite A1, A2, !pow2_Z by lia. split; apply Qmult_le_compat_r; try lra.
  - rewrite Zle_Qle in R1. exact R1.
  - rewrite Zle_Qle in R2. exact R2.
Qed.

Lemma round_pos_err x :
  0 < x ->
  x - x * pow2 (- 53) <= round_pos x /\ round_pos x <= x + x * pow2 (- 53).
Proof.
  intros Hx. destruct (round_pos_parts x Hx) as (M1 & _ & Ex & _).
  destruct (expo_spec x Hx) as [S1 _].
  unfold round_pos. cbv zeta in *.
  set (s := (expo x - 52)%Z) in *. set (m := x * pow2 (- s)) in *.
  destruct (rne_near m) as [N1 N2]. pose proof (pow2_pos s) as Ps.
  assert (H : (1 # 2) * pow2 s <= x * pow2 (- 53)).
  { assert (A : (1 # 2) * pow2 s == pow2 (expo x) * pow2 (- 53)).
    { rewrite <- pow2_add. replace (expo x + - 53)%Z with (s + - 1)%Z by (unfold s; lia).
      rewrite pow2_add. change (pow2 (- 1)) with (1 # 2). ring. }
    rewrite A. apply Qmult_le_compat_r; [exact S1 |]. pose proof (pow2_pos (- 53)). lra. }
  assert (L : (m - (1 # 2)) * pow2 s <= inject_Z (rne m) * pow2 s)
    by (apply Qmult_le_compat_r; lra).
  assert (U : inject_Z (rne m) * pow2 s <= (m + (1 # 2)) * pow2 s)
    by (apply Qmult_le_compat_r; lra).
  set (r := inject_Z (rne m) * pow2 s) in *. set (h := (1 # 2) * pow2 s) in *.
  assert (L' : m * pow2 s - h <= r) by (unfold h; lra).
  assert (U' : r <= m * pow2 s + h) by (unfold h; lra).
  clearbody r h. split; lra.
Qed.

Lemma round_pos_comp x y : 0 < x -> x == y -> round_pos x == round_pos y.
Proof.
  intros Hx E. unfold round_pos. cbv zeta. rewrite <- (expo_comp x y Hx E).
  rewrite (rne_comp (x * pow2 (- (expo x - 52))) (y * pow2 (- (expo x - 52))))
    by (apply Qmult_comp; [exact E | reflexivity]).
  reflexivity.
Qed.

Lemma round_pos_mono x y : 0 < x -> x <= y -> round_pos x <= round_pos y.
Proof.
  intros Hx Hxy. pose proof (expo_mono x y Hx Hxy) as He.
  destruct (Z.eq_dec (expo x) (expo y)) as [E | NE].
  - unfold round_pos. cbv zeta. rewrite <- E.
    pose proof (pow2_pos (expo x - 52)).
    apply Qmult_le_compat_r; [| lra]. rewrite <- Zle_Qle. apply rne_mono.
    apply Qmult_le_compat_r; [exact Hxy |]. pose proof (pow2_pos (- (expo x - 52))). lra.
  - destruct (round_pos_bounds x Hx) as [_ B1].
    destruct (round_pos_bounds y ltac:(lra)) as [B2 _].
    assert (pow2 (expo x + 1) <= pow2 (expo y)) by (apply pow2_le; lia). lra.
Qed.

Lemma round_pos_grid j x : 0 < x -> grid j x -> round_pos x == x.
Proof.
  intros Hx ((k & Ek) & _ & Hub). destruct (round_pos_parts x Hx) as (M1 & _ & Ex & _).
  unfold round_pos. cbv zeta in *.
  set (s := (expo x - 52)%Z) in *. set (m := x * pow2 (- s)) in *.
  pose proof (pow2_pos j) as Pj. pose proof (pow2_pos s) as Ps.
  assert (Hkpos : 0 < inject_Z k).
  { apply Qnot_le_lt. intros Hc.
    assert (inject_Z k * pow2 j <= 0 * pow2 j) by (apply Qmult_le_compat_r; lra). lra. }
  assert (Hk53 : inject_Z k < pow2 53).
  { apply Qnot_le_lt. intros Hc.
    assert (pow2 53 * pow2 j <= inject_Z k * pow2 j) by (apply Qmult_le_compat_r; lra).
    rewrite <- pow2_add in H. lra. }
  assert (Em : m == inject_Z k * pow2 (j - s)).
  { unfold m. rewrite Ek. replace (j - s)%Z with (j + - s)%Z by lia.
    rewrite pow2_add. ring. }
  assert (Hjs : (0 <= j - s)%Z).
  { destruct (Z.le_gt_cases 0 (j - s)) as [H | H]; [exact H | exfalso].
    assert (P : pow2 (j - s) <= pow2 (- 1)) by (apply pow2_le; lia).
    change (pow2 (- 1)) with (1 # 2) in P.
    assert (inject_Z k * pow2 (j - s) <= inject_Z k * (1 # 2))
      by (apply Qmult_le_l; [exact Hkpos | exact P]).
    assert (P1 : pow2 53 == 2 * pow2 52) by (apply (pow2_succ 52)).
    lra. }
  assert (Em' : m == inject_Z (k * 2 ^ (j - s))).
  { rewrite Em, inject_Z_mult, <- pow2_Z by exact Hjs. reflexivity. }
  rewrite (rne_comp _ _ Em'), rne_Z, <- Em'. symmetry. exact Ex.
Qed.

(** The sign of a rational and of its numerator. *)

Lemma Qnum_pos x p : Qnum x = Zpos p -> 0 < x.
Proof. destruct x as [n d]. simpl. intros ->. reflexivity. Qed.

Lemma Qnum_neg x p : Qnum x = Zneg p -> x < 0.
Proof. destruct x as [n d]. simpl. intros ->. reflexivity. Qed.

Lemma Qnum_zero x : Qnum x = 0%Z -> x == 0.
Proof. destruct x as [n d]. simpl. intros ->. reflexivity. Qed.

Lemma round64_pos x : 0 < x -> round64 x = round_pos x.
Proof.
  intros H. unfold round64. destruct (Qnum x) eqn:E; [| reflexivity |].
  - apply Qnum_zero in E. lra.
  - apply Qnum_neg in E. lra.
Qed.

Lemma round64_neg x : x < 0 -> round64 x = - round_pos (- x).
Proof.
  intros H. unfold round64. destruct (Qnum x) eqn:E; [| | reflexivity].
  - apply Qnum_zero in E. lra.
  - apply Qnum_pos in E. lra.
Qed.

Lemma round64_zero x : x == 0 -> round64 x = 0.
Proof.
  intros H. unfold round64. destruct (Qnum x) eqn:E; [reflexivity | |].
  - apply Qnum_pos in E. lra.
  - apply Qnum_neg in E. lra.
Qed.

Lemma round_pos_positive x : 0 < x -> 0 < round_pos x.
Proof.
  intros H. destruct (round_pos_bounds x H) as [B _]. pose proof (pow2_pos (expo x)). lra.
Qed.

Lemma round64_comp x y : x == y -> round64 x == round64 y.
Proof.
  intros E. destruct (Q_dec x 0) as [[H | H] | H].
  - rewrite (round64_neg x H), (round64_neg y) by lra.
    rewrite (round_pos_comp (- x) (- y)) by lra. reflexivity.
  - rewrite (round64_pos x H), (round64_pos y) by lra. apply round_pos_comp; assumption.
  - rewrite (round64_zero x H), (round64_zero y) by lra. reflexivity.
Qed.

Lemma round64_mono x y : x <= y -> round64 x <= round64 y.
Proof.
  intros Hxy. destruct (Q_dec x 0) as [[Hx | Hx] | Hx]; destruct (Q_dec y 0) as [[Hy | Hy] | Hy];
    try lra.
  - rewrite (round64_neg x Hx), (round64_neg y Hy).
    pose proof (round_pos_mono (- y) (- x) ltac:(lra) ltac:(lra)). lra.
  - rewrite (round64_neg x Hx), (round64_pos y Hy).
    pose proof (round_pos_positive (- x) ltac:(lra)). pose proof (round_pos_positive y Hy). lra.
  - rewrite (round64_neg x Hx), (round64_zero y Hy).
    pose proof (round_pos_positive (- x) ltac:(lra)). lra.
  - rewrite (round64_pos x Hx), (round64_pos y Hy). apply round_pos_mono; assumption.
  - rewrite (round64_zero x Hx), (round64_pos y Hy).
    pose proof (round_pos_positive y Hy). lra.
  - rewrite (round64_zero x Hx), (round64_zero y Hy). lra.
Qed.

Lemma round64_nonneg x : 0 <= x -> 0 <= round64 x.
Proof. intros H. apply (round64_mono 0 x H). Qed.

Lemma round64_nonpos x : x <= 0 -> round64 x <= 0.
Proof. intros H. apply (round64_mono x 0 H). Qed.

Lemma grid_comp j x y : x == y -> grid j x -> grid j y.
Proof.
  intros E ((k & Ek) & H1 & H2). split; [exists k; rewrite <- E; exact Ek | split; lra].
Qed.

Lemma grid_opp j x : grid j x -> grid j (- x).
Proof.
  intros ((k & Ek) & H1 & H2). split; [| split; lra].
  exists (- k)%Z. rewrite inject_Z_opp, Ek. ring.
Qed.

Lemma grid_zero j : grid j 0.
Proof.
  pose proof (pow2_pos (53 + j)). split; [exists 0%Z; change (inject_Z 0) with 0; ring |].
  split; lra.
Qed.

(** A difference that stays between 0 and its first term is on the grid. *)
Lemma grid_sub j a b : grid j a -> grid j b -> 0 <= b -> b <= a -> grid j (a - b).
Proof.
  intros ((ka & Ea) & A1 & A2) ((kb & Eb) & _) H0 Hle. pose proof (pow2_pos (53 + j)).
  split; [| split; lra]. exists (ka - kb)%Z.
  unfold Zminus. rewrite inject_Z_plus, inject_Z_opp, Ea, Eb. ring.
Qed.

(** A sum of non-negative terms below a grid value is on the grid. *)
Lemma grid_add j a b c :
  grid j a -> grid j b -> grid j c -> 0 <= a -> 0 <= b -> a + b <= c -> grid j (a + b).
Proof.
  intros ((ka & Ea) & _) ((kb & Eb) & _) (_ & _ & C2) Ha Hb Hle. pose proof (pow2_pos (53 + j)).
  split; [| split; lra]. exists (ka + kb)%Z. rewrite inject_Z_plus, Ea, Eb. ring.
Qed.

(** A value on a grid is a double. *)
Lemma round64_grid j x : grid j x -> round64 x == x.
Proof.
  intros G. destruct (Q_dec x 0) as [[H | H] | H].
  - rewrite (round64_neg x H).
    rewrite (round_pos_grid j (- x) ltac:(lra) (grid_opp j x G)). ring.
  - rewrite (round64_pos x H). apply (round_pos_grid j); assumption.
  - rewrite (round64_zero x H). lra.
Qed.

(** Rounding loses at most the fraction [2^-53] of a non-negative number. *)
Lemma round64_lower x : 0 <= x -> x - x * pow2 (- 53) <= round64 x.
Proof.
  intros H. destruct (Qle_lt_or_eq _ _ H) as [Hp | Hz].
  - rewrite (round64_pos x Hp). apply round_pos_err. exact Hp.
  - rewrite (round64_zero x) by lra. rewrite <- Hz. lra.
Qed.

(** ** The replay keeps every entry within bounds *)

Section EntryInvariant.
Variable prs : gmap string string.
Variable P : CostBasis -> Prop.
Variable G : Trade -> Prop.
Hypothesis P_empty : P emptyCostBasis.
Hypothesis P_buy : forall cb t, G t -> P cb -> P (applyBuy cb t).
Hypothesis P_sell : forall cb t, G t -> P cb -> P (applySell cb t).

Lemma current_ok cbs a : entries_ok P cbs -> P (current cbs a).
Proof.
  intros H. unfold current. destruct (Obj.get cbs a) eqn:E; [eapply H; exact E | exact P_empty].
Qed.

Lemma ensure_ok cbs a : entries_ok P cbs -> entries_ok P (ensure cbs a).
Proof.
  intros H b cb. unfold ensure. destruct (Obj.get cbs a) eqn:E; [apply H |].
  destruct (String.eqb_spec a b) as [-> | Hne].
  - rewrite get_set_same. intros [= <-]. exact P_empty.
  - rewrite get_set_other by exact Hne. apply H.
Qed.

Lemma set_ok cbs a cb : entries_ok P cbs -> P cb -> entries_ok P (Obj.set cbs a cb).
Proof.
  intros H Hcb b cb'. destruct (String.eqb_spec a b) as [-> | Hne].
  - rewrite get_set_same. intros [= <-]. exact Hcb.
  - rewrite get_set_other by exact Hne. apply H.
Qed.

Lemma replayTrade_ok cbs t : G t -> entries_ok P cbs -> entries_ok P (replayTrade prs cbs t).
Proof.
  intros Hg H. rewrite replayTrade_eq. cbv zeta.
  destruct (String.eqb (type t) "buy").
  - apply set_ok; [apply ensure_ok; exact H | apply P_buy; [exact Hg | apply current_ok; exact H]].
  - destruct (String.eqb (type t) "sell").
    + apply set_ok; [apply ensure_ok; exact H |].
      apply P_sell; [exact Hg | apply current_ok; exact H].
    + apply ensure_ok. exact H.
Qed.

Lemma fold_replay_ok ts cbs :
  Forall G ts -> entries_ok P cbs -> entries_ok P (fold_left (replayTrade prs) ts cbs).
Proof.
  intros Hts. revert cbs. induction Hts as [| t ts Ht _ IH]; intros cbs H; simpl; [exact H |].
  apply IH. apply replayTrade_ok; assumption.
Qed.

Lemma replay_ok ledger :
  Forall G (Obj.values ledger) -> entries_ok P (replay prs ledger).
Proof.
  intros H. unfold replay. apply fold_replay_ok.
  - eapply Permutation_Forall; [apply stable_sort_perm | exact H].
  - intros a cb. discriminate.
Qed.

End EntryInvariant.

(** *** Lots and matched amounts *)

Lemma fifoBody_bounds st :
  fifo_guard st = true ->
  Forall lot_ok (f_lots st) ->
  Forall lot_ok (f_lots (fifoBody st))
  /\ 0 <= f_remaining (fifoBody st)
  /\ f_amountMatched st <= f_amountMatched (fifoBody st)
  /\ f_remaining (fifoBody st) + f_amountMatched (fifoBody st)
     == f_remaining st + f_amountMatched st.
Proof.
  unfold fifo_guard, fifoBody. intros G Hl. apply andb_true_iff in G.
  destruct G as [Gr Gl]. apply Qlt_bool_true in Gr.
  destruct (f_lots st) as [| lot rest] eqn:L; [discriminate |]. simpl.
  inversion Hl as [| ? ? [Hpos Hle] Hrest]; subst.
  set (used := Qmin (f_remaining st) (lot_remaining lot)).
  assert (Hu : 0 < used /\ used <= f_remaining st /\ used <= lot_remaining lot).
  { unfold used.
    destruct (Q.min_spec (f_remaining st) (lot_remaining lot)) as [[H1 H2] | [H1 H2]];
      lra. }
  destruct Hu as (U1 & U2 & U3).
  split; [| repeat split; lra].
  destruct (Qle_bool (lot_remaining lot - used) 0) eqn:E; [exact Hrest |].
  apply Qle_bool_false in E. constructor; [| exact Hrest].
  unfold lot_ok; simpl. lra.
Qed.

Lemma fifoLoop_bounds fuel st :
  Forall lot_ok (f_lots st) -> 0 <= f_remaining st ->
  Forall lot_ok (f_lots (fifoLoop fuel st))
  /\ 0 <= f_remaining (fifoLoop fuel st)
  /\ f_amountMatched st <= f_amountMatched (fifoLoop fuel st)
  /\ f_remaining (fifoLoop fuel st) + f_amountMatched (fifoLoop fuel st)
     == f_remaining st + f_amountMatched st.
Proof.
  revert st. induction fuel as [| fuel IH]; intros st Hl Hr; simpl.
  - repeat split; try assumption; lra.
  - destruct (fifo_guard st) eqn:G; [| repeat split; try assumption; lra].
    destruct (fifoBody_bounds st G Hl) as (B1 & B2 & B3 & B4).
    destruct (IH (fifoBody st) B1 B2) as (I1 & I2 & I3 & I4).
    repeat split; try assumption; lra.
Qed.

Lemma applyBuy_bounds cb t : 0 < vol t -> bounds_ok cb -> bounds_ok (applyBuy cb t).
Proof.
  intros Hv [Hl Hm]. split; simpl; [| exact Hm].
  apply Forall_app. split; [exact Hl |].
  constructor; [| constructor]. unfold lot_ok; simpl. lra.
Qed.

Lemma applySell_bounds cb t : 0 < vol t -> bounds_ok cb -> bounds_ok (applySell cb t).
Proof.
  intros Hv [Hl Hm].
  destruct (fifoLoop_bounds (length (lots cb))
              {| f_remaining := vol t; f_costBasisUsed := 0; f_amountMatched := 0;
                 f_lots := lots cb |} Hl ltac:(simpl; lra)) as (B1 & B2 & B3 & B4).
  fold (fifoMatch (vol t) (lots cb)) in B1, B2, B3, B4. simpl in B3, B4.
  split; unfold applySell; cbv zeta; cbn [lots completedTrades]; [exact B1 |].
  apply Forall_app. split; [exact Hm |].
  constructor; [| constructor]. unfold matched_ok; simpl. lra.
Qed.

Lemma rebuild_bounds w asset :
  Forall (fun t => 0 < vol t) (ledgerTrades w) ->
  bounds_ok (current (costBasis (buildCostBasis w)) asset).
Proof.
  intros H. apply (current_ok bounds_ok).
  - split; constructor.
  - change (costBasis (buildCostBasis w))
      with (replay (pairs w) (trades (fullTradeHistory w))).
    apply (replay_ok (pairs w) bounds_ok (fun t => 0 < vol t)).
    + split; constructor.
    + apply applyBuy_bounds.
    + apply applySell_bounds.
    + exact H.
Qed.

(** X1.  When every trade of the ledger has a positive volume, every
    lot that survives the rebuild holds a positive rest of at most its
    original amount. *)
Theorem rebuild_lots_within_bounds (w : World) (asset : string) :
  Forall (fun t => 0 < vol t) (ledgerTrades w) ->
  Forall lot_ok (lots (current (costBasis (buildCostBasis w)) asset)).
Proof. intros H. apply (rebuild_bounds w asset H). Qed.

Lemma scenarioA_volumes : Forall (fun t => 0 < vol t) (ledgerTrades scenarioA_world).
Proof. repeat constructor. Qed.

Lemma rebuild_lots_within_bounds_witness :
  Forall lot_ok (lots (current (costBasis (buildCostBasis scenarioA_world)) "XXBT")).
Proof. apply (rebuild_lots_within_bounds scenarioA_world "XXBT" scenarioA_volumes). Defined.

(** *** Realized P&L and the trade log *)

Lemma sum_pnl_app c1 c2 : sum_pnl (c1 ++ c2) == sum_pnl c1 + sum_pnl c2.
Proof.
  induction c1 as [| c c1 IH]; simpl; [lra |].
  change (fold_right _ 0 (c1 ++ c2)) with (sum_pnl (c1 ++ c2)).
  change (fold_right _ 0 c1) with (sum_pnl c1). lra.
Qed.

Lemma applySell_balanced cb t : pnl_balanced cb -> pnl_balanced (applySell cb t).
Proof.
  unfold pnl_balanced, applySell. cbv zeta. cbn [realizedPnL completedTrades]. intros H.
  match goal with
  | |- context [sum_pnl (?c ++ [?x])] => pose proof (sum_pnl_app c [x]) as A
  end.
  simpl in A.
  destruct (Qlt_bool 0 (f_amountMatched (fifoMatch (vol t) (lots cb)))); lra.
Qed.

(** X3.  After the rebuild the realized P&L of every asset is the sum
    of the P&L of its logged completed trades: a sell that matched
    nothing adds to neither. *)
Theorem rebuild_realized_is_logged (w : World) (asset : string) :
  pnl_balanced (current (costBasis (buildCostBasis w)) asset).
Proof.
  apply (current_ok pnl_balanced); [unfold pnl_balanced; simpl; lra |].
  change (costBasis (buildCostBasis w))
    with (replay (pairs w) (trades (fullTradeHistory w))).
  apply (replay_ok (pairs w) pnl_balanced (fun _ => True)).
  - unfold pnl_balanced; simpl; lra.
  - intros cb t _ H. exact H.
  - intros cb t _ H. apply applySell_balanced. exact H.
  - apply Forall_forall. intros; exact I.
Qed.

(** *** Totals of an asset *)

Section Additive.
Variable prs : gmap string string.
Variable mu : CostBasis -> Q.
Variables onBuy onSell : Trade -> Q.
Hypothesis mu_empty : mu emptyCostBasis == 0.
Hypothesis mu_buy : forall cb t, mu (applyBuy cb t) == mu cb + onBuy t.
Hypothesis mu_sell : forall cb t, mu (applySell cb t) == mu cb + onSell t.

Lemma mu_ensure cbs a b : mu (current (ensure cbs a) b) == mu (current cbs b).
Proof.
  destruct (String.eqb_spec a b) as [-> | Hne].
  - rewrite current_ensure. lra.
  - unfold current. rewrite ensure_get_other by exact Hne. lra.
Qed.

Lemma mu_set_other cbs a b cb : a <> b -> mu (current (Obj.set cbs a cb) b) = mu (current cbs b).
Proof. intros Hne. unfold current. rewrite get_set_other by exact Hne. reflexivity. Qed.

Lemma replayTrade_adds cbs t a :
  mu (current (replayTrade prs cbs t) a)
  == mu (current cbs a) + sideSum "buy" onBuy prs a [t] + sideSum "sell" onSell prs a [t].
Proof.
  rewrite replayTrade_eq. cbv zeta. unfold sideSum; simpl.
  set (asset := getAssetFromPair prs (pair t)).
  pose proof (mu_ensure cbs asset a) as He.
  destruct (String.eqb_spec asset a) as [-> | Hne].
  - rewrite !andb_true_r.
    destruct (String.eqb_spec (type t) "buy") as [Eb | Nb].
    + rewrite current_set. rewrite Eb. simpl. pose proof (mu_buy (current cbs a) t). lra.
    + destruct (String.eqb (type t) "sell").
      * rewrite current_set. pose proof (mu_sell (current cbs a) t). lra.
      * lra.
  - rewrite !andb_false_r.
    destruct (String.eqb (type t) "buy"); [rewrite mu_set_other by exact Hne; lra |].
    destruct (String.eqb (type t) "sell"); [rewrite mu_set_other by exact Hne; lra |].
    lra.
Qed.

Lemma sideSum_app side f a ts1 ts2 :
  sideSum side f prs a (ts1 ++ ts2) == sideSum side f prs a ts1 + sideSum side f prs a ts2.
Proof.
  induction ts1 as [| t ts1 IH]; simpl; [lra |].
  change (fold_right _ 0 (ts1 ++ ts2)) with (sideSum side f prs a (ts1 ++ ts2)).
  change (fold_right _ 0 ts1) with (sideSum side f prs a ts1).
  destruct (_ && _); lra.
Qed.

Lemma sideSum_perm side f a ts1 ts2 :
  Permutation ts1 ts2 -> sideSum side f prs a ts1 == sideSum side f prs a ts2.
Proof.
  induction 1 as [| t l l' _ IH | t1 t2 l | l1 l2 l3 _ IH1 _ IH2].
  - reflexivity.
  - change (t :: l) with ([t] ++ l). change (t :: l') with ([t] ++ l').
    pose proof (sideSum_app side f a [t] l). pose proof (sideSum_app side f a [t] l'). lra.
  - change (t2 :: t1 :: l) with ([t2] ++ [t1] ++ l).
    change (t1 :: t2 :: l) with ([t1] ++ [t2] ++ l).
    pose proof (sideSum_app side f a [t2] ([t1] ++ l)).
    pose proof (sideSum_app side f a [t1] ([t2] ++ l)).
    pose proof (sideSum_app side f a [t1] l). pose proof (sideSum_app side f a [t2] l). lra.
  - lra.
Qed.

Lemma fold_replay_adds ts cbs a :
  mu (current (fold_left (replayTrade prs) ts cbs) a)
  == mu (current cbs a) + sideSum "buy" onBuy prs a ts + sideSum "sell" onSell prs a ts.
Proof.
  revert cbs. induction ts as [| t ts IH]; intros cbs; [simpl; lra |].
  cbn [fold_left]. pose proof (IH (replayTrade prs cbs t)) as H1.
  pose proof (replayTrade_adds cbs t a) as H2.
  pose proof (sideSum_app "buy" onBuy a [t] ts) as H3.
  pose proof (sideSum_app "sell" onSell a [t] ts) as H4.
  change ([t] ++ ts) with (t :: ts) in H3, H4. lra.
Qed.

Lemma replay_adds ledger a :
  mu (current (replay prs ledger) a)
  == sideSum "buy" onBuy prs a (Obj.values ledger)
     + sideSum "sell" onSell prs a (Obj.values ledger).
Proof.
  unfold replay.
  pose proof (fold_replay_adds (stable_sort by_time_asc (Obj.values ledger)) [] a) as H.
  pose proof (sideSum_perm "buy" onBuy a _ _ (stable_sort_perm by_time_asc (Obj.values ledger))).
  pose proof (sideSum_perm "sell" onSell a _ _ (stable_sort_perm by_time_asc (Obj.values ledger))).
  change (mu (current [] a)) with (mu emptyCostBasis) in H. lra.
Qed.

End Additive.


(** *** First in, first out *)

Lemma ordered_snoc (l : list Q) (x : Q) :
  ordered Qle_bool l -> Forall (fun t => t <= x) l -> ordered Qle_bool (l ++ [x]).
Proof.
  induction l as [| a l IH]; intros Ho Hf; [simpl; auto |].
  destruct Ho as [Ha Ho]. inversion Hf as [| ? ? Hax Hf']; subst.
  cbn [app ordered]. split; [| apply IH; assumption].
  destruct l as [| b l]; [simpl; apply Qle_bool_iff; exact Hax | exact Ha].
Qed.

Lemma Forall_le_weaken (l : list Q) (lo hi : Q) :
  lo <= hi -> Forall (fun t => t <= lo) l -> Forall (fun t => t <= hi) l.
Proof. intros Hle H. eapply List.Forall_impl; [| exact H]. simpl. intros; lra. Qed.

Lemma timed_ok_weaken lo hi cb : lo <= hi -> timed_ok lo cb -> timed_ok hi cb.
Proof.
  intros Hle (H1 & H2 & H3 & H4).
  repeat split; try assumption; eapply Forall_le_weaken; eassumption.
Qed.

Lemma fifoBody_times (tmax : Q) st :
  ordered Qle_bool (map lot_time (f_lots st)) ->
  Forall (fun t => t <= tmax) (map lot_time (f_lots st)) ->
  ordered Qle_bool (map lot_time (f_lots (fifoBody st)))
  /\ Forall (fun t => t <= tmax) (map lot_time (f_lots (fifoBody st))).
Proof.
  intros Ho Hf. unfold fifoBody.
  destruct (f_lots st) as [| lot rest] eqn:L; [rewrite L; split; assumption |].
  cbv zeta. cbn [f_lots lot_remaining].
  destruct (Qle_bool _ 0).
  - split; [exact (proj2 Ho) | inversion Hf; assumption].
  - split; assumption.
Qed.

Lemma fifoLoop_times (tmax : Q) fuel st :
  ordered Qle_bool (map lot_time (f_lots st)) ->
  Forall (fun t => t <= tmax) (map lot_time (f_lots st)) ->
  ordered Qle_bool (map lot_time (f_lots (fifoLoop fuel st)))
  /\ Forall (fun t => t <= tmax) (map lot_time (f_lots (fifoLoop fuel st))).
Proof.
  revert st. induction fuel as [| fuel IH]; intros st Ho Hf; simpl; [auto |].
  destruct (fifo_guard st); [| auto].
  destruct (fifoBody_times tmax st Ho Hf) as [B1 B2]. apply IH; assumption.
Qed.

Lemma applyBuy_timed lo cb t : lo <= time t -> timed_ok lo cb -> timed_ok (time t) (applyBuy cb t).
Proof.
  intros Hle (H1 & H2 & H3 & H4). unfold timed_ok, lotTimes, sellTimes, applyBuy.
  cbn [lots completedTrades]. rewrite map_app. cbn [map lot_time].
  split; [apply ordered_snoc; [exact H1 | eapply Forall_le_weaken; eassumption] |].
  split; [apply Forall_app; split;
          [eapply Forall_le_weaken; eassumption | constructor; [lra | constructor]] |].
  split; [exact H3 | eapply Forall_le_weaken; eassumption].
Qed.

Lemma applySell_timed lo cb t :
  lo <= time t -> timed_ok lo cb -> timed_ok (time t) (applySell cb t).
Proof.
  intros Hle (H1 & H2 & H3 & H4).
  destruct (fifoLoop_times lo (length (lots cb))
              {| f_remaining := vol t; f_costBasisUsed := 0; f_amountMatched := 0;
                 f_lots := lots cb |} H1 H2) as [B1 B2].
  fold (fifoMatch (vol t) (lots cb)) in B1, B2.
  unfold timed_ok, lotTimes, sellTimes, applySell. cbv zeta.
  cbn [lots completedTrades]. rewrite map_app. cbn [map sellTime].
  split; [exact B1 |].
  split; [eapply Forall_le_weaken; eassumption |].
  split; [apply ordered_snoc; [exact H3 | eapply Forall_le_weaken; eassumption] |].
  apply Forall_app; split;
    [eapply Forall_le_weaken; eassumption | constructor; [lra | constructor]].
Qed.

Lemma entries_weaken lo hi cbs :
  lo <= hi -> entries_ok (timed_ok lo) cbs -> entries_ok (timed_ok hi) cbs.
Proof. intros Hle H a cb E. eapply timed_ok_weaken; [exact Hle | eapply H; exact E]. Qed.

Lemma timed_empty lo : timed_ok lo emptyCostBasis.
Proof. repeat split; constructor. Qed.

Lemma replayTrade_timed prs lo cbs t :
  lo <= time t -> entries_ok (timed_ok lo) cbs ->
  entries_ok (timed_ok (time t)) (replayTrade prs cbs t).
Proof.
  intros Hle H.
  apply (replayTrade_ok prs (timed_ok (time t)) (fun t' => time t' == time t)).
  - apply timed_empty.
  - intros cb t' E Hcb. eapply timed_ok_weaken with (lo := time t'); [lra |].
    apply (applyBuy_timed (time t)); [lra | exact Hcb].
  - intros cb t' E Hcb. eapply timed_ok_weaken with (lo := time t'); [lra |].
    apply (applySell_timed (time t)); [lra | exact Hcb].
  - simpl; lra.
  - exact (entries_weaken lo (time t) cbs Hle H).
Qed.

Lemma sorted_head_le (t : Trade) (ts : list Trade) :
  ordered by_time_asc (t :: ts) -> Forall (fun t' => time t <= time t') ts.
Proof.
  revert t. induction ts as [| u ts IH]; intros t [Ht Ho]; constructor.
  - apply Qle_bool_iff. exact Ht.
  - apply Qle_bool_iff in Ht. eapply List.Forall_impl; [| apply IH; exact Ho].
    simpl. intros; lra.
Qed.

Lemma fold_replay_timed prs ts : forall lo cbs,
  ordered by_time_asc ts -> Forall (fun t => lo <= time t) ts ->
  entries_ok (timed_ok lo) cbs ->
  exists hi, entries_ok (timed_ok hi) (fold_left (replayTrade prs) ts cbs).
Proof.
  induction ts as [| t ts IH]; intros lo cbs Ho Hf H; [exists lo; exact H |].
  cbn [fold_left]. inversion Hf as [| ? ? Hlo _]; subst.
  apply (IH (time t)).
  - exact (proj2 Ho).
  - apply sorted_head_le. exact Ho.
  - apply (replayTrade_timed prs lo); assumption.
Qed.

Lemma by_time_asc_total a b : by_time_asc a b = true \/ by_time_asc b a = true.
Proof.
  unfold by_time_asc. destruct (Qlt_le_dec (time b) (time a)) as [H | H].
  - right. apply Qle_bool_iff. lra.
  - left. apply Qle_bool_iff. exact H.
Qed.


(** ** The head of a sorted list *)

Section TopFacts.
Context {A : Type} (le : A -> A -> bool).
Hypothesis le_total : forall a b, le a b = true \/ le b a = true.
Hypothesis le_trans : forall a b c, le a b = true -> le b c = true -> le a c = true.

Lemma ordered_head x l : ordered le (x :: l) -> Forall (fun y => le x y = true) l.
Proof.
  revert x. induction l as [| y l IH]; intros x [Hx Ho]; constructor; [exact Hx |].
  eapply List.Forall_impl; [| apply IH; exact Ho].
  simpl. intros z Hz. exact (le_trans x y z Hx Hz).
Qed.

Lemma ordered_firstn k l : ordered le l -> ordered le (firstn k l).
Proof.
  revert l. induction k as [| k IH]; intros [| x l] Ho; try exact I.
  destruct Ho as [Hx Ho]. cbn [firstn]. split; [| apply IH; exact Ho].
  destruct l as [| y l]; [destruct k; exact I |].
  destruct k; [exact I | exact Hx].
Qed.

Lemma skipn_In k (l : list A) b : In b (skipn k l) -> In b l.
Proof.
  revert l. induction k as [| k IH]; intros [| x l] H; try exact H.
  right. apply IH. exact H.
Qed.

Lemma ordered_cut k l a b :
  ordered le l -> In a (firstn k l) -> In b (skipn k l) -> le a b = true.
Proof.
  revert l. induction k as [| k IH]; intros [| x l] Ho Ha Hb; try contradiction.
  cbn [firstn skipn] in Ha, Hb. destruct Ha as [<- | Ha].
  - pose proof (ordered_head x l Ho) as Hh. rewrite List.Forall_forall in Hh.
    apply Hh. eapply skipn_In. exact Hb.
  - apply (IH l); [exact (proj2 Ho) | exact Ha | exact Hb].
Qed.

(** The first [k] of the sorted list: as many as there are, in order,
    and none of the others comes before any of them. *)
Lemma top_of_sorted k l :
  let top := firstn k (stable_sort le l) in
  let rest := skipn k (stable_sort le l) in
  length top = Nat.min k (length l)
  /\ ordered le top
  /\ Permutation l (top ++ rest)
  /\ forall a b, In a top -> In b rest -> le a b = true.
Proof.
  cbv zeta. pose proof (stable_sort_ordered le le_total l) as Ho.
  split; [rewrite length_firstn, <- (Permutation_length (stable_sort_perm le l)); reflexivity |].
  split; [apply ordered_firstn; exact Ho |].
  split; [rewrite firstn_skipn; apply stable_sort_perm |].
  intros a b. apply ordered_cut. exact Ho.
Qed.

End TopFacts.

(** ** The analytics summary *)

Lemma by_sellTime_desc_total a b : by_sellTime_desc a b = true \/ by_sellTime_desc b a = true.
Proof.
  unfold by_sellTime_desc. destruct (Qlt_le_dec (act_sellTime b) (act_sellTime a)) as [H | H].
  - left. apply Qle_bool_iff. lra.
  - right. apply Qle_bool_iff. exact H.
Qed.

Lemma by_sellTime_desc_trans a b c :
  by_sellTime_desc a b = true -> by_sellTime_desc b c = true -> by_sellTime_desc a c = true.
Proof.
  unfold by_sellTime_desc. rewrite !Qle_bool_iff. intros; lra.
Qed.

Lemma tally_fields now cbs :
  t_recentActivity (tally now cbs) = allCompleted cbs
  /\ wins (tally now cbs) = winCount (allCompleted cbs)
  /\ losses (tally now cbs) = lossCount (allCompleted cbs)
  /\ totalPnL (tally now cbs) = sumRealized cbs 0.
Proof.
  destruct (fold_tallyAsset now cbs tally0) as (H1 & H2 & H3 & H4 & _).
  unfold tally. rewrite H1, H2, H3, H4. repeat split.
Qed.

(** X6.  The activity list of the analytics holds the latest completed
    trades: 50 of them or all there are, latest sell first, and no
    completed trade left out was sold after one that is shown. *)
Theorem analytics_shows_latest (now : Q) (cbs : Obj.t CostBasis) :
  let shown := recentActivity (analytics now cbs) in
  length shown = Nat.min 50 (length (allCompleted cbs))
  /\ ordered by_sellTime_desc shown
  /\ exists rest,
       Permutation (allCompleted cbs) (shown ++ rest)
       /\ forall a b, In a shown -> In b rest -> act_sellTime b <= act_sellTime a.
Proof.
  cbv zeta. unfold analytics. cbn [recentActivity].
  destruct (tally_fields now cbs) as (-> & _).
  destruct (top_of_sorted by_sellTime_desc by_sellTime_desc_total by_sellTime_desc_trans
              50 (allCompleted cbs)) as (T1 & T2 & T3 & T4).
  split; [exact T1 |]. split; [exact T2 |].
  eexists. split; [exact T3 |].
  intros a b Ha Hb. apply Qle_bool_iff. exact (T4 a b Ha Hb).
Qed.

Lemma win_loss_count l : (winCount l + lossCount l = length l)%nat.
Proof.
  unfold winCount, lossCount. induction l as [| a l IH]; [reflexivity |].
  cbn [List.filter]. destruct (is_win (act_pnl a)); simpl; lia.
Qed.

Lemma Qnat_nonneg n : 0 <= Qnat n.
Proof. unfold Qnat. change 0 with (inject_Z 0). rewrite <- Zle_Qle. lia. Qed.

Lemma Qnat_plus n m : Qnat (n + m) == Qnat n + Qnat m.
Proof. unfold Qnat. rewrite Nat2Z.inj_add, inject_Z_plus. reflexivity. Qed.

Lemma Qnat_pos n : (0 < n)%nat -> 0 < Qnat n.
Proof. intros H. unfold Qnat. change 0 with (inject_Z 0). rewrite <- Zlt_Qlt. lia. Qed.

Lemma rate_bounds w l : 0 <= rate w l /\ rate w l <= 100.
Proof.
  unfold rate. destruct (0 <? w + l)%nat eqn:E; [| split; lra].
  apply Nat.ltb_lt in E. pose proof (Qnat_pos _ E) as Hp.
  pose proof (Qnat_nonneg w) as Hw. pose proof (Qnat_nonneg l) as Hl.
  pose proof (Qnat_plus w l) as Hs.
  set (q := Qnat w / Qnat (w + l)).
  assert (Hq : q * Qnat (w + l) == Qnat w) by (unfold q; field; intro; lra).
  assert (0 <= q /\ q <= 1) as [Q0 Q1].
  { split.
    - unfold q. apply Qle_shift_div_l; [exact Hp | lra].
    - unfold q. apply Qle_shift_div_r; [exact Hp | lra]. }
  clearbody q. split; lra.
Qed.

(** X7.  The summary counts every completed trade once, as a win or as
    a loss, and both win rates lie between 0 and 100. *)
Theorem analytics_counts_and_rates (now : Q) (cbs : Obj.t CostBasis) :
  let s := summary (analytics now cbs) in
  totalTrades s = length (allCompleted cbs)
  /\ (winningTrades s + losingTrades s = totalTrades s)%nat
  /\ 0 <= winRate s <= 100
  /\ 0 <= weeklyWinRate s <= 100.
Proof.
  cbv zeta. unfold analytics. cbn [summary totalTrades winningTrades losingTrades
                                    winRate weeklyWinRate].
  destruct (tally_fields now cbs) as (_ & -> & -> & _).
  split; [apply win_loss_count |]. split; [reflexivity |].
  split; apply rate_bounds.
Qed.

(** *** The realized total *)

Lemma set_keys {V : Type} (o : Obj.t V) k v :
  Obj.keys (Obj.set o k v)
  = match Obj.get o k with Some _ => Obj.keys o | None => Obj.keys o ++ [k] end.
Proof.
  induction o as [| [k' v'] o IH]; simpl; [reflexivity |].
  destruct (String.eqb_spec k k') as [-> | Hne]; simpl; [reflexivity |].
  rewrite IH. destruct (Obj.get o k); reflexivity.
Qed.

Lemma NoDup_snoc {A : Type} (l : list A) (x : A) :
  List.NoDup l -> ~ In x l -> List.NoDup (l ++ [x]).
Proof.
  induction 1 as [| y l Hy Hnd IH]; intros Hx; simpl.
  - constructor; [simpl; tauto | constructor].
  - constructor.
    + rewrite in_app_iff. simpl. intros [H | [H | []]]; [tauto |].
      apply Hx. left. symmetry. exact H.
    + apply IH. intros H. apply Hx. right. exact H.
Qed.

Lemma set_wf {V : Type} (o : Obj.t V) k v : Obj.wf o -> Obj.wf (Obj.set o k v).
Proof.
  unfold Obj.wf. rewrite set_keys. intros H. destruct (Obj.get o k) eqn:E; [exact H |].
  apply NoDup_snoc; [exact H | apply get_None_notin; exact E].
Qed.

Lemma In_get {V : Type} (o : Obj.t V) k v : Obj.wf o -> In (k, v) o -> Obj.get o k = Some v.
Proof.
  unfold Obj.wf. induction o as [| [k' v'] o IH]; simpl; [tauto |].
  intros Hnd [[= -> ->] | Hin]; [rewrite String.eqb_refl; reflexivity |].
  inversion Hnd as [| ? ? Hk' Hnd']; subst.
  destruct (String.eqb_spec k k') as [-> | _]; [| apply IH; assumption].
  exfalso. apply Hk'. apply (in_map fst) in Hin. exact Hin.
Qed.

Lemma replayTrade_wf prs cbs t : Obj.wf cbs -> Obj.wf (replayTrade prs cbs t).
Proof.
  intros H. rewrite replayTrade_eq. cbv zeta.
  assert (He : Obj.wf (ensure cbs (getAssetFromPair prs (pair t)))).
  { unfold ensure. destruct (Obj.get cbs _); [exact H | apply set_wf; exact H]. }
  destruct (String.eqb (type t) "buy"); [apply set_wf; exact He |].
  destruct (String.eqb (type t) "sell"); [apply set_wf; exact He | exact He].
Qed.

Lemma replay_wf prs ledger : Obj.wf (replay prs ledger).
Proof.
  unfold replay.
  assert (G : forall ts cbs, Obj.wf cbs -> Obj.wf (fold_left (replayTrade prs) ts cbs)).
  { induction ts as [| t ts IH]; intros cbs H; [exact H |].
    apply IH. apply replayTrade_wf. exact H. }
  apply G. constructor.
Qed.

Lemma pnlSum_toActivity asset cts : pnlSum (map (toActivity asset) cts) == sum_pnl cts.
Proof.
  induction cts as [| c cts IH]; simpl; [lra |].
  change (fold_right _ 0 (map _ cts)) with (pnlSum (map (toActivity asset) cts)).
  change (fold_right _ 0 cts) with (sum_pnl cts). lra.
Qed.

Lemma sumRealized_logged cbs z :
  Forall (fun e => pnl_balanced (snd e)) cbs ->
  sumRealized cbs z == z + pnlSum (allCompleted cbs).
Proof.
  intros H. revert z. induction H as [| [a cb] cbs Hb _ IH]; intros z; [simpl; lra |].
  unfold sumRealized in *. cbn [fold_left allCompleted flat_map fst snd].
  rewrite IH. change (flat_map _ cbs) with (allCompleted cbs).
  pose proof (pnlSum_app (map (toActivity a) (completedTrades cb)) (allCompleted cbs)).
  pose proof (pnlSum_toActivity a (completedTrades cb)). unfold pnl_balanced in Hb.
  simpl in Hb. lra.
Qed.

Lemma replay_balanced prs ledger :
  Forall (fun e => pnl_balanced (snd e)) (replay prs ledger).
Proof.
  apply List.Forall_forall. intros [a cb] Hin. simpl.
  apply (replay_ok prs pnl_balanced (fun _ => True)) with (ledger := ledger) (a := a).
  - unfold pnl_balanced; simpl; lra.
  - intros cb' t _ H. exact H.
  - intros cb' t _ H. apply applySell_balanced. exact H.
  - apply List.Forall_forall. intros; exact I.
  - apply In_get; [apply replay_wf | exact Hin].
Qed.

Lemma pnlSum_perm l1 l2 : Permutation l1 l2 -> pnlSum l1 == pnlSum l2.
Proof.
  induction 1 as [| a l l' _ IH | a b l | l1 l2 l3 _ IH1 _ IH2]; simpl.
  - lra.
  - change (fold_right _ 0 l) with (pnlSum l). change (fold_right _ 0 l') with (pnlSum l'). lra.
  - lra.
  - lra.
Qed.


(** ** More on the rate limiter *)

Lemma waitLoop_over_budget env fuel cost w :
  maxCounter (rateLimit w) < cost -> 0 <= counter (rateLimit w) ->
  waitLoop fuel env cost w = None.
Proof.
  revert w. induction fuel as [| fuel IH]; intros w Hc Hn; cbn [waitLoop].
  - replace (Qlt_bool _ _) with true; [reflexivity |].
    symmetry. apply Qlt_bool_true. lra.
  - replace (Qlt_bool _ _) with true by (symmetry; apply Qlt_bool_true; lra).
    cbv zeta. rewrite IH; [reflexivity | exact Hc | apply decay_at_nonneg].
Qed.

(** X10.  A reservation whose cost exceeds [maxCounter] is never
    granted: the wait loop cannot end, whatever time passes. *)
Theorem reserve_over_budget_never_returns (env : Env) (fuel : nat) (cost : Q) (w : World) :
  maxCounter (rateLimit w) < cost ->
  waitForRateLimit fuel env cost w = None.
Proof.
  intros Hc. unfold waitForRateLimit.
  rewrite waitLoop_over_budget; [reflexivity | exact Hc | apply decay_at_nonneg].
Qed.

Lemma reserve_over_budget_never_returns_witness :
  waitForRateLimit 100 quietEnv 16 (state0 0) = None.
Proof. apply (reserve_over_budget_never_returns quietEnv 100 16 (state0 0)). reflexivity. Defined.

(** ** The recent trades *)

Lemma by_time_desc_total a b : by_time_desc a b = true \/ by_time_desc b a = true.
Proof.
  unfold by_time_desc. destruct (Qlt_le_dec (time (snd b)) (time (snd a))) as [H | H].
  - left. apply Qle_bool_iff. lra.
  - right. apply Qle_bool_iff. exact H.
Qed.

Lemma by_time_desc_trans a b c :
  by_time_desc a b = true -> by_time_desc b c = true -> by_time_desc a c = true.
Proof. unfold by_time_desc. rewrite !Qle_bool_iff. intros; lra. Qed.

(** X13.  [updateRecentTrades(count)] leaves in [state.trades] the
    [count] latest trades of the ledger, or all when there are fewer,
    latest first: no trade left out is later than one that is kept. *)
Theorem recent_trades_are_latest (count : nat) (w : World) :
  let ledger := trades (fullTradeHistory w) in
  let kept := recentTrades (updateRecentTrades count w) in
  length kept = Nat.min count (length ledger)
  /\ ordered by_time_desc kept
  /\ exists rest,
       Permutation ledger (kept ++ rest)
       /\ forall a b, In a kept -> In b rest -> time (snd b) <= time (snd a).
Proof.
  cbv zeta. unfold updateRecentTrades. cbn [recentTrades set_recentTrades].
  destruct (top_of_sorted by_time_desc by_time_desc_total by_time_desc_trans
              count (trades (fullTradeHistory w))) as (T1 & T2 & T3 & T4).
  split; [exact T1 |]. split; [exact T2 |].
  eexists. split; [exact T3 |].
  intros a b Ha Hb. apply Qle_bool_iff. exact (T4 a b Ha Hb).
Qed.

(** ** The full backfill *)

Lemma get_app_Some {V : Type} (o1 o2 : Obj.t V) k :
  Obj.get (o1 ++ o2) k = match Obj.get o1 k with
                         | Some v => Some v
                         | None => Obj.get o2 k
                         end.
Proof.
  induction o1 as [| [k' v'] o1 IH]; simpl; [reflexivity |].
  destruct (String.eqb k k'); [reflexivity | exact IH].
Qed.

Lemma stored_get es : forall ledger id,
  Obj.get (fold_left storeEntry es ledger) id
  = match lastStored es id with
    | Some t => Some t
    | None => Obj.get ledger id
    end.
Proof.
  unfold lastStored.
  induction es as [| [k v] es IH]; intros ledger id; [reflexivity |].
  cbn [fold_left rev]. rewrite IH, get_app_Some. unfold storeEntry. cbn [fst snd].
  destruct (Obj.get (rev es) id); [reflexivity |]. simpl.
  destruct (String.eqb_spec id k) as [-> | Hne].
  - apply get_set_same.
  - apply get_set_other. congruence.
Qed.

Lemma stored_wf es : forall ledger, Obj.wf ledger -> Obj.wf (fold_left storeEntry es ledger).
Proof.
  induction es as [| e es IH]; intros ledger H; [exact H |].
  apply IH. apply set_wf. exact H.
Qed.

Lemma lastStored_In es id : In id (Obj.keys es) -> lastStored es id <> None.
Proof.
  unfold lastStored. intros Hin H. apply get_None_notin in H. apply H.
  unfold Obj.keys in *. rewrite map_rev, <- in_rev. exact Hin.
Qed.

(** X14.  Storing records one by one keeps each key once, and a lookup
    gives the record stored last under the id, or what the ledger had
    when none was stored. *)
Theorem stored_records_lookup (es ledger : Obj.t Trade) (id : string) :
  Obj.wf ledger ->
  Obj.wf (fold_left storeEntry es ledger)
  /\ Obj.get (fold_left storeEntry es ledger) id
     = match lastStored es id with
       | Some t => Some t
       | None => Obj.get ledger id
       end.
Proof. intros H. split; [apply stored_wf; exact H | apply stored_get]. Qed.

Lemma stored_records_lookup_witness :
  Obj.get (fold_left storeEntry [oldTrade; ("T-first", buyOf "XEUR" 2 2 4 3000)] page50)
    "T-first"
  = Some (buyOf "XEUR" 2 2 4 3000).
Proof.
  apply (stored_records_lookup [oldTrade; ("T-first", buyOf "XEUR" 2 2 4 3000)] page50
           "T-first" page50_wf).
Defined.

Section BackfillFacts.
Variable env : Env.

(** One turn of the backfill loop. *)
Lemma fullLoop_iter fuel n offset w w1 h :
  waitForRateLimit n env 2 w = Some (w1, h) ->
  let ledger := trades (fullTradeHistory w) in
  let es := match gateway env offset with
            | ApiError => []
            | Page page => page
            end in
  exists w3,
    requests w3 = requests w ++ [offset]
    /\ trades (fullTradeHistory w3) = fold_left storeEntry es ledger
    /\ loop_frame w w3
    /\ fullLoop (S fuel) n env offset w =
       match gateway env offset with
       | ApiError => Some w3
       | Page page =>
           if (length page =? 50)%nat then fullLoop fuel n env (offset + 50) w3
           else Some w3
       end.
Proof.
  intros E ledger es.
  destruct (waitForRateLimit_frame env _ _ _ _ _ E) as (F1 & F2 & F3 & F4 & F5 & F6 & F7).
  destruct (waitForRateLimit_spec env n 2 w w1 h ltac:(lra) E) as (_ & _ & S1 & S2 & _).
  cbn [fullLoop]. rewrite E. unfold callTradesHistory.
  set (w2 := set_clock (add_request w1 offset)
               (clock (add_request w1 offset) + apiLatency env offset)).
  assert (Hw2 : requests w2 = requests w ++ [offset]
                /\ trades (fullTradeHistory w2) = ledger
                /\ loop_frame w w2).
  { unfold w2, loop_frame, ledger; simpl. rewrite F2, F6.
    repeat split; assumption. }
  destruct Hw2 as (R2 & T2 & L2).
  subst es. destruct (gateway env offset) as [| page].
  - exists w2. split; [exact R2 |]. split; [exact T2 |]. split; [exact L2 | reflexivity].
  - exists (set_trades w2 (fold_left storeEntry page ledger)).
    split; [exact R2 |]. split; [reflexivity |].
    split; [eapply loop_frame_trans; [exact L2 |]; unfold loop_frame; simpl; repeat split |].
    rewrite T2. unfold Obj.keys. rewrite length_map. reflexivity.
Qed.

(** The loop does what the plan says. *)
Lemma fullLoop_plan fuel n offset w :
  punctual env -> limiter_ready w ->
  match fullPlan fuel env offset with
  | Some (offs, es) =>
      exists w',
        fullLoop fuel (S n) env offset w = Some w'
        /\ requests w' = requests w ++ offs
        /\ trades (fullTradeHistory w') = fold_left storeEntry es (trades (fullTradeHistory w))
        /\ loop_frame w w'
  | None => fullLoop fuel (S n) env offset w = None
  end.
Proof.
  intros Hp. revert offset w.
  induction fuel as [| fuel IH]; intros offset w Hr; [reflexivity |].
  destruct (reserve_page env n w Hp Hr) as (w1 & h & E & _).
  destruct (fullLoop_iter fuel (S n) offset w w1 h E) as (w3 & R3 & T3 & L3 & Eq).
  cbv zeta in *. rewrite Eq. cbn [fullPlan].
  destruct (gateway env offset) as [| page].
  - exists w3. split; [reflexivity |]. split; [exact R3 |]. split; [exact T3 | exact L3].
  - destruct (length page =? 50)%nat.
    + assert (Hr3 : limiter_ready w3).
      { destruct Hr as [Hr1 Hr2]. destruct L3 as (_ & _ & _ & _ & _ & _ & _ & D & M).
        unfold limiter_ready. rewrite D, M. split; assumption. }
      specialize (IH (offset + 50)%nat w3 Hr3). rewrite T3 in IH.
      destruct (fullPlan fuel env (offset + 50)) as [[offs es] |]; [| exact IH].
      destruct IH as (w' & E' & R' & T' & L').
      exists w'. rewrite E', R', T', R3, fold_left_app, <- app_assoc.
      split; [reflexivity |]. split; [reflexivity |]. split; [reflexivity |].
      eapply loop_frame_trans; eassumption.
    + exists w3. split; [reflexivity |]. split; [exact R3 |]. split; [exact T3 | exact L3].
Qed.

End BackfillFacts.

(** What follows the backfill loop. *)
Lemma finishFull_spec w :
  let w' := snd (finishFull w) in
  fst (finishFull w) = fullTradeHistory w'
  /\ requests w' = requests w
  /\ trades (fullTradeHistory w') = trades (fullTradeHistory w)
  /\ rateLimit w' = rateLimit w
  /\ lastFetchTime (fullTradeHistory w') = Some (clock w')
  /\ totalCount (fullTradeHistory w') = length (trades (fullTradeHistory w'))
  /\ costBasis w' = replay (pairs w') (trades (fullTradeHistory w'))
  /\ writes w' = writes w ++
       [SaveTradeHistory (fullTradeHistory w');
        SaveCostBasis (costBasis w'); SaveAnalytics (tradeAnalytics w')].
Proof.
  simpl. unfold Obj.keys. rewrite length_map.
  repeat split; try reflexivity. rewrite <- !app_assoc. reflexivity.
Qed.

(** X15.  The backfill fetches offset 0, then 50 further after every
    page of exactly 50 records, and stops after an error or any other
    page.  It stores every record received, and whatever ended it, it
    then stamps the ledger with the clock and its size and writes the
    three stores. *)
Theorem backfill_follows_pages (env : Env) (fuel : nat) (w : World) :
  punctual env -> limiter_ready w ->
  match fullPlan fuel env 0 with
  | Some (offs, es) =>
      exists w',
        fetchFullTradeHistory fuel env w = Some (fullTradeHistory w', w')
        /\ requests w' = requests w ++ offs
        /\ trades (fullTradeHistory w') = fold_left storeEntry es (trades (fullTradeHistory w))
        /\ lastFetchTime (fullTradeHistory w') = Some (clock w')
        /\ totalCount (fullTradeHistory w') = length (trades (fullTradeHistory w'))
        /\ writes w' = writes w ++
             [SaveTradeHistory (fullTradeHistory w');
              SaveCostBasis (costBasis w'); SaveAnalytics (tradeAnalytics w')]
  | None => fetchFullTradeHistory fuel env w = None
  end.
Proof.
  intros Hp Hr. unfold fetchFullTradeHistory.
  destruct fuel as [| fuel]; [reflexivity |].
  pose proof (fullLoop_plan env (S fuel) fuel 0 w Hp Hr) as H.
  destruct (fullPlan (S fuel) env 0) as [[offs es] |]; [| rewrite H; reflexivity].
  destruct H as (w1 & E & R & T & L). rewrite E.
  destruct (finishFull_spec w1) as (F1 & F2 & F3 & F4 & F5 & F6 & F7 & F8).
  exists (snd (finishFull w1)).
  split; [rewrite <- F1; destruct (finishFull w1); reflexivity |].
  split; [rewrite F2; exact R |]. split; [rewrite F3; exact T |].
  split; [exact F5 |]. split; [exact F6 |].
  rewrite F8. destruct L as (_ & _ & _ & _ & _ & _ & -> & _). reflexivity.
Qed.

Lemma backfill_follows_pages_witness :
  exists w',
    fetchFullTradeHistory 3 endEnv freshWorld = Some (fullTradeHistory w', w')
    /\ requests w' = [0; 50]%nat
    /\ trades (fullTradeHistory w') = page50
    /\ totalCount (fullTradeHistory w') = 50%nat.
Proof.
  pose proof (backfill_follows_pages endEnv 3 freshWorld (pagedEnv_punctual _)
                (ledgerWorld_ready _ _)) as H.
  assert (P : fullPlan 3 endEnv 0 = Some ([0; 50]%nat, page50)).
  { vm_compute. reflexivity. }
  rewrite P in H. destruct H as (w' & E & R & T & _ & C & _). exists w'.
  split; [exact E |]. split; [exact R |].
  assert (S : fold_left storeEntry page50 (trades (fullTradeHistory freshWorld)) = page50).
  { vm_compute. reflexivity. }
  rewrite S in T. split; [exact T |]. rewrite C, T. reflexivity.
Defined.

(** X16.  A backfill whose first request fails still completes: the
    ledger keeps its records, and is stamped with the clock and its
    size and saved, as after a success. *)
Theorem backfill_error_is_stamped (env : Env) (fuel : nat) (w : World) :
  punctual env -> limiter_ready w -> gateway env 0 = ApiError ->
  exists w',
    fetchFullTradeHistory (S fuel) env w = Some (fullTradeHistory w', w')
    /\ requests w' = requests w ++ [0%nat]
    /\ trades (fullTradeHistory w') = trades (fullTradeHistory w)
    /\ lastFetchTime (fullTradeHistory w') = Some (clock w')
    /\ totalCount (fullTradeHistory w') = length (trades (fullTradeHistory w))
    /\ In (SaveTradeHistory (fullTradeHistory w')) (writes w').
Proof.
  intros Hp Hr G. unfold fetchFullTradeHistory.
  destruct (reserve_page env fuel w Hp Hr) as (w1 & h & E & _).
  pose proof (fullLoop_iter env fuel (S fuel) 0 w w1 h E) as H.
  cbv zeta in H. rewrite G in H. destruct H as (w3 & R & T & L & ->).
  destruct (finishFull_spec w3) as (F1 & F2 & F3 & F4 & F5 & F6 & F7 & F8).
  exists (snd (finishFull w3)).
  split; [rewrite <- F1; destruct (finishFull w3); reflexivity |].
  split; [rewrite F2; exact R |]. split; [rewrite F3; exact T |].
  split; [exact F5 |]. split; [rewrite F6, F3, T; reflexivity |].
  rewrite F8. apply in_or_app. right. left. reflexivity.
Qed.

Lemma backfill_error_is_stamped_witness :
  exists w',
    fetchFullTradeHistory 1 downEnv freshWorld = Some (fullTradeHistory w', w')
    /\ trades (fullTradeHistory w') = []
    /\ lastFetchTime (fullTradeHistory w') = Some (clock w').
Proof.
  destruct (backfill_error_is_stamped downEnv 0 freshWorld (pagedEnv_punctual _)
              (ledgerWorld_ready _ _) eq_refl) as (w' & E & _ & T & F & _).
  exists w'. split; [exact E |]. split; [exact T | exact F].
Defined.

(** ** Dispatch: backfill, then sync *)

Lemma fullPlan_first env fuel offs es page :
  fullPlan fuel env 0 = Some (offs, es) -> gateway env 0 = Page page ->
  exists es', es = page ++ es'.
Proof.
  destruct fuel as [| fuel]; [discriminate |]. cbn [fullPlan]. intros H G. rewrite G in H.
  destruct (length page =? 50)%nat.
  - destruct (fullPlan fuel env (0 + 50)) as [[offs' es'] |]; [| discriminate].
    injection H as _ <-. exists es'. reflexivity.
  - injection H as _ <-. exists []. rewrite app_nil_r. reflexivity.
Qed.

(** A sync whose first page brings nothing unseen: one request. *)
Lemma sync_one_request env fuel w :
  wf_env env -> punctual env -> limiter_ready w ->
  (forall page, gateway env 0 = Page page ->
     forall id, In id (Obj.keys page) -> known (trades (fullTradeHistory w)) id = true) ->
  exists w',
    fetchNewTrades (S fuel) env w = Some (fullTradeHistory w', w')
    /\ requests w' = requests w ++ [0%nat]
    /\ trades (fullTradeHistory w') = trades (fullTradeHistory w).
Proof.
  intros Hwf Hp Hr Hk. unfold fetchNewTrades.
  pose proof (fetchLoop_plan env Hwf (S fuel) fuel 0 0 w Hp Hr) as H.
  cbn [syncPlan] in H.
  set (ledger := trades (fullTradeHistory w)) in *.
  assert (Hstop : stops_as_coded ledger (gateway env 0) = true
                  /\ match gateway env 0 with
                     | ApiError => []
                     | Page page => unseen ledger page
                     end = []).
  { destruct (gateway env 0) as [| page] eqn:G; [split; reflexivity |].
    split; [| apply unseen_all_known; exact (Hk page eq_refl)].
    simpl. destruct page as [| e page]; [reflexivity |].
    rewrite has_known_all_known; [reflexivity | discriminate | exact (Hk _ eq_refl)]. }
  destruct Hstop as [Hs Hn]. rewrite Hs, Hn in H.
  destruct H as (w1 & E & R & T & _). rewrite E. simpl plus.
  destruct (finishSync_spec 0 w1) as (F1 & F2 & F3 & _).
  exists (snd (finishSync 0 w1)).
  split; [rewrite <- F1; destruct (finishSync 0 w1); reflexivity |].
  split; [rewrite F2; exact R |]. rewrite F3, T. apply app_nil_r.
Qed.

(** A backfill whose first answer has no record: one request. *)
Lemma backfill_one_request env fuel w :
  punctual env -> limiter_ready w ->
  (forall page, gateway env 0 = Page page -> page = []) ->
  exists w',
    fetchFullTradeHistory (S fuel) env w = Some (fullTradeHistory w', w')
    /\ requests w' = requests w ++ [0%nat]
    /\ trades (fullTradeHistory w') = trades (fullTradeHistory w).
Proof.
  intros Hp Hr G. unfold fetchFullTradeHistory.
  destruct (reserve_page env fuel w Hp Hr) as (w1 & h & E & _).
  pose proof (fullLoop_iter env fuel (S fuel) 0 w w1 h E) as H. cbv zeta in H.
  destruct H as (w3 & R & T & _ & Eq).
  assert (Eq' : fullLoop (S fuel) (S fuel) env 0 w = Some w3
                /\ trades (fullTradeHistory w3) = trades (fullTradeHistory w)).
  { destruct (gateway env 0) as [| page]; [split; assumption |].
    rewrite (G page eq_refl) in *. split; assumption. }
  destruct Eq' as [-> T'].
  destruct (finishFull_spec w3) as (F1 & F2 & F3 & _).
  exists (snd (finishFull w3)).
  split; [rewrite <- F1; destruct (finishFull w3); reflexivity |].
  split; [rewrite F2; exact R | rewrite F3; exact T'].
Qed.

(** X17.  Once a backfill has returned, the next [fetchAllTradeHistory]
    against the same exchange makes exactly one request and leaves the
    records of the ledger as they are, whether it runs as a sync or,
    the ledger still being empty, as another backfill. *)
Theorem fetch_all_after_backfill (env : Env) (fuel fuel' : nat) (w w1 : World)
    (h : TradeHistory) :
  wf_env env -> punctual env -> limiter_ready w ->
  fetchFullTradeHistory fuel env w = Some (h, w1) ->
  exists w2,
    fetchAllTradeHistory (S fuel') env w1 = Some (fullTradeHistory w2, w2)
    /\ requests w2 = requests w1 ++ [0%nat]
    /\ trades (fullTradeHistory w2) = trades (fullTradeHistory w1).
Proof.
  intros Hwf Hp Hr E. unfold fetchFullTradeHistory in E.
  destruct fuel as [| fuel]; [discriminate |].
  pose proof (fullLoop_plan env (S fuel) fuel 0 w Hp Hr) as H.
  destruct (fullPlan (S fuel) env 0) as [[offs es] |] eqn:P;
    [| rewrite H in E; discriminate].
  destruct H as (w' & E' & _ & T & L). rewrite E' in E.
  assert (Hw1 : w1 = snd (finishFull w')) by (injection E as _ <-; reflexivity).
  clear E. subst w1.
  destruct (finishFull_spec w') as (_ & _ & F3 & F4 & _).
  set (w1 := snd (finishFull w')) in *.
  assert (Hr1 : limiter_ready w1).
  { destruct Hr as [Hr1 Hr2]. destruct L as (_ & _ & _ & _ & _ & _ & _ & D & M).
    unfold limiter_ready. rewrite F4, D, M. split; assumption. }
  assert (Hk : forall page, gateway env 0 = Page page ->
                 forall id, In id (Obj.keys page) ->
                   known (trades (fullTradeHistory w1)) id = true).
  { intros page G id Hin. destruct (fullPlan_first env _ _ _ page P G) as [es' ->].
    unfold known. rewrite F3, T, stored_get.
    destruct (lastStored (page ++ es') id) eqn:S; [reflexivity |].
    exfalso. revert S. apply lastStored_In.
    unfold Obj.keys in *. rewrite map_app. apply in_or_app. left. exact Hin. }
  unfold fetchAllTradeHistory. cbv zeta.
  destruct (0 <? length (Obj.keys (trades (fullTradeHistory w1))))%nat eqn:N.
  - destruct (sync_one_request env fuel' w1 Hwf Hp Hr1 Hk) as (w2 & E2 & R2 & T2).
    exists w2. split; [exact E2 |]. split; assumption.
  - apply Nat.ltb_ge in N.
    destruct (backfill_one_request env fuel' w1 Hp Hr1) as (w2 & E2 & R2 & T2).
    + intros [| [id t] page] G; [reflexivity |]. exfalso.
      specialize (Hk _ G id (or_introl eq_refl)). apply known_In in Hk.
      destruct (Obj.keys (trades (fullTradeHistory w1))); [exact Hk | simpl in N; lia].
    + exists w2. split; [exact E2 |]. split; assumption.
Qed.

Lemma fetch_all_after_backfill_witness :
  exists w1 w2,
    fetchFullTradeHistory 3 endEnv freshWorld = Some (fullTradeHistory w1, w1)
    /\ fetchAllTradeHistory 1 endEnv w1 = Some (fullTradeHistory w2, w2)
    /\ requests w2 = requests w1 ++ [0%nat]
    /\ trades (fullTradeHistory w2) = trades (fullTradeHistory w1).
Proof.
  destruct (fullLoop_plan endEnv 3 2 0 freshWorld (pagedEnv_punctual _)
              (ledgerWorld_ready _ _)) as (w' & E' & _).
  assert (E : fetchFullTradeHistory 3 endEnv freshWorld
              = Some (fullTradeHistory (snd (finishFull w')), snd (finishFull w'))).
  { unfold fetchFullTradeHistory. rewrite E'. reflexivity. }
  destruct (fetch_all_after_backfill endEnv 3 0 freshWorld _ _ endEnv_wf
              (pagedEnv_punctual _) (ledgerWorld_ready _ _) E) as (w2 & E2 & R2 & T2).
  exists (snd (finishFull w')), w2.
  split; [exact E |]. split; [exact E2 |]. split; assumption.
Defined.

(** ** State module: the log and the balance history *)

Lemma log_firstn timestamp message pair logs :
  log timestamp message pair logs
  = firstn MAX_LOGS (fullMessage timestamp message pair :: logs).
Proof.
  unfold log. cbv zeta.
  destruct (MAX_LOGS <? _)%nat eqn:E; [reflexivity |].
  apply Nat.ltb_ge in E. symmetry. apply firstn_all2. exact E.
Qed.

Lemma firstn_app_firstn {A : Type} (pre l : list A) : forall n k,
  (n <= k)%nat -> firstn n (pre ++ firstn k l) = firstn n (pre ++ l).
Proof.
  induction pre as [| p pre IH]; intros n k Hle.
  - cbn [app]. rewrite firstn_firstn, Nat.min_l by exact Hle. reflexivity.
  - destruct n as [| n]; [reflexivity |]. cbn [app firstn]. f_equal. apply IH. lia.
Qed.

(** X18.  After any run of [log] calls the log holds the 500 newest
    lines, or all when there are fewer, newest first; it never grows
    beyond 500 lines. *)
Theorem log_keeps_newest (calls : list (string * string * string)) (logs : list string) :
  (length logs <= MAX_LOGS)%nat ->
  logAll calls logs = firstn MAX_LOGS (rev (map lineOf calls) ++ logs)
  /\ (length (logAll calls logs) <= MAX_LOGS)%nat.
Proof.
  intros Hlen.
  assert (H : logAll calls logs = firstn MAX_LOGS (rev (map lineOf calls) ++ logs)).
  { revert logs Hlen. unfold logAll.
    induction calls as [| c calls IH]; intros logs Hlen.
    - simpl. symmetry. apply firstn_all2. exact Hlen.
    - cbn [fold_left map rev]. rewrite IH.
      + rewrite log_firstn, <- app_assoc. cbn [app]. fold (lineOf c).
        apply firstn_app_firstn. apply Nat.le_refl.
      + rewrite log_firstn, length_firstn. apply Nat.le_min_l. }
  split; [exact H |]. rewrite H, length_firstn. apply Nat.le_min_l.
Qed.

Lemma log_keeps_newest_witness :
  logAll [("12:00", "second", ""); ("12:01", "third", "XXBTZEUR")] ["11:59 first"]
  = ["12:01 XXBTZEUR third"; "12:00 second"; "11:59 first"].
Proof.
  destruct (log_keeps_newest [("12:00", "second", ""); ("12:01", "third", "XXBTZEUR")]
              ["11:59 first"]) as [H _]; [vm_compute; lia |].
  rewrite H. reflexivity.
Defined.

Lemma ordered_filter_Q (f : Snapshot -> bool) (l : list Snapshot) :
  ordered Qle_bool (map timestamp l) -> ordered Qle_bool (map timestamp (List.filter f l)).
Proof.
  induction l as [| a l IH]; [intros; exact I |].
  intros Ho. pose proof (IH (proj2 Ho)) as Ht.
  cbn [List.filter]. destruct (f a); [| exact Ht].
  cbn [map ordered]. split; [| exact Ht].
  assert (Hall : Forall (fun t => timestamp a <= t) (map timestamp l)).
  { clear - Ho. revert a Ho. induction l as [| b l IHl]; intros a [Ha Ho]; constructor.
    - apply Qle_bool_iff. exact Ha.
    - apply Qle_bool_iff in Ha. eapply List.Forall_impl; [| apply IHl; exact Ho].
      simpl. intros; lra. }
  destruct (List.filter f l) as [| b l'] eqn:F; [exact I |].
  cbn [map]. apply Qle_bool_iff.
  rewrite List.Forall_forall in Hall. apply Hall. apply in_map.
  assert (Hin : In b (List.filter f l)) by (rewrite F; left; reflexivity).
  apply List.filter_In in Hin. tauto.
Qed.

(** ** Positions *)

Lemma positions_from now quote cbs wallet : forall ps a p,
  Obj.get (fold_left (enrich now quote cbs) wallet ps) a = Some p ->
  Obj.get ps a = Some p
  \/ exists e, In (a, e) wallet /\ positionOf now quote cbs a e = Some p.
Proof.
  induction wallet as [| [k e] wallet IH]; intros ps a p H; [left; exact H |].
  cbn [fold_left] in H. apply IH in H. destruct H as [H | (e' & Hin & He')].
  - unfold enrich in H. cbn [fst snd] in H.
    destruct (positionOf now quote cbs k e) as [p' |] eqn:E; [| left; exact H].
    destruct (String.eqb_spec k a) as [-> | Hne].
    + rewrite get_set_same in H. injection H as <-.
      right. exists e. split; [left; reflexivity | exact E].
    + rewrite get_set_other in H by exact Hne. left. exact H.
  - right. exists e'. split; [right; exact Hin | exact He'].
Qed.

(** X20.  Every position reported is of a wallet entry that is not
    fiat, with a positive amount and a current value of at least 1 EUR;
    its current value is amount times price, its unrealized P&L is
    current value less cost basis, and its holding days are not
    negative. *)
Theorem positions_are_sound (now : Q) (quote : string -> option Q)
    (cbs : Obj.t CostBasis) (wallet : Obj.t Wallet.entry) (asset : string) (p : Pos.t) :
  Obj.get (getEnrichedPositions now quote cbs wallet) asset = Some p ->
  is_fiat asset = false
  /\ (exists e, In (asset, e) wallet /\ Pos.amount p = Wallet.amount e)
  /\ 0 < Pos.amount p
  /\ 1 <= Pos.currentValue p
  /\ Pos.currentValue p == Pos.amount p * Pos.currentPrice p
  /\ Pos.unrealizedPnL p == Pos.currentValue p - Pos.costBasis p
  /\ (0 <= Pos.holdingDays p)%Z.
Proof.
  intros H. apply positions_from in H. destruct H as [H | (e & Hin & H)]; [discriminate |].
  unfold positionOf in H.
  destruct (is_fiat asset); [discriminate |].
  destruct (Qle_bool (Wallet.amount e) 0 || _) eqn:D; [discriminate |].
  apply orb_false_iff in D. destruct D as [D1 _]. apply Qle_bool_false in D1.
  cbv zeta in H.
  destruct (Qlt_bool _ 1) eqn:V; [discriminate |]. apply Qlt_bool_false in V.
  injection H as <-. cbn [Pos.amount Pos.currentValue Pos.currentPrice Pos.unrealizedPnL
                           Pos.costBasis Pos.holdingDays].
  split; [reflexivity |]. split; [exists e; split; [exact Hin | reflexivity] |].
  split; [exact D1 |]. split; [exact V |]. split; [reflexivity |]. split; [reflexivity |].
  destruct (0 <=? _)%Z eqn:Z0; [apply Z.leb_le; exact Z0 | lia].
Qed.

Lemma scenarioA_position :
  exists p, Obj.get (getEnrichedPositions 5000000000 scenarioA_quote
                       (costBasis (buildCostBasis scenarioA_world)) scenarioA_wallet) "XXBT"
            = Some p.
Proof. eexists. vm_compute. reflexivity. Qed.

Lemma positions_are_sound_witness :
  exists p,
    Obj.get (getEnrichedPositions 5000000000 scenarioA_quote
               (costBasis (buildCostBasis scenarioA_world)) scenarioA_wallet) "XXBT" = Some p
    /\ 1 <= Pos.currentValue p.
Proof.
  destruct scenarioA_position as [p Hp]. exists p. split; [exact Hp |].
  apply (positions_are_sound _ _ _ _ _ p Hp).
Defined.

(** ** Balance *)

Lemma set_Forall {V : Type} (P : string * V -> Prop) (o : Obj.t V) k v :
  Forall P o -> P (k, v) -> Forall P (Obj.set o k v).
Proof.
  intros Ho Hv. induction Ho as [| [k' v'] o Hx Ho IH]; simpl.
  - constructor; [exact Hv | constructor].
  - destruct (String.eqb k k'); constructor; assumption.
Qed.

Lemma walletValue_app o1 o2 : walletValue (o1 ++ o2) == walletValue o1 + walletValue o2.
Proof.
  induction o1 as [| e o1 IH]; simpl; [lra |].
  change (fold_right _ 0 (o1 ++ o2)) with (walletValue (o1 ++ o2)).
  change (fold_right _ 0 o1) with (walletValue o1). lra.
Qed.

Lemma walletValue_set o k e e' :
  Obj.get o k = Some e ->
  walletValue (Obj.set o k e') == walletValue o - Wallet.value e + Wallet.value e'.
Proof.
  induction o as [| [k0 e0] o IH]; simpl; [discriminate |].
  destruct (String.eqb k k0); simpl.
  - intros [= ->]. change (fold_right _ 0 o) with (walletValue o). lra.
  - intros H. specialize (IH H).
    change (fold_right _ 0 (Obj.set o k e')) with (walletValue (Obj.set o k e')).
    change (fold_right _ 0 o) with (walletValue o). lra.
Qed.

(** The first loop of the callback. *)
Lemma fold_creditAsset result : forall acc,
  Obj.wf result ->
  (forall k, In k (Obj.keys result) -> Obj.get (wallet acc) k = None) ->
  Obj.wf (wallet acc) -> Forall credited (wallet acc) ->
  tradeBalance acc == walletValue (wallet acc) ->
  let acc' := fold_left creditAsset result acc in
  Obj.wf (wallet acc') /\ Forall credited (wallet acc')
  /\ tradeBalance acc' == walletValue (wallet acc')
  /\ forall k e, Obj.get (wallet acc') k = Some e ->
       Obj.get (wallet acc) k = Some e
       \/ Obj.get result k = Some (Wallet.amount e).
Proof.
  induction result as [| [k a] result IH]; intros acc Hwf Hfresh Hw Hc Ht; cbv zeta.
  - simpl. repeat split; try assumption. intros; left; assumption.
  - inversion Hwf as [| ? ? Hk Hwf']; subst. cbn [fold_left].
    assert (Hget : Obj.get (wallet acc) k = None) by (apply Hfresh; left; reflexivity).
    assert (Hstep : Obj.wf (wallet (creditAsset acc (k, a)))
              /\ Forall credited (wallet (creditAsset acc (k, a)))
              /\ tradeBalance (creditAsset acc (k, a))
                 == walletValue (wallet (creditAsset acc (k, a)))
              /\ (forall k', In k' (Obj.keys result) ->
                    Obj.get (wallet (creditAsset acc (k, a))) k' = None)
              /\ (forall k' e, Obj.get (wallet (creditAsset acc (k, a))) k' = Some e ->
                    Obj.get (wallet acc) k' = Some e
                    \/ (k' = k /\ a = Wallet.amount e))).
    { unfold creditAsset. cbn [fst snd]. destruct (Qlt_bool 0 a) eqn:A.
      - apply Qlt_bool_true in A. cbn [wallet tradeBalance].
        split; [apply set_wf; exact Hw |].
        split; [apply set_Forall; [exact Hc | split; [exact A | reflexivity]] |].
        split.
        + rewrite set_fresh by exact Hget. rewrite walletValue_app. simpl.
          destruct (is_eur k); lra.
        + split.
          * intros k' Hin. rewrite get_set_other; [apply Hfresh; right; exact Hin |].
            intros ->. contradiction.
          * intros k' e. destruct (String.eqb_spec k k') as [<- | Hne].
            -- rewrite get_set_same. intros [= <-]. right. split; reflexivity.
            -- rewrite get_set_other by exact Hne. intros H. left. exact H.
      - split; [exact Hw |]. split; [exact Hc |]. split; [exact Ht |].
        split; [intros k' Hin; apply Hfresh; right; exact Hin |].
        intros k' e H. left. exact H. }
    destruct Hstep as (S1 & S2 & S3 & S4 & S5).
    destruct (IH (creditAsset acc (k, a)) Hwf' S4 S1 S2 S3) as (I1 & I2 & I3 & I4).
    split; [exact I1 |]. split; [exact I2 |]. split; [exact I3 |].
    intros k' e H. apply I4 in H. destruct H as [H | H].
    + apply S5 in H. destruct H as [H | [-> ->]]; [left; exact H |].
      right. simpl. rewrite String.eqb_refl. reflexivity.
    + right. simpl. destruct (String.eqb_spec k' k) as [-> | _]; [| exact H].
      exfalso. apply Hk. eapply get_Some_In. exact H.
Qed.

(** The second loop of the callback, over the entries not yet visited. *)
Lemma fold_valueAsset quote rest : forall acc,
  List.NoDup (Obj.keys rest) ->
  (forall k e, In (k, e) rest -> Obj.get (wallet acc) k = Some e /\ credited (k, e)) ->
  tradeBalance acc == walletValue (wallet acc) ->
  let acc' := fold_left (valueAsset quote) rest acc in
  tradeBalance acc' == walletValue (wallet acc')
  /\ Obj.keys (wallet acc') = Obj.keys (wallet acc)
  /\ forall k e', Obj.get (wallet acc') k = Some e' ->
       exists e, Obj.get (wallet acc) k = Some e /\ Wallet.amount e' = Wallet.amount e.
Proof.
  induction rest as [| [k e] rest IH]; intros acc Hnd Hrest Ht; cbv zeta.
  - simpl. split; [exact Ht |]. split; [reflexivity |]. intros k e' H. exists e'. tauto.
  - inversion Hnd as [| ? ? Hk Hnd']; subst. cbn [fold_left].
    destruct (Hrest k e (or_introl eq_refl)) as [Hget [_ Hval]]. cbn [fst snd] in Hval.
    set (acc1 := valueAsset quote acc (k, e)).
    assert (Hstep : tradeBalance acc1 == walletValue (wallet acc1)
              /\ Obj.keys (wallet acc1) = Obj.keys (wallet acc)
              /\ (forall k', k' <> k ->
                    Obj.get (wallet acc1) k' = Obj.get (wallet acc) k')
              /\ (forall e', Obj.get (wallet acc1) k = Some e' ->
                    Wallet.amount e' = Wallet.amount e)).
    { unfold acc1, valueAsset. cbn [fst]. destruct (is_eur k) eqn:Eu.
      - split; [exact Ht |]. split; [reflexivity |]. split; [reflexivity |].
        intros e' H. rewrite Hget in H. injection H as <-. reflexivity.
      - destruct (quote k) as [price |].
        + rewrite Hget. cbv zeta. cbn [wallet tradeBalance].
          split; [rewrite (walletValue_set _ k e _ Hget), Hval; simpl; lra |].
          split; [rewrite set_keys, Hget; reflexivity |].
          split; [intros k' Hne; apply get_set_other; congruence |].
          rewrite get_set_same. intros e' [= <-]. reflexivity.
        + split; [exact Ht |]. split; [reflexivity |]. split; [reflexivity |].
          intros e' H. rewrite Hget in H. injection H as <-. reflexivity. }
    destruct Hstep as (S1 & S2 & S3 & S4).
    destruct (IH acc1 Hnd') as (I1 & I2 & I3); [| exact S1 |].
    + intros k' e' Hin. destruct (Hrest k' e' (or_intror Hin)) as [G C].
      split; [| exact C]. rewrite S3; [exact G |].
      intros ->. apply Hk. apply (in_map fst) in Hin. exact Hin.
    + split; [exact I1 |]. split; [rewrite I2; exact S2 |].
      intros k' e' H. apply I3 in H. destruct H as (e1 & G1 & A1).
      destruct (String.eqb_spec k' k) as [-> | Hne].
      * exists e. split; [exact Hget |]. rewrite A1. apply S4. exact G1.
      * exists e1. split; [rewrite <- (S3 k' Hne); exact G1 | exact A1].
Qed.

Lemma Forall_In_get {V : Type} (o : Obj.t V) k v : Obj.get o k = Some v -> In (k, v) o.
Proof.
  induction o as [| [k' v'] o IH]; simpl; [discriminate |].
  destruct (String.eqb_spec k k') as [-> | _]; [intros [= ->]; left; reflexivity |].
  intros H. right. apply IH. exact H.
Qed.



(** ** Pairs *)

(** What [fetchPairs] establishes: every loaded pair is a EUR pair
    without a dot that the exchange listed, and the map names loaded
    pairs only. *)
Lemma fold_loadPair result : forall b,
  (forall p base, Obj.get (book b) p = Some base ->
     eur_pair p = true /\ has_dot p = false) ->
  (forall a p, Obj.get (assetToPairMap b) a = Some p -> known_pair (book b) p = true) ->
  let b' := fold_left loadPair result b in
  (forall p base, Obj.get (book b') p = Some base ->
     eur_pair p = true /\ has_dot p = false)
  /\ (forall a p, Obj.get (assetToPairMap b') a = Some p -> known_pair (book b') p = true)
  /\ (forall p base, Obj.get (book b') p = Some base ->
        Obj.get (book b) p = Some base \/ In (p, base) result).
Proof.
  induction result as [| [pair base] result IH]; intros b Hb Hm; cbv zeta.
  - simpl. split; [exact Hb |]. split; [exact Hm |]. intros; left; assumption.
  - cbn [fold_left].
    assert (Hstep :
      (forall p base', Obj.get (book (loadPair b (pair, base))) p = Some base' ->
         eur_pair p = true /\ has_dot p = false)
      /\ (forall a p, Obj.get (assetToPairMap (loadPair b (pair, base))) a = Some p ->
            known_pair (book (loadPair b (pair, base))) p = true)
      /\ (forall p base', Obj.get (book (loadPair b (pair, base))) p = Some base' ->
            Obj.get (book b) p = Some base' \/ (p, base') = (pair, base))).
    { unfold loadPair. cbn [fst snd].
      destruct (eur_pair pair && negb (has_dot pair)) eqn:F;
        [| split; [exact Hb |]; split; [exact Hm |]; intros; left; assumption].
      apply andb_true_iff in F. destruct F as [F1 F2]. apply negb_true_iff in F2.
      cbv zeta. cbn [book assetToPairMap].
      assert (Hk : forall p, known_pair (book b) p = true \/ p = pair ->
                     known_pair (Obj.set (book b) pair base) p = true).
      { intros p [H | ->]; unfold known_pair in *.
        - destruct (String.eqb_spec pair p) as [-> | Hne];
            [rewrite get_set_same; reflexivity | rewrite get_set_other by exact Hne; exact H].
        - rewrite get_set_same. reflexivity. }
      assert (Hset : forall m a0,
                (forall a p, Obj.get m a = Some p ->
                   known_pair (book b) p = true \/ p = pair) ->
                forall a p, Obj.get (Obj.set m a0 pair) a = Some p ->
                   known_pair (book b) p = true \/ p = pair).
      { intros m a0 H a p. destruct (String.eqb_spec a0 a) as [-> | Hne].
        - rewrite get_set_same. intros [= <-]. right. reflexivity.
        - rewrite get_set_other by exact Hne. apply H. }
      split; [| split].
      - intros p base'. destruct (String.eqb_spec pair p) as [<- | Hne].
        + intros _. split; assumption.
        + rewrite get_set_other by exact Hne. apply Hb.
      - intros a p H. apply Hk. revert a p H.
        destruct (String.prefix "XX" base && _); destruct (String.prefix "X" base && _);
          repeat apply Hset; intros a p H; left; eapply Hm; exact H.
      - intros p base'. destruct (String.eqb_spec pair p) as [<- | Hne].
        + rewrite get_set_same. intros [= <-]. right. reflexivity.
        + rewrite get_set_other by exact Hne. intros H. left. exact H. }
    destruct Hstep as (S1 & S2 & S3).
    destruct (IH (loadPair b (pair, base)) S1 S2) as (I1 & I2 & I3).
    split; [exact I1 |]. split; [exact I2 |].
    intros p base' H. apply I3 in H. destruct H as [H | H]; [| right; right; exact H].
    apply S3 in H. destruct H as [H | H]; [left; exact H | right; left; symmetry; exact H].
Qed.

Lemma find_some_In {A : Type} (f : A -> bool) l x :
  List.find f l = Some x -> In x l /\ f x = true.
Proof.
  induction l as [| y l IH]; simpl; [discriminate |].
  destruct (f y) eqn:F; [intros [= <-]; auto |].
  intros H. apply IH in H. tauto.
Qed.

Lemma find_none_all {A : Type} (f : A -> bool) l x :
  List.find f l = None -> In x l -> f x = false.
Proof.
  induction l as [| y l IH]; simpl; [contradiction |].
  destruct (f y) eqn:F; [discriminate |].
  intros H [<- | Hin]; [exact F | apply IH; assumption].
Qed.

(** X23.  After [fetchPairs] has loaded the listing of the exchange,
    whatever [findPairForAsset] finds for a name is a loaded pair: a
    pair of the listing that ends in EUR and has no dot.  For the empty
    name it finds nothing. *)
Theorem found_pair_is_loaded (result : Obj.t string) (b0 b : PairBook) (loaded : Obj.t string)
    (assetName pair : string) :
  fetchPairs (Some result) b0 = (Some loaded, b) ->
  findPairForAsset b assetName = Some pair ->
  assetName <> ""
  /\ exists base, Obj.get loaded pair = Some base
       /\ In (pair, base) result
       /\ eur_pair pair = true /\ has_dot pair = false.
Proof.
  unfold fetchPairs. intros [= <- <-].
  destruct (fold_loadPair result {| book := []; assetToPairMap := [] |})
    as (H1 & H2 & H3); [discriminate | discriminate |].
  set (b := fold_left loadPair result _) in *.
  assert (Hk : forall p, known_pair (book b) p = true ->
                 exists base, Obj.get (book b) p = Some base
                   /\ In (p, base) result /\ eur_pair p = true /\ has_dot p = false).
  { intros p Hp. unfold known_pair in Hp. destruct (Obj.get (book b) p) as [base |] eqn:G;
      [| discriminate].
    exists base. split; [reflexivity |].
    destruct (H3 p base G) as [H | H]; [discriminate |].
    split; [exact H | exact (H1 p base G)]. }
  unfold findPairForAsset.
  destruct (String.eqb_spec assetName "") as [-> | Hne]; [discriminate |].
  cbv zeta. intros H. split; [exact Hne |].
  destruct (Obj.get (assetToPairMap b) _) as [p |] eqn:M.
  - destruct (String.eqb p "") eqn:Ep.
    + destruct (List.find (fun v => known_pair (book b) v) _) as [v |] eqn:F1.
      * injection H as <-. apply find_some_In in F1. apply Hk. tauto.
      * destruct (List.find _ (book b)) as [e |] eqn:F2; [| discriminate].
        injection H as <-. apply find_some_In in F2. destruct F2 as [Hin _].
        apply Hk. unfold known_pair.
        destruct (Obj.get (book b) (fst e)) eqn:G; [reflexivity |].
        apply get_None_notin in G. exfalso. apply G. apply in_map. exact Hin.
    + injection H as <-. apply Hk. eapply H2. exact M.
  - destruct (List.find (fun v => known_pair (book b) v) _) as [v |] eqn:F1.
    + injection H as <-. apply find_some_In in F1. apply Hk. tauto.
    + destruct (List.find _ (book b)) as [e |] eqn:F2; [| discriminate].
      injection H as <-. apply find_some_In in F2. destruct F2 as [Hin _].
      apply Hk. unfold known_pair.
      destruct (Obj.get (book b) (fst e)) eqn:G; [reflexivity |].
      apply get_None_notin in G. exfalso. apply G. apply in_map. exact Hin.
Qed.

Lemma found_pair_is_loaded_witness :
  findPairForAsset someBook " xbt " = Some "XXBTZEUR"
  /\ In ("XXBTZEUR", "XXBT") somePairs.
Proof.
  assert (F : findPairForAsset someBook " xbt " = Some "XXBTZEUR")
    by (vm_compute; reflexivity).
  split; [exact F |].
  destruct (found_pair_is_loaded somePairs emptyBook someBook (book someBook)
              " xbt " "XXBTZEUR" eq_refl F) as (_ & base & G & Hin & _).
  assert (E : base = "XXBT") by (vm_compute in G; congruence).
  rewrite <- E. exact Hin.
Defined.



(** ** The limiter in doubles *)

Lemma rate_value : round64 (33 # 100) == 5944751508129055 # 18014398509481984.
Proof. vm_compute. reflexivity. Qed.

Lemma fadd_nonneg x y : 0 <= x -> 0 <= y -> 0 <= fadd x y.
Proof. intros Hx Hy. unfold fadd. apply round64_nonneg. lra. Qed.

Lemma decay64_nonneg now rl : 0 <= counter (Double.decay_at now rl).
Proof. apply Q.le_max_l. Qed.

(** More than [counter / decayRate] seconds after the last pass, by a
    millisecond, the decay computed in doubles exceeds the counter. *)
Lemma decay64_zero now rl :
  as_coded rl -> 0 <= counter rl -> counter rl <= maxCounter rl ->
  lastDecay rl + (counter rl / decayRate rl) * 1000 + 1 <= now ->
  counter (Double.decay_at now rl) == 0.
Proof.
  intros [Hm Hr] Hc0 Hc15 Hnow. unfold Double.decay_at. cbn [counter].
  apply Q.max_l. unfold fsub at 1. apply round64_nonpos.
  rewrite rate_value in Hr.
  set (r := decayRate rl) in *. set (c := counter rl) in *. set (L := lastDecay rl) in *.
  set (b := c / r) in *.
  assert (Hb : b * (5944751508129055 # 18014398509481984) == c).
  { rewrite <- Hr. unfold b. field. intro Hz. rewrite Hz in Hr. discriminate Hr. }
  assert (Hb0 : 0 <= b) by lra.
  unfold fmul, fdiv, fsub.
  pose proof (round64_lower (now - L) ltac:(lra)) as E1.
  set (d1 := round64 (now - L)) in *.
  set (q := d1 / 1000).
  assert (Hq : q * 1000 == d1) by (unfold q; field).
  change (pow2 (- 53)) with (1 # 9007199254740992) in *.
  assert (Hq0 : 0 <= q) by lra.
  pose proof (round64_lower q Hq0) as E2.
  change (pow2 (- 53)) with (1 # 9007199254740992) in E2.
  set (e := round64 q) in *.
  assert (He0 : 0 <= e) by lra.
  assert (Hp : e * r == e * (5944751508129055 # 18014398509481984))
    by (rewrite Hr; reflexivity).
  pose proof (round64_lower (e * r) ltac:(rewrite Hp; lra)) as E3.
  change (pow2 (- 53)) with (1 # 9007199254740992) in E3.
  set (dec := round64 (e * r)) in *. set (p := e * r) in *.
  clearbody dec p e q d1 b. lra.
Qed.

(** The loop keeps the configuration and exits under the budget. *)
Lemma waitLoop64_spec env fuel cost w w' hist :
  0 <= counter (rateLimit w) ->
  Double.waitLoop fuel env cost w = Some (w', hist) ->
  fadd (counter (rateLimit w')) cost <= maxCounter (rateLimit w')
  /\ 0 <= counter (rateLimit w')
  /\ decayRate (rateLimit w') = decayRate (rateLimit w)
  /\ maxCounter (rateLimit w') = maxCounter (rateLimit w)
  /\ Forall (fun rl => 0 <= counter rl) hist.
Proof.
  revert w w' hist. induction fuel as [| fuel IH]; intros w w' hist H0; cbn [Double.waitLoop].
  - destruct (Qlt_bool _ _) eqn:G; [discriminate |].
    intros [= <- <-]. apply Qlt_bool_false in G. repeat split; auto.
  - destruct (Qlt_bool _ _) eqn:G.
    + cbv zeta. destruct (Double.waitLoop fuel env cost _) as [[w1 h1] |] eqn:E; [| discriminate].
      intros [= <- <-]. apply IH in E; [| apply decay64_nonneg].
      destruct E as (H1 & H2 & H3 & H4 & H5).
      split; [exact H1 |]. split; [exact H2 |]. split; [exact H3 |]. split; [exact H4 |].
      constructor; [apply decay64_nonneg | exact H5].
    + intros [= <- <-]. apply Qlt_bool_false in G. repeat split; auto.
Qed.

(** What a returned reservation guarantees, in doubles. *)
Lemma waitForRateLimit64_spec env fuel cost w w' hist :
  0 <= cost ->
  Double.waitForRateLimit fuel env cost w = Some (w', hist) ->
  counter (rateLimit w') <= maxCounter (rateLimit w')
  /\ 0 <= counter (rateLimit w')
  /\ decayRate (rateLimit w') = decayRate (rateLimit w)
  /\ maxCounter (rateLimit w') = maxCounter (rateLimit w)
  /\ Forall (fun rl => 0 <= counter rl) hist.
Proof.
  intros Hc. unfold Double.waitForRateLimit. cbv zeta.
  destruct (Double.waitLoop fuel env cost (Double.decayCounter w)) as [[w1 h1] |] eqn:E;
    [| discriminate].
  intros [= <- <-]. apply waitLoop64_spec in E; [| apply decay64_nonneg].
  destruct E as (H1 & H2 & H3 & H4 & H5). cbn [rateLimit set_rateLimit Double.grant counter
    maxCounter decayRate].
  split; [exact H1 |]. split; [apply fadd_nonneg; assumption |].
  split; [exact H3 |]. split; [exact H4 |].
  constructor; [apply decay64_nonneg |].
  apply Forall_app. split; [exact H5 |].
  constructor; [apply fadd_nonneg; assumption | constructor].
Qed.

(** C4, as the code has it.  For every sequence of reservations with
    non-negative costs, computed in doubles with the constants of the
    [rateLimit] literal: each call that returns leaves
    [counter <= maxCounter]; every value the counter takes during the
    calls is non-negative; and once a call has returned, a decay pass
    made one millisecond or more after [counter / decayRate] seconds
    have passed since the last one leaves the counter at 0. *)
Theorem reserve_budget_bound env fuel calls w results :
  as_coded (rateLimit w) ->
  Forall (fun c => 0 <= snd c) calls ->
  Double.reserveAll fuel env calls w = Some results ->
  Forall budget_ok results.
Proof.
  intros Hr Hcosts. revert w results Hr.
  induction Hcosts as [| [pause cost] calls Hc _ IH]; intros w results Hr;
    cbn [Double.reserveAll].
  - intros [= <-]. constructor.
  - destruct (Double.waitForRateLimit fuel env cost _) as [[w' hist] |] eqn:E;
      [| discriminate].
    destruct (Double.reserveAll fuel env calls w') as [rest |] eqn:R; [| discriminate].
    intros [= <-].
    apply waitForRateLimit64_spec in E; [| exact Hc].
    destruct E as (Hmax & Hnn & Hrate & Hcap & Hhist). cbn [rateLimit set_clock] in Hrate, Hcap.
    assert (Hr' : as_coded (rateLimit w')).
    { destruct Hr as [A B]. unfold as_coded. rewrite Hrate, Hcap. split; assumption. }
    constructor.
    + unfold budget_ok. cbn [fst snd].
      split; [exact Hmax |]. split; [exact Hnn |]. split; [exact Hhist |].
      intros now Hnow. apply decay64_zero; assumption.
    + apply (IH w'); [exact Hr' | exact R].
Qed.

(** The theorem at [twoBigCalls] from the initial state: the second
    call waits. *)
Lemma reserve_budget_bound_witness :
  exists results,
    Double.reserveAll 2 quietEnv twoBigCalls (doubleState 0) = Some results
    /\ length results = 2%nat
    /\ Forall budget_ok results.
Proof.
  destruct (Double.reserveAll 2 quietEnv twoBigCalls (doubleState 0)) as [results |] eqn:E;
    [| vm_compute in E; discriminate].
  exists results. split; [reflexivity |]. split.
  - vm_compute in E. injection E as <-. reflexivity.
  - apply (reserve_budget_bound quietEnv 2 twoBigCalls (doubleState 0) results).
    + split; reflexivity.
    + repeat constructor; simpl; lra.
    + exact E.
Defined.

(** C4, as stated, fails in doubles.  After the seventeen reservations
    of [thirtyThreeUnits], made from clock 0 on, the last one returns
    at clock 82500 with the counter at the double next to 7.392; clock
    104900 is [counter / decayRate] seconds after that, and a decay
    pass made then leaves [2^-50] in the counter. *)
Lemma decay_leaves_residue :
  exists results w' hist,
    Double.reserveAll 1 quietEnv thirtyThreeUnits (doubleState 0) = Some results
    /\ last results = Some (w', hist)
    /\ lastDecay (rateLimit w') == 82500
    /\ counter (rateLimit w') == round64 (7392 # 1000)
    /\ lastDecay (rateLimit w')
       + (counter (rateLimit w') / decayRate (rateLimit w')) * 1000 <= 104900
    /\ counter (Double.decay_at 104900 (rateLimit w')) == 1 # 1125899906842624.
Proof.
  destruct (Double.reserveAll 1 quietEnv thirtyThreeUnits (doubleState 0))
    as [results |] eqn:E; [| vm_compute in E; discriminate].
  destruct (last results) as [[w' hist] |] eqn:L;
    [| vm_compute in E; injection E as <-; vm_compute in L; discriminate].
  exists results, w', hist. split; [reflexivity |]. split; [exact L |].
  vm_compute in E. injection E as <-. vm_compute in L. injection L as <- <-.
  split; [vm_compute; reflexivity |].
  split; [vm_compute; reflexivity |].
  split; [apply Qle_bool_iff; vm_compute; reflexivity | vm_compute; reflexivity].
Qed.


(** ** The FIFO replay in doubles *)

(** The cut never shows in doubles either: a pass removes its lot, or
    it subtracts the rest of the sell from itself, which is 0. *)
Lemma fifoLoop64_exits fuel st :
  (length (f_lots st) <= fuel)%nat \/ f_remaining st <= 0 ->
  fifo_guard (Double.fifoLoop fuel st) = false.
Proof.
  revert st. induction fuel as [| fuel IH]; intros st H; cbn [Double.fifoLoop].
  - unfold fifo_guard. destruct H as [H | H].
    + destruct (f_lots st); simpl in *; [apply andb_false_r | lia].
    + apply Qlt_bool_false in H. rewrite H. reflexivity.
  - destruct (fifo_guard st) eqn:G; [| exact G].
    apply IH. unfold fifo_guard in G. apply andb_true_iff in G.
    destruct G as [Gr Gl]. apply Qlt_bool_true in Gr.
    destruct H as [H | H]; [| lra].
    unfold Double.fifoBody. destruct (f_lots st) as [| lot rest]; simpl in *; [left; lia |].
    destruct (Qle_bool _ 0) eqn:E; simpl.
    + left. lia.
    + right. apply Qle_bool_false in E.
      destruct (Q.min_spec (f_remaining st) (lot_remaining lot)) as [[_ Hm] | [Hlr Hm]].
      * unfold fsub. rewrite (round64_zero (f_remaining st - _)) by (rewrite Hm; ring). lra.
      * exfalso. unfold fsub in E.
        rewrite (round64_zero (lot_remaining lot - _)) in E by (rewrite Hm; ring). lra.
Qed.

Lemma fifoMatch64_exits amt ls : fifo_guard (Double.fifoMatch amt ls) = false.
Proof. apply fifoLoop64_exits. left. simpl. lia. Qed.

Section GridFifo.
Variable j : Z.
Variable amt : Q.
Hypothesis amt_grid : grid j amt.

Lemma fifoBody64_grid st :
  fifo_guard st = true -> loop_ok j amt st ->
  loop_ok j amt (Double.fifoBody st)
  /\ sum_remaining (f_lots (Double.fifoBody st)) + f_amountMatched (Double.fifoBody st)
     == sum_remaining (f_lots st) + f_amountMatched st.
Proof.
  unfold fifo_guard, Double.fifoBody. intros G (Hl & Gr & Hr & Gm & Hm & Hsum).
  apply andb_true_iff in G. destruct G as [Gp Gn]. apply Qlt_bool_true in Gp.
  destruct (f_lots st) as [| lot rest] eqn:L; [discriminate Gn |].
  inversion Hl as [| ? ? [Gl Hl0] Hrest]; subst. cbv zeta.
    set (used := Qmin (f_remaining st) (lot_remaining lot)).
    assert (Hu : grid j used /\ 0 <= used /\ used <= f_remaining st
                 /\ used <= lot_remaining lot).
    { unfold used.
      destruct (Q.min_spec (f_remaining st) (lot_remaining lot)) as [[H1 H2] | [H1 H2]].
      - split; [apply (grid_comp j (f_remaining st)); [symmetry; exact H2 | exact Gr] |].
        repeat split; lra.
      - split; [apply (grid_comp j (lot_remaining lot)); [symmetry; exact H2 | exact Gl] |].
        repeat split; lra. }
    destruct Hu as (Gu & U0 & U1 & U2).
    assert (E1 : fsub (lot_remaining lot) used == lot_remaining lot - used)
      by (apply (round64_grid j), grid_sub; assumption).
    assert (E2 : fsub (f_remaining st) used == f_remaining st - used)
      by (apply (round64_grid j), grid_sub; assumption).
    assert (G3 : grid j (f_amountMatched st + used))
      by (apply (grid_add j _ _ amt); try assumption; lra).
    assert (E3 : fadd (f_amountMatched st) used == f_amountMatched st + used)
      by (apply (round64_grid j); exact G3).
    cbn [f_remaining f_amountMatched f_lots lot_remaining].
    assert (Hrest' : loop_ok j amt
              {| f_remaining := fsub (f_remaining st) used;
                 f_costBasisUsed := fadd (f_costBasisUsed st) (fmul used (lot_price lot));
                 f_amountMatched := fadd (f_amountMatched st) used;
                 f_lots := rest |}).
    { unfold loop_ok. cbn [f_remaining f_amountMatched f_lots].
      split; [exact Hrest |].
      split; [apply (grid_comp j (f_remaining st - used));
              [symmetry; exact E2 | apply grid_sub; assumption] |].
      split; [lra |].
      split; [apply (grid_comp j (f_amountMatched st + used)); [symmetry; exact E3 | exact G3] |].
      split; lra. }
    destruct (Qle_bool (fsub (lot_remaining lot) used) 0) eqn:E.
    + apply Qle_bool_iff in E. split; [exact Hrest' |].
      cbn [sum_remaining fold_right].
      change (fold_right _ 0 rest) with (sum_remaining rest). lra.
    + apply Qle_bool_false in E. split.
      * destruct Hrest' as (_ & R2 & R3 & R4 & R5 & R6). unfold loop_ok.
        cbn [f_remaining f_amountMatched f_lots].
        split; [| split; [exact R2 | split; [exact R3 | split; [exact R4 | split; [exact R5 | exact R6]]]]].
        constructor; [| exact Hrest]. unfold lot_on. cbn [lot_remaining].
        split; [| lra].
        apply (grid_comp j (lot_remaining lot - used));
          [symmetry; exact E1 | apply grid_sub; assumption].
      * cbn [sum_remaining fold_right lot_remaining].
        change (fold_right _ 0 rest) with (sum_remaining rest). lra.
Qed.

Lemma fifoLoop64_grid fuel st :
  loop_ok j amt st ->
  loop_ok j amt (Double.fifoLoop fuel st)
  /\ sum_remaining (f_lots (Double.fifoLoop fuel st)) + f_amountMatched (Double.fifoLoop fuel st)
     == sum_remaining (f_lots st) + f_amountMatched st.
Proof.
  revert st. induction fuel as [| fuel IH]; intros st H; cbn [Double.fifoLoop].
  - split; [exact H | lra].
  - destruct (fifo_guard st) eqn:G; [| split; [exact H | lra]].
    destruct (fifoBody64_grid st G H) as [B1 B2].
    destruct (IH _ B1) as [I1 I2]. split; [exact I1 | lra].
Qed.

(** The loop of a sell of [amt], started on lots of the grid. *)
Lemma fifoMatch64_grid ls :
  0 <= amt -> Forall (lot_on j) ls ->
  let m := Double.fifoMatch amt ls in
  Forall (lot_on j) (f_lots m)
  /\ 0 <= f_amountMatched m /\ f_amountMatched m <= amt
  /\ sum_remaining (f_lots m) + f_amountMatched m == sum_remaining ls.
Proof.
  intros Ha Hl. cbv zeta. unfold Double.fifoMatch.
  destruct (fifoLoop64_grid (length ls)
              {| f_remaining := amt; f_costBasisUsed := 0; f_amountMatched := 0;
                 f_lots := ls |}) as [(L1 & _ & L3 & _ & L5 & L6) C].
  { unfold loop_ok. cbn [f_remaining f_amountMatched f_lots].
    split; [exact Hl |]. split; [exact amt_grid |]. split; [exact Ha |].
    split; [apply grid_zero |]. split; lra. }
  cbn [f_lots f_amountMatched] in C.
  split; [exact L1 |]. split; [exact L5 |]. split; lra.
Qed.

End GridFifo.

Lemma inPlay_empty : inPlay emptyCostBasis == 0.
Proof. reflexivity. Qed.

Lemma grid_ok_empty j : grid_ok j emptyCostBasis.
Proof. split; constructor. Qed.

Lemma applyBuy64_grid j cb t :
  on_grid j t -> grid_ok j cb ->
  grid_ok j (Double.applyBuy cb t) /\ inPlay (Double.applyBuy cb t) == inPlay cb + vol t.
Proof.
  intros [Gt H0] [Hl Hm]. split.
  - split; cbn [Double.applyBuy lots completedTrades]; [| exact Hm].
    apply Forall_app. split; [exact Hl |]. constructor; [| constructor].
    cbn [lot_remaining]. split; assumption.
  - unfold inPlay. cbn [Double.applyBuy lots completedTrades].
    rewrite sum_remaining_app. simpl. lra.
Qed.

Lemma applySell64_grid j cb t :
  on_grid j t -> grid_ok j cb ->
  grid_ok j (Double.applySell cb t) /\ inPlay (Double.applySell cb t) == inPlay cb.
Proof.
  intros [Gt H0] [Hl Hm].
  destruct (fifoMatch64_grid j (vol t) Gt (lots cb) H0 Hl) as (M1 & M2 & M3 & M4).
  cbv zeta in M1, M2, M3, M4. split.
  - split; unfold Double.applySell; cbv zeta; cbn [lots completedTrades]; [exact M1 |].
    apply Forall_app. split; [exact Hm |]. constructor; [| constructor].
    unfold matched_ok. cbn [amountMatched amount]. split; assumption.
  - unfold inPlay, Double.applySell. cbv zeta. cbn [lots completedTrades].
    rewrite sum_matched_app. cbn [sum_matched fold_right amountMatched]. lra.
Qed.

Lemma replayTrade64_eq prs cbs trade :
  Double.replayTrade prs cbs trade =
  let asset := getAssetFromPair prs (pair trade) in
  if String.eqb (type trade) "buy"
  then Obj.set (ensure cbs asset) asset (Double.applyBuy (current cbs asset) trade)
  else if String.eqb (type trade) "sell"
  then Obj.set (ensure cbs asset) asset (Double.applySell (current cbs asset) trade)
  else ensure cbs asset.
Proof. unfold Double.replayTrade. cbv zeta. rewrite current_ensure. reflexivity. Qed.

(** One trade of the replay: the grid is kept, and what is in play of
    an asset grows by the volume of a buy of that asset. *)
Lemma replayTrade64_grid j prs cbs t a :
  on_grid j t -> entries_ok (grid_ok j) cbs ->
  entries_ok (grid_ok j) (Double.replayTrade prs cbs t)
  /\ inPlay (current (Double.replayTrade prs cbs t) a)
     == inPlay (current cbs a) + bought prs a [t].
Proof.
  intros Ht H. rewrite replayTrade64_eq. cbv zeta.
  set (asset := getAssetFromPair prs (pair t)).
  pose proof (current_ok (grid_ok j) (grid_ok_empty j) cbs asset H) as Hcur.
  pose proof (ensure_ok (grid_ok j) (grid_ok_empty j) cbs asset H) as Hens.
  pose proof (mu_ensure inPlay cbs asset a) as Me.
  destruct (applyBuy64_grid j _ t Ht Hcur) as [B1 B2].
  destruct (applySell64_grid j _ t Ht Hcur) as [S1 S2].
  unfold bought. cbn [fold_right]. fold asset.
  destruct (String.eqb (type t) "buy") eqn:Tb; cbn [andb].
  - split; [apply set_ok; assumption |].
    destruct (String.eqb_spec asset a) as [-> | Hne].
    + rewrite current_set. lra.
    + rewrite (mu_set_other inPlay) by exact Hne. lra.
  - destruct (String.eqb (type t) "sell").
    + split; [apply set_ok; assumption |].
      destruct (String.eqb_spec asset a) as [-> | Hne].
      * rewrite current_set. lra.
      * rewrite (mu_set_other inPlay) by exact Hne. lra.
    + split; [exact Hens | lra].
Qed.

Lemma fold_replay64_grid j prs ts : forall cbs a,
  Forall (on_grid j) ts -> entries_ok (grid_ok j) cbs ->
  entries_ok (grid_ok j) (fold_left (Double.replayTrade prs) ts cbs)
  /\ inPlay (current (fold_left (Double.replayTrade prs) ts cbs) a)
     == inPlay (current cbs a) + bought prs a ts.
Proof.
  induction ts as [| t ts IH]; intros cbs a Hts H.
  - split; [exact H | simpl; lra].
  - inversion Hts as [| ? ? Ht Hts']; subst. cbn [fold_left].
    destruct (replayTrade64_grid j prs cbs t a Ht H) as [R1 R2].
    destruct (IH (Double.replayTrade prs cbs t) a Hts' R1) as [I1 I2].
    split; [exact I1 |].
    pose proof (bought_app prs a [t] ts) as Hb. change ([t] ++ ts) with (t :: ts) in Hb. lra.
Qed.

Lemma replay64_grid j prs ledger a :
  Forall (on_grid j) (Obj.values ledger) ->
  grid_ok j (current (Double.replay prs ledger) a)
  /\ inPlay (current (Double.replay prs ledger) a) == bought prs a (Obj.values ledger).
Proof.
  intros H. unfold Double.replay.
  destruct (fold_replay64_grid j prs (stable_sort by_time_asc (Obj.values ledger)) [] a)
    as [F1 F2].
  - eapply Permutation_Forall; [apply stable_sort_perm | exact H].
  - intros b cb. discriminate.
  - split; [apply (current_ok (grid_ok j) (grid_ok_empty j)); exact F1 |].
    rewrite F2. change (inPlay (current [] a)) with (inPlay emptyCostBasis).
    rewrite (bought_perm prs a _ _ (stable_sort_perm by_time_asc (Obj.values ledger))).
    rewrite inPlay_empty. lra.
Qed.


(** Halves are on the grid of [2^-1]. *)
Lemma half_on_grid (t : Trade) (k : Z) :
  vol t == inject_Z k / 2 -> (0 <= k < 1000)%Z -> on_grid (- 1) t.
Proof.
  intros E Hk.
  assert (K0 : 0 <= inject_Z k) by (change 0 with (inject_Z 0); rewrite <- Zle_Qle; lia).
  assert (K1 : inject_Z k <= 1000) by (change 1000 with (inject_Z 1000); rewrite <- Zle_Qle; lia).
  assert (P : pow2 (53 + - 1) == 4503599627370496) by reflexivity.
  set (h := inject_Z k / 2) in *. assert (Hh : h * 2 == inject_Z k) by (unfold h; field).
  split; [split; [exists k; change (pow2 (- 1)) with (1 # 2); lra |] |].
  - rewrite P. clearbody h. split; lra.
  - clearbody h. lra.
Qed.

Lemma scenarioA_on_grid : Forall (on_grid (- 1)) (ledgerTrades scenarioA_world).
Proof.
  constructor; [| constructor; [| constructor; [| constructor]]].
  - apply (half_on_grid _ 2); [reflexivity | lia].
  - apply (half_on_grid _ 3); [reflexivity | lia].
  - apply (half_on_grid _ 2); [reflexivity | lia].
Qed.





(** X12.  A decay pass in doubles never makes the counter negative,
    and a pass not before the last one never raises a counter that is a
    non-negative double. *)
Theorem decay_never_raises (now : Q) (rl : RateLimit) :
  representable (counter rl) -> 0 <= counter rl -> 0 <= decayRate rl ->
  lastDecay rl <= now ->
  0 <= counter (Double.decay_at now rl)
  /\ counter (Double.decay_at now rl) <= counter rl.
Proof.
  intros Hrep Hc Hr Hl. split; [apply decay64_nonneg |].
  unfold Double.decay_at. cbn [counter].
  assert (Hd : 0 <= fmul (fdiv (fsub now (lastDecay rl)) 1000) (decayRate rl)).
  { unfold fmul. apply round64_nonneg. apply Qmult_le_0_compat; [| exact Hr].
    unfold fdiv. apply round64_nonneg.
    assert (H1 : 0 <= fsub now (lastDecay rl)) by (unfold fsub; apply round64_nonneg; lra).
    set (x := fsub now (lastDecay rl)) in *. set (q := x / 1000).
    assert (q * 1000 == x) by (unfold q; field). clearbody q. lra. }
  set (d := fmul _ _) in *.
  assert (Hs : fsub (counter rl) d <= counter rl).
  { unfold fsub. unfold representable in Hrep. rewrite <- Hrep at 2.
    apply round64_mono. lra. }
  apply Q.max_lub; lra.
Qed.

Lemma decay_never_raises_witness :
  counter (Double.decay_at 9000 busyLimit) <= 10.
Proof.
  apply (decay_never_raises 9000 busyLimit).
  - vm_compute. reflexivity.
  - simpl. lra.
  - apply Qle_bool_iff. vm_compute. reflexivity.
  - simpl. lra.
Defined.

(** ** The computed wait *)

Lemma round64_positive x : 0 < x -> 0 < round64 x.
Proof. intros H. rewrite (round64_pos x H). apply round_pos_positive. exact H. Qed.

Lemma round64_thousand : round64 1000 == 1000.
Proof. vm_compute. reflexivity. Qed.

Lemma round64_1500 : round64 1500 == 1500.
Proof. vm_compute. reflexivity. Qed.

(** X11.  Whenever the loop of [waitForRateLimit] finds the budget
    short, the wait it computes, in doubles, is at least 1500 ms: a
    shortfall, however small, is rounded up to a whole second of decay
    before the half second is added. *)
Theorem wait_is_at_least_1500 (cost : Q) (rl : RateLimit) :
  0 < decayRate rl ->
  maxCounter rl < fadd (counter rl) cost ->
  1500 <= Double.waitTime cost rl.
Proof.
  intros Hr Hg. unfold Double.waitTime.
  set (d := fsub (fadd (counter rl) cost) (maxCounter rl)).
  assert (Hd : 0 < d) by (apply round64_positive; lra).
  assert (Hq : 0 < fdiv d (decayRate rl)).
  { apply round64_positive. apply Qlt_shift_div_l; lra. }
  set (k := Qceiling (fdiv d (decayRate rl))).
  assert (Hk : 1 <= inject_Z k).
  { pose proof (Qle_ceiling (fdiv d (decayRate rl))) as C. fold k in C.
    assert (H : inject_Z 0 < inject_Z k) by (change (inject_Z 0) with 0; lra).
    rewrite <- Zlt_Qlt in H. change 1 with (inject_Z 1). rewrite <- Zle_Qle. lia. }
  assert (Hm : 1000 <= fmul (inject_Z k) 1000).
  { pose proof (round64_mono 1000 (inject_Z k * 1000)) as M.
    pose proof round64_thousand as E. unfold fmul. lra. }
  pose proof (round64_mono 1500 (fmul (inject_Z k) 1000 + 500)) as M.
  pose proof round64_1500 as E. unfold fadd at 1. lra.
Qed.

Lemma wait_is_at_least_1500_witness : 1500 <= Double.waitTime 10 busyLimit.
Proof.
  apply (wait_is_at_least_1500 10 busyLimit); vm_compute; reflexivity.
Defined.

(** ** Balance history *)

(** X19.  [recordBalanceSnapshot] at a clock reading not before the
    history: the new snapshot is kept and is the last entry, every
    entry kept is younger than seven days, and the history stays in
    time order.  The snapshot carries the balance and the price it was
    given; its BTC equivalent is the quotient the code computes, which
    is not negative for a balance that is not, and it is 0 without a
    positive price. *)
Theorem snapshot_keeps_last_week (now eur btc : Q) (history : list Snapshot) :
  history_ok now history ->
  let history' := recordBalanceSnapshot now eur btc history in
  history_ok now history'
  /\ Forall (fun e => now - 7 * 24 * 60 * 60 * 1000 < timestamp e) history'
  /\ exists s, last history' = Some s
       /\ In s history'
       /\ timestamp s = now /\ balanceEUR s = eur /\ btcPrice s = btc
       /\ (0 < btc -> balanceBTC s = fdiv eur btc /\ (0 <= eur -> 0 <= balanceBTC s))
       /\ (btc <= 0 -> balanceBTC s = 0).
Proof.
  intros [Ho Hf]. cbv zeta. unfold recordBalanceSnapshot. cbv zeta.
  set (s := {| timestamp := now; balanceEUR := eur;
               balanceBTC := if Qlt_bool 0 btc then fdiv eur btc else 0; btcPrice := btc |}).
  set (keep := fun entry => Qlt_bool (now - 7 * 24 * 60 * 60 * 1000) (timestamp entry)).
  assert (Hs : keep s = true) by (unfold keep; apply Qlt_bool_true; simpl; lra).
  rewrite List.filter_app. cbn [List.filter]. rewrite Hs.
  split; [split |]; [| | split].
  - assert (Hsn : ordered Qle_bool (map timestamp (List.filter keep history) ++ [now])).
    { apply ordered_snoc; [apply ordered_filter_Q; exact Ho |].
      apply List.Forall_forall. intros t Ht. apply in_map_iff in Ht.
      destruct Ht as (e & <- & He). apply List.filter_In in He.
      rewrite List.Forall_forall in Hf. apply Hf. tauto. }
    rewrite map_app. exact Hsn.
  - apply Forall_app. split; [| constructor; [simpl; lra | constructor]].
    apply List.Forall_forall. intros e He. apply List.filter_In in He.
    rewrite List.Forall_forall in Hf. apply Hf. tauto.
  - apply Forall_app. split; [| constructor; [simpl; lra | constructor]].
    apply List.Forall_forall. intros e He. apply List.filter_In in He.
    destruct He as [_ He]. unfold keep in He. apply Qlt_bool_true in He. exact He.
  - exists s. split; [apply last_snoc |]. split; [apply in_or_app; right; left; reflexivity |].
    split; [reflexivity |]. split; [reflexivity |]. split; [reflexivity |].
    unfold s; cbn [balanceBTC]. split.
    + intros Hb. replace (Qlt_bool 0 btc) with true by (symmetry; apply Qlt_bool_true; exact Hb).
      split; [reflexivity |]. intros He. unfold fdiv. apply round64_nonneg.
      apply Qle_shift_div_l; [exact Hb | lra].
    + intros Hb. replace (Qlt_bool 0 btc) with false; [reflexivity |].
      symmetry. apply Qlt_bool_false. exact Hb.
Qed.

Lemma twoSnapshots_ok : history_ok 1000000000 twoSnapshots.
Proof.
  split; [simpl; repeat split |]; repeat constructor; simpl; vm_compute; discriminate.
Qed.

Lemma snapshot_keeps_last_week_witness :
  history_ok 1000000000 (recordBalanceSnapshot 1000000000 1100 55000 twoSnapshots)
  /\ length (recordBalanceSnapshot 1000000000 1100 55000 twoSnapshots) = 2%nat.
Proof.
  destruct (snapshot_keeps_last_week 1000000000 1100 55000 twoSnapshots twoSnapshots_ok)
    as (H & _).
  split; [exact H | reflexivity].
Defined.

(** ** The cost side of a position *)

Lemma fold_lotStep ls : forall a,
  Forall lot_ok ls ->
  totalCost (fold_left lotStep ls a)
  = fold_left (fun acc l => acc + lot_remaining l * lot_price l) ls (totalCost a)
  /\ totalAmount (fold_left lotStep ls a)
     = fold_left (fun acc l => acc + lot_remaining l) ls (totalAmount a).
Proof.
  induction ls as [| l ls IH]; intros a H.
  - split; reflexivity.
  - inversion H as [| ? ? [Hpos _] Hls]; subst. cbn [fold_left].
    destruct (IH (lotStep a l) Hls) as (I1 & I2). rewrite I1, I2.
    unfold lotStep.
    replace (Qlt_bool 0 (lot_remaining l)) with true
      by (symmetry; apply Qlt_bool_true; exact Hpos).
    split; reflexivity.
Qed.

Lemma openAmount_grows ls : forall z,
  Forall lot_ok ls ->
  z <= fold_left (fun acc l => acc + lot_remaining l) ls z
  /\ (ls <> [] -> z < fold_left (fun acc l => acc + lot_remaining l) ls z).
Proof.
  induction ls as [| l ls IH]; intros z H.
  - split; [simpl; lra | intros C; congruence].
  - inversion H as [| ? ? [Hpos _] Hls]; subst. cbn [fold_left].
    destruct (IH (z + lot_remaining l) Hls) as [I _].
    split; [| intros _]; lra.
Qed.



(** ** Which pair a name finds *)

Lemma prefix_XX_X (base : string) :
  String.prefix "XX" base = true -> String.prefix "X" base = true.
Proof.
  destruct base as [| c base]; cbn [String.prefix]; [discriminate |].
  destruct (Ascii.ascii_dec _ c) as [_ | _]; [| discriminate].
  intros _. destruct base; reflexivity.
Qed.

(** Each key of [state.assetToPairMap] names a pair of the listing
    whose base it is an alias of, and [state.pairs] holds entries of
    the listing only. *)
Lemma fold_loadPair_alias (listing : Obj.t string) (result : Obj.t string) : forall b,
  incl result listing ->
  Forall (fun e => In e listing) (book b) ->
  (forall a p, Obj.get (assetToPairMap b) a = Some p ->
     exists base, In (p, base) listing /\ alias_of a base) ->
  let b' := fold_left loadPair result b in
  Forall (fun e => In e listing) (book b')
  /\ (forall a p, Obj.get (assetToPairMap b') a = Some p ->
        exists base, In (p, base) listing /\ alias_of a base).
Proof.
  induction result as [| [pair base] result IH]; intros b Hincl Hb Hm; cbv zeta.
  - split; assumption.
  - cbn [fold_left].
    assert (Hhead : In (pair, base) listing) by (apply Hincl; left; reflexivity).
    assert (Htail : incl result listing) by (intros x Hx; apply Hincl; right; exact Hx).
    apply IH; [exact Htail | |]; unfold loadPair; cbn [fst snd];
      destruct (eur_pair pair && negb (has_dot pair)); try assumption;
      cbv zeta; cbn [book assetToPairMap].
    + apply set_Forall; assumption.
    + assert (Hset : forall m a0, alias_of a0 base ->
                (forall a p, Obj.get m a = Some p ->
                   exists base', In (p, base') listing /\ alias_of a base') ->
                forall a p, Obj.get (Obj.set m a0 pair) a = Some p ->
                   exists base', In (p, base') listing /\ alias_of a base').
      { intros m a0 Ha H a p. destruct (String.eqb_spec a0 a) as [-> | Hne].
        - rewrite get_set_same. intros [= <-]. exists base. split; assumption.
        - rewrite get_set_other by exact Hne. apply H. }
      assert (A0 : alias_of base base) by (left; reflexivity).
      destruct (String.prefix "XX" base) eqn:P2; cbn [andb].
      * pose proof (prefix_XX_X base P2) as P1. rewrite P1. cbn [andb].
        assert (A1 : alias_of (slice 1 base) base)
          by (right; left; split; [exact P1 | reflexivity]).
        assert (A2 : alias_of (slice 2 base) base)
          by (right; right; split; [exact P2 | reflexivity]).
        destruct (String.length base <=? 6)%nat; destruct (String.length base <=? 5)%nat;
          repeat (apply Hset; [assumption |]); exact Hm.
      * destruct (String.prefix "X" base) eqn:P1; cbn [andb].
        -- assert (A1 : alias_of (slice 1 base) base)
             by (right; left; split; [exact P1 | reflexivity]).
           destruct (String.length base <=? 5)%nat;
             repeat (apply Hset; [assumption |]); exact Hm.
        -- apply Hset; [exact A0 | exact Hm].
Qed.

(** X24.  After [fetchPairs], a name that is, in any letter case and
    with blanks around it, the base of a loaded pair is found, and what
    is found is a pair of the listing tied to the name: the pair filed
    last under the name, whose base is the name or the name behind a
    leading X or XX; or a pair named as one of the four variations of
    the name; or a pair whose base matches the name in the search by
    base.  It need not be the pair the name is the base of. *)
Theorem base_of_loaded_pair_is_found (result : Obj.t string) (b0 b : PairBook)
    (loaded : Obj.t string) (assetName pair : string) :
  fetchPairs (Some result) b0 = (Some loaded, b) ->
  assetName <> "" ->
  Obj.get loaded pair = Some (trim (toUpperCase assetName)) ->
  exists found base,
    findPairForAsset b assetName = Some found
    /\ In (found, base) result
    /\ pair_for (trim (toUpperCase assetName)) found base.
Proof.
  unfold fetchPairs. intros [= <- <-] Hne G.
  destruct (fold_loadPair result {| book := []; assetToPairMap := [] |})
    as (H1 & _ & _); [discriminate | discriminate |].
  destruct (fold_loadPair_alias result result {| book := []; assetToPairMap := [] |})
    as (B1 & B2); [intros x Hx; exact Hx | constructor | discriminate |].
  set (b := fold_left loadPair result _) in *.
  unfold findPairForAsset.
  destruct (String.eqb_spec assetName "") as [-> | _]; [congruence |].
  cbv zeta. set (normalized := trim (toUpperCase assetName)) in *.
  change [String.append normalized "EUR"; String.append normalized "ZEUR";
          String.append "X" (String.append normalized "ZEUR");
          String.append "XX" (String.append (slice 1 normalized) "ZEUR")]
    with (variations normalized).
  assert (Hlast : exists e, List.find (fun e => base_matches normalized (snd e)
                                                && eur_pair (fst e)) (book b) = Some e).
  { destruct (List.find _ (book b)) as [e |] eqn:F; [exists e; reflexivity |].
    exfalso. pose proof (find_none_all _ _ (pair, normalized) F (Forall_In_get _ _ _ G)) as N.
    cbn [fst snd] in N. unfold base_matches in N. rewrite String.eqb_refl in N.
    rewrite (proj1 (H1 pair normalized G)) in N. discriminate. }
  destruct Hlast as [e He]. rewrite He.
  assert (Hrest :
    exists found base,
      match List.find (fun v => known_pair (book b) v) (variations normalized) with
      | Some v => Some v
      | None => Some (fst e)
      end = Some found
      /\ In (found, base) result /\ pair_for normalized found base).
  { destruct (List.find (fun v => known_pair (book b) v) (variations normalized))
      as [v |] eqn:F1.
    - apply find_some_In in F1. destruct F1 as [Hv Hk]. unfold known_pair in Hk.
      destruct (Obj.get (book b) v) as [base |] eqn:Gv; [| discriminate].
      exists v, base. split; [reflexivity |]. split.
      + rewrite List.Forall_forall in B1. apply B1. apply Forall_In_get. exact Gv.
      + right; left; exact Hv.
    - apply find_some_In in He. destruct He as [Hin Hm].
      apply andb_true_iff in Hm. destruct Hm as [Hm _].
      exists (fst e), (snd e). split; [reflexivity |]. split.
      + rewrite List.Forall_forall in B1. rewrite <- surjective_pairing. apply B1. exact Hin.
      + right; right; exact Hm. }
  destruct (Obj.get (assetToPairMap b) normalized) as [p |] eqn:M; [| exact Hrest].
  destruct (String.eqb p ""); [exact Hrest |].
  destruct (B2 normalized p M) as (base & Hin & Ha).
  exists p, base. split; [reflexivity |]. split; [exact Hin | left; exact Ha].
Qed.

Lemma base_of_loaded_pair_is_found_witness :
  exists found base,
    findPairForAsset someBook " ada" = Some found
    /\ In (found, base) somePairs
    /\ pair_for "ADA" found base.
Proof.
  apply (base_of_loaded_pair_is_found somePairs emptyBook someBook (book someBook)
           " ada" "ADAEUR" eq_refl).
  - discriminate.
  - vm_compute. reflexivity.
Defined.

(** With [shadowPairs] loaded, the name dg finds the pair of XDG, filed
    under DG after the pair of DG itself. *)
Lemma alias_shadows_base :
  findPairForAsset (snd (fetchPairs (Some shadowPairs) emptyBook)) "dg" = Some "XDGEUR".
Proof. vm_compute. reflexivity. Qed.

(** ** Ticker *)

Lemma round_bounds (x : Q) (lo hi : Z) :
  inject_Z lo <= x -> x <= inject_Z hi -> (lo <= round x <= hi)%Z.
Proof.
  intros Hlo Hhi. unfold round. split.
  - apply Qfloor_resp_le in Hlo as H. rewrite Qfloor_Z in H.
    eapply Z.le_trans; [exact H |]. apply Qfloor_resp_le. lra.
  - assert (H : x + (1 # 2) < inject_Z (hi + 1)).
    { rewrite inject_Z_plus. change (inject_Z 1) with 1. lra. }
    assert (H2 : (Qfloor (x + (1 # 2)) < hi + 1)%Z).
    { apply Z.lt_nge. intros Hc.
      pose proof (Qfloor_le (x + (1 # 2))) as F.
      rewrite Zle_Qle in Hc. lra. }
    lia.
Qed.

Lemma round64_one : round64 1 == 1.
Proof. vm_compute. reflexivity. Qed.

Lemma round64_hundred : round64 100 == 100.
Proof. vm_compute. reflexivity. Qed.

(** A quotient of doubles between 0 and 1, as a percentage in doubles,
    is between 0 and 100. *)
Lemma percent_bounds (x : Q) :
  0 <= x -> x <= 1 -> 0 <= fmul (round64 x) 100 /\ fmul (round64 x) 100 <= 100.
Proof.
  intros H0 H1.
  pose proof (round64_nonneg x H0) as D0.
  pose proof (round64_mono x 1 H1) as D1.
  pose proof round64_one as E1. pose proof round64_hundred as E100.
  unfold fmul. split.
  - apply round64_nonneg. lra.
  - pose proof (round64_mono (round64 x * 100) 100) as M. lra.
Qed.

(** X25.  The computed ticker fields, in doubles: with a price inside
    a 24 h range of positive width, [distFromLow] is a percentage
    between 0 and 100; [dayMove] is never negative when the high is not
    below the low; and neither the spread nor [spreadPct] is negative
    when the ask is not below the bid. *)
Theorem ticker_stats_in_range (price low24 high24 askPrice bidPrice : Q) :
  low24 <= price -> price <= high24 ->
  let s := tickerStats price low24 high24 askPrice bidPrice in
  (0 <= distFromLow s <= 100)%Z
  /\ (0 <= dayMove s)%Z
  /\ (bidPrice <= askPrice -> 0 <= spread s /\ 0 <= spreadPct s).
Proof.
  intros Hlo Hhi. cbv zeta. unfold tickerStats. cbv zeta.
  cbn [distFromLow dayMove spread spreadPct].
  assert (R0 : 0 <= fsub high24 low24) by (apply round64_nonneg; lra).
  split; [| split].
  - destruct (Qlt_bool 0 (fsub high24 low24)) eqn:R; [| lia].
    apply Qlt_bool_true in R.
    assert (N0 : 0 <= fsub price low24) by (apply round64_nonneg; lra).
    assert (N1 : fsub price low24 <= fsub high24 low24) by (apply round64_mono; lra).
    set (range := fsub high24 low24) in *. set (num := fsub price low24) in *.
    assert (Q0 : 0 <= num / range) by (apply Qle_shift_div_l; lra).
    assert (Q1 : num / range <= 1) by (apply Qle_shift_div_r; lra).
    destruct (percent_bounds (num / range) Q0 Q1) as [P0 P1].
    apply round_bounds; unfold fdiv; unfold inject_Z; lra.
  - destruct (Qlt_bool 0 low24) eqn:L; [| lia]. apply Qlt_bool_true in L.
    set (range := fsub high24 low24) in *.
    assert (Q0 : 0 <= range / low24) by (apply Qle_shift_div_l; lra).
    assert (D0 : 0 <= fdiv range low24) by (apply round64_nonneg; exact Q0).
    assert (M0 : 0 <= fmul (fdiv range low24) 100) by (apply round64_nonneg; lra).
    unfold round. change 0%Z with (Qfloor 0). apply Qfloor_resp_le. lra.
  - intros Hs.
    assert (S0 : 0 <= fsub askPrice bidPrice) by (apply round64_nonneg; lra).
    split; [exact S0 |].
    destruct (Qlt_bool 0 bidPrice) eqn:B; [| lra]. apply Qlt_bool_true in B.
    set (sp := fsub askPrice bidPrice) in *.
    assert (Q0 : 0 <= sp / bidPrice) by (apply Qle_shift_div_l; lra).
    assert (D0 : 0 <= fdiv sp bidPrice) by (apply round64_nonneg; exact Q0).
    apply round64_nonneg. lra.
Qed.

Lemma ticker_stats_in_range_witness :
  (0 <= distFromLow (tickerStats 105 100 110 106 104) <= 100)%Z.
Proof.
  apply (ticker_stats_in_range 105 100 110 106 104); lra.
Defined.

(** At a last price of 1.035 in a range from 1 to 2, the difference
    [price - low24] is a little under 0.035 in doubles, and
    [distFromLow] is 3. *)
Lemma ticker_rounds_as_coded :
  distFromLow (tickerStats (round64 (1035 # 1000)) 1 2 2 1) = 3%Z.
Proof. vm_compute. reflexivity. Qed.
